(** * krci-cache: the secure tar.gz extractor ([uploader.UntarGz])

    A shallow embedding of the archive extractor of the uploader package
    (constants [MaxFileSize], [MaxTotalSize]; functions [UntarGz],
    [extractArchive], [validateTotalSize], [processEntry], [isPathSafe],
    [handleDirectory], [handleRegularFile] and the [trackingWriter]) together
    with a model of the parts of the Go runtime it calls: [path/filepath]
    (Unix flavour), [io.Copy], and the [os] calls Stat, MkdirAll, OpenFile,
    File.Write and Remove over a finite-map file system.

    Conventions.
    - An [int64] is a [Z]; additions and multiplications performed by the
      code are wrapped with [wrap64].
    - Path strings are [string]s, as in the code; the file system resolves
      a path string to its list of components ([segs]).
    - The decoder ([tar.Reader] over [gzip.Reader]) is a finite list of
      entries; the content of an entry is the list of chunks that the
      successive [Read] calls of [io.Copy] deliver, and how the reads end.
      The extractor is defined on every such list; [receivable] says what
      [tar.Reader] can deliver for a header (no more than the declared
      size).
    - The operating system is a parameter ([OS]): the working directory,
      the umask of the process, and how many bytes of a write the device
      accepts.
    - The file system holds directories and regular files with their
      permission bits, and there are no links in it. An object is created
      with the requested mode less the umask. A missing path and a path
      under a file are the failures of the calls. Access rights are
      recorded, not enforced: a call of the model succeeds where a process
      with every right succeeds, and the properties that promise a success
      state the rights it takes ([enterable], [writable], [way_open]).
    - The warnings that the code prints are not part of the state.

    The second part embeds the handlers of the upload server of the same
    package ([upload], [handleTarGzUpload], [handleRegularUpload],
    [uploaderDelete], [deleteOldFilesOfDir], [findFilesOlderThanXDays],
    [isOlderThanXDays] and the [Validator] of the basic authentication):
    a handler is a function of the request values, the upload directory
    and the file system, and returns the file system and the response.
    The modification times are a parameter, as the clock is. *)

From Stdlib Require Import ZArith Ascii Lia.
From Stdlib Require String.
From stdpp Require Import base option list strings gmap fin_maps sorting.

Local Open Scope Z_scope.

(** ** Machine integers *)

Definition wrap64 (z : Z) : Z := (z + 2 ^ 63) mod 2 ^ 64 - 2 ^ 63.
Definition int64 (z : Z) : Prop := - 2 ^ 63 <= z < 2 ^ 63.
Definition add64 (a b : Z) : Z := wrap64 (a + b).
Definition mul64 (a b : Z) : Z := wrap64 (a * b).

(** [len p], the Go [int64(len(p))] of a byte slice. *)
Definition len {A} (p : list A) : Z := Z.of_nat (length p).

(** ** Constants of the package *)

(** MaxFileSize limits individual file size (2GB). *)
Definition MaxFileSize : Z := 2 * 1024 * 1024 * 1024.
(** MaxTotalSize limits total extraction size (8GB). *)
Definition MaxTotalSize : Z := 8 * 1024 * 1024 * 1024.

(** ** Strings and [path/filepath] on Unix *)

Module Path.

Definition sep : ascii := "/"%char.
Definition is_sep (c : ascii) : bool := Ascii.eqb c sep.

(** [strings.Split(s, "/")]: never empty, [""] for the empty string. *)
Fixpoint split (s : string) : list string :=
  match s with
  | EmptyString => [EmptyString]
  | String c s' =>
      if is_sep c then EmptyString :: split s'
      else match split s' with
           | [] => [String c EmptyString]
           | x :: xs => String c x :: xs
           end
  end.

(** [strings.Join(l, "/")]. *)
Fixpoint join (l : list string) : string :=
  match l with
  | [] => EmptyString
  | x :: xs =>
      match xs with
      | [] => x
      | _ :: _ => x +:+ String sep (join xs)
      end
  end.

(** [strings.HasPrefix(s, p)]. *)
Fixpoint HasPrefix (s p : string) : bool :=
  match p with
  | EmptyString => true
  | String c p' =>
      match s with
      | EmptyString => false
      | String d s' => Ascii.eqb c d && HasPrefix s' p'
      end
  end.

(** [filepath.IsAbs]. *)
Definition IsAbs (s : string) : bool :=
  match s with
  | String c _ => is_sep c
  | EmptyString => false
  end.

Definition dot : string := ".".
Definition dotdot : string := "..".

(** One step of the lexical processing of [filepath.Clean]: [acc] is the
    reversed list of the components kept so far. *)
Definition clean_step (rooted : bool) (acc : list string) (c : string)
  : list string :=
  if bool_decide (c = EmptyString) then acc
  else if bool_decide (c = dot) then acc
  else if bool_decide (c = dotdot) then
    match acc with
    | [] => if rooted then [] else [dotdot]
    | x :: acc' => if bool_decide (x = dotdot) then dotdot :: acc else acc'
    end
  else c :: acc.

Definition clean_comps (rooted : bool) (cs : list string) : list string :=
  rev (fold_left (clean_step rooted) cs []).

Definition render (rooted : bool) (cs : list string) : string :=
  if rooted then String sep (join cs)
  else match cs with
       | [] => dot
       | _ :: _ => join cs
       end.

(** [filepath.Clean]: collapse separators, drop [.], resolve inner [..],
    drop [..] at the root; the empty result is [.]. *)
Definition Clean (s : string) : string :=
  render (IsAbs s) (clean_comps (IsAbs s) (split s)).

(** [filepath.Join(a, b)] for two elements: empty elements are ignored,
    the rest is joined by the separator and cleaned; all empty gives [""]. *)
Definition Join (a b : string) : string :=
  match a, b with
  | EmptyString, EmptyString => EmptyString
  | EmptyString, _ => Clean b
  | _, EmptyString => Clean a
  | _, _ => Clean (a +:+ String sep b)
  end.

(** [filepath.Abs] with the working directory [cwd] ([None]: [os.Getwd]
    fails). *)
Definition Abs (cwd : option string) (s : string) : option string :=
  if IsAbs s then Some (Clean s)
  else match cwd with
       | Some d => Some (Join d s)
       | None => None
       end.

(** [filepath.Dir]: everything up to the last separator, cleaned. *)
Definition Dir (s : string) : string :=
  match split s with
  | [] | [_] => Clean EmptyString
  | cs => Clean (join (removelast cs) +:+ String sep EmptyString)
  end.

(** The components under which the kernel files a path: the separators
    and the empty and [.] components carry no name. *)
Definition segs (s : string) : list string :=
  filter (fun c => c <> EmptyString /\ c <> dot) (split s).

(** A component: a string with no separator in it. *)
Definition slash_free (c : string) : Prop := split c = [c].

(** A component of a cleaned absolute path. *)
Definition comp_ok (c : string) : Prop :=
  c <> EmptyString /\ c <> dot /\ c <> dotdot /\ slash_free c.

Definition canon (cs : list string) : Prop := Forall comp_ok cs.

(** The string of a canonical component list. *)
Definition abs_path (cs : list string) : string := String sep (join cs).

End Path.

(** ** Errors

    The code builds its errors with [fmt.Errorf]; each format string is a
    constructor, and [%w] wrapping is an argument of type [error]. *)

Inductive error : Type :=
  (* operating system *)
  | ENOTDIR (k : list string)
  | EISDIR (k : list string)
  | ENOENT (k : list string)
  | EEXIST (k : list string)
  | ENOTEMPTY (k : list string)
  | ENOSPC
  (* readers and io.Copy *)
  | ErrUnexpectedEOF
  | ErrShortWrite
  | ErrInvalidWrite
  (* uploader *)
  | ErrAbsDestination                      (* failed to get absolute path for destination *)
  | ErrGzipReader                          (* failed to create gzip reader *)
  | ErrReadHeader (cause : error)          (* failed to read tar header *)
  | ErrFileTooLarge (name : string)        (* file %s exceeds maximum size limit *)
  | ErrUnsafePath (name : string)          (* unsafe path detected *)
  | ErrTotalSize                           (* archive exceeds maximum total size limit *)
  | ErrCreateDirectory (name : string) (cause : error) (* failed to create directory *)
  | ErrExtractFile (name : string) (cause : error)     (* failed to extract file *)
  | ErrLinkNotAllowed (name : string)      (* symlinks and hard links are not allowed *)
  | ErrNotADirectory (target : string)     (* path exists but is not a directory *)
  | ErrParentDirectory (cause : error)     (* failed to create parent directory *)
  | ErrCreateFile (cause : error)          (* failed to create file *)
  | ErrWriteContent (cause : error)        (* failed to write file content *)
  | ErrSizeAnomaly (name : string) (written size : Z). (* wrote more bytes than reasonable *)

(** ** The file system *)

Inductive node : Type :=
  | Dir (perm : Z)
  | File (perm : Z) (data : list Byte.byte).

(** A file system maps the component list of a path to the object there. *)
Abbreviation FS := (gmap (list string) node).

(** The parameters of the operating system: the working directory of the
    process, its file mode creation mask, and how many bytes of a write to
    the file at [k] the device accepts in the state [w] (a short write is an
    error). *)
Record OS : Type := {
  cwd : option string;
  umask : Z;
  accept : FS -> list string -> list Byte.byte -> nat
}.

Module Os.

Definition ModePerm : Z := 511. (* 0777 *)

(** The root directory always exists. *)
Definition lookup (w : FS) (k : list string) : option node :=
  match k with
  | [] => Some (Dir 493)
  | _ :: _ => w !! k
  end.

(** The mode an object is created with: the bits of the umask of the
    process are cleared ([mkdir(2)], [open(2)]). *)
Definition masked (os : OS) (perm : Z) : Z := Z.land perm (Z.lnot (umask os)).

(** [os.Stat]: [None] is any error. *)
Definition Stat (w : FS) (path : string) : option node :=
  lookup w (Path.segs path).

(** [os.Mkdir] on a component list. *)
Definition Mkdir (os : OS) (w : FS) (k : list string) (perm : Z)
  : FS * option error :=
  match lookup w k with
  | Some _ => (w, Some (EEXIST k))
  | None =>
      match lookup w (removelast k) with
      | Some (Dir _) => (<[k := Dir (masked os perm)]> w, None)
      | Some (File _ _) => (w, Some (ENOTDIR k))
      | None => (w, Some (ENOENT k))
      end
  end.

(** [os.MkdirAll], on the reversed component list [rk]: the fast path
    looks at the path itself, the slow path makes the parent first and
    then calls [Mkdir]. *)
Fixpoint mkdirAll (os : OS) (w : FS) (rk : list string) (perm : Z)
  : FS * option error :=
  match lookup w (rev rk) with
  | Some (Dir _) => (w, None)
  | Some (File _ _) => (w, Some (ENOTDIR (rev rk)))
  | None =>
      match rk with
      | [] => (w, None)
      | _ :: rk' =>
          match mkdirAll os w rk' perm with
          | (w1, Some e) => (w1, Some e)
          | (w1, None) => Mkdir os w1 (rev rk) perm
          end
      end
  end.

Definition MkdirAll (os : OS) (w : FS) (path : string) (perm : Z)
  : FS * option error :=
  mkdirAll os w (rev (Path.segs path)) perm.

(** [os.OpenFile(path, O_CREATE|O_TRUNC|O_WRONLY, perm)]: an existing
    file is truncated and keeps its mode, a missing one is created in its
    parent directory, with the mode left by the umask. *)
Definition OpenFile (os : OS) (w : FS) (path : string) (perm : Z)
  : FS * option error :=
  let k := Path.segs path in
  match lookup w k with
  | Some (Dir _) => (w, Some (EISDIR k))
  | Some (File m _) => (<[k := File m []]> w, None)
  | None =>
      match lookup w (removelast k) with
      | Some (Dir _) => (<[k := File (masked os perm) []]> w, None)
      | Some (File _ _) => (w, Some (ENOTDIR k))
      | None => (w, Some (ENOENT k))
      end
  end.

Definition is_proper_prefix (k k' : list string) : bool :=
  bool_decide (k `prefix_of` k') && negb (bool_decide (k = k')).

(** [os.Remove]: unlinks a file, removes an empty directory. *)
Definition Remove (w : FS) (path : string) : FS * option error :=
  let k := Path.segs path in
  match w !! k with
  | Some (File _ _) => (delete k w, None)
  | Some (Dir _) =>
      if existsb (fun kv => is_proper_prefix k (fst kv)) (map_to_list w)
      then (w, Some (ENOTEMPTY k))
      else (delete k w, None)
  | None => (w, Some (ENOENT k))
  end.

(** An open file: the file system it lives in and where. *)
Record file : Type := { fs : FS; key : list string }.

(** [os.File.Write]: appends the accepted part of [p]; fewer bytes
    than [len p] comes with an error. *)
Definition Write (os : OS) (f : file) (p : list Byte.byte)
  : file * Z * option error :=
  let n := Nat.min (accept os (fs f) (key f) p) (length p) in
  let w' := match fs f !! key f with
            | Some (File m d) => <[key f := File m (d ++ take n p)]> (fs f)
            | _ => fs f
            end in
  ({| fs := w'; key := key f |}, Z.of_nat n,
   if (n <? length p)%nat then Some ENOSPC else None).

End Os.

(** ** Writers and [io.Copy] *)

(** The [io.Writer] interface. *)
Class Writer (W : Type) : Type :=
  Write : W -> list Byte.byte -> W * Z * option error.

(** The contract of [io.Writer]: [0 <= n <= len(p)]. *)
Class WriterOk (W : Type) `{Writer W} : Prop :=
  write_count : forall (w : W) (p : list Byte.byte),
    0 <= snd (fst (Write w p)) <= len p.

(** A writer that takes every byte ([bytes.Buffer]). *)
Definition Buffer : Type := list Byte.byte.
#[global] Instance Buffer_Writer : Writer Buffer :=
  fun b p => (b ++ p, len p, None).

(** How the reads of a content stream end: [io.EOF] or an error. *)
Inductive ReadEnd : Type := ReadEOF | ReadFail.

(** The buffer of [io.Copy] is 32 KiB: no [Read] returns more. *)
Definition copyBufSize : Z := 32 * 1024.

(** [io.Copy(dst, src)] where the reads of [src] deliver [chunks] and then
    end with [fin]; [written] is the running count. Returns the writer, the
    count and the error. *)
Fixpoint copyBuffer {W} `{Writer W} (dst : W) (chunks : list (list Byte.byte))
    (fin : ReadEnd) (written : Z) : W * Z * option error :=
  match chunks with
  | [] => (dst, written,
           match fin with ReadEOF => None | ReadFail => Some ErrUnexpectedEOF end)
  | c :: rest =>
      if (0 <? len c) then
        let '(dst', nw, ew) := Write dst c in
        let '(nw, ew) :=
          if (nw <? 0) || (len c <? nw)
          then (0, Some (from_option id ErrInvalidWrite ew))
          else (nw, ew) in
        let written := add64 written nw in
        match ew with
        | Some e => (dst', written, Some e)
        | None =>
            if bool_decide (len c = nw) then copyBuffer dst' rest fin written
            else (dst', written, Some ErrShortWrite)
        end
      else copyBuffer dst rest fin written
  end.

Definition ioCopy {W} `{Writer W} (dst : W) (chunks : list (list Byte.byte))
    (fin : ReadEnd) : W * Z * option error :=
  copyBuffer dst chunks fin 0.

(** ** The size accountant *)

(** validateTotalSize checks if total written bytes exceed the limit. *)
Definition validateTotalSize (totalWritten additionalBytes : Z) : option error :=
  if add64 totalWritten additionalBytes >? MaxTotalSize
  then Some ErrTotalSize
  else None.

(** trackingWriter wraps an io.Writer to track total bytes written and
    enforce limits. *)
Record trackingWriter (W : Type) : Type := mkTrackingWriter {
  writer : W;
  currentTotal : Z;
  written : Z
}.
Arguments mkTrackingWriter {W}.
Arguments writer {W}.
Arguments currentTotal {W}.
Arguments written {W}.

Definition trackingWriter_Write {W} `{Writer W} (tw : trackingWriter W)
    (p : list Byte.byte) : trackingWriter W * Z * option error :=
  match validateTotalSize (add64 (currentTotal tw) (written tw)) (len p) with
  | Some err => (tw, 0, Some err)
  | None =>
      let '(w', n, err) := Write (writer tw) p in
      (mkTrackingWriter w' (currentTotal tw) (add64 (written tw) n), n, err)
  end.

#[global] Instance trackingWriter_Writer {W} `{Writer W} : Writer (trackingWriter W) :=
  trackingWriter_Write.

(** ** The decoder: [tar.Reader] over [gzip.Reader] *)

Module tar.
Definition TypeReg : ascii := "0"%char.
Definition TypeLink : ascii := "1"%char.
Definition TypeSymlink : ascii := "2"%char.
Definition TypeDir : ascii := "5"%char.
End tar.

(** The fields of [tar.Header] that the extractor reads ([Linkname] is
    carried but never looked at). *)
Record Header : Type := {
  Name : string;
  Typeflag : ascii;
  Size : Z;
  Mode : Z;
  Linkname : string
}.

(** One result of [tr.Next()] with no error: the header ([None] for a nil
    header) and what reading the entry's content delivers. The record
    does not tie the content to the header: [tar.Reader] does, see
    [receivable]. *)
Record Entry : Type := {
  header : option Header;
  chunks : list (list Byte.byte);
  rend : ReadEnd
}.

(** The whole sequence: the entries, and how [tr.Next()] ends after them
    ([None] for [io.EOF], [Some e] for any other error). *)
Record Archive : Type := {
  entries : list Entry;
  last : option error
}.

(** What [gzip.NewReader] finds in the input stream. *)
Inductive Input : Type :=
  | NotGzip
  | Gzip (a : Archive).

Definition uint32 (z : Z) : Z := z mod 2 ^ 32.

(** [os.FileMode(header.Mode) & os.ModePerm], and the default when zero. *)
Definition permOr (mode dflt : Z) : Z :=
  let m := Z.land (uint32 mode) Os.ModePerm in
  if m =? 0 then dflt else m.

(** ** The extractor *)

Section Extractor.

Variable os : OS.

#[local] Instance file_Writer : Writer Os.file := Os.Write os.

(** isPathSafe checks if the target path is within the destination
    directory. *)
Definition isPathSafe (target dst : string) : bool :=
  match Path.Abs (cwd os) target with
  | None => false
  | Some absTarget =>
      Path.HasPrefix absTarget (dst +:+ String Path.sep EmptyString)
      || bool_decide (absTarget = dst)
  end.

(** handleDirectory creates a directory with proper permissions. *)
Definition handleDirectory (w : FS) (target : string) (h : Header)
  : FS * option error :=
  match Os.Stat w target with
  | Some info =>
      match info with
      | Dir _ => (w, None)
      | File _ _ => (w, Some (ErrNotADirectory target))
      end
  | None => Os.MkdirAll os w target (permOr (Mode h) 493)
  end.

(** handleRegularFile extracts a regular file; returns the actual number
    of bytes written. The deferred [f.Close()] does not change the file
    system. *)
Definition handleRegularFile (w : FS) (target : string) (h : Header)
    (tr : Entry) (currentTotal : Z) : FS * Z * option error :=
  match Os.MkdirAll os w (Path.Dir target) 493 with
  | (w1, Some e) => (w1, 0, Some (ErrParentDirectory e))
  | (w1, None) =>
      match Os.OpenFile os w1 target (permOr (Mode h) 420) with
      | (w2, Some e) => (w2, 0, Some (ErrCreateFile e))
      | (w2, None) =>
          let tw := mkTrackingWriter
                      {| Os.fs := w2; Os.key := Path.segs target |}
                      currentTotal 0 in
          let '(tw', n, err) := ioCopy tw (chunks tr) (rend tr) in
          let w3 := Os.fs (writer tw') in
          match err with
          | Some e => (fst (Os.Remove w3 target), 0, Some (ErrWriteContent e))
          | None =>
              if n >? mul64 (Size h) 2
              then (fst (Os.Remove w3 target), 0,
                    Some (ErrSizeAnomaly (Name h) n (Size h)))
              else (w3, n, None)
          end
      end
  end.

(** processEntry handles different tar entry types; the state is the file
    system and [*totalWritten]. An unsupported type only prints a
    warning. *)
Definition processEntry (h : Header) (target : string) (tr : Entry)
    (st : FS * Z) : FS * Z * option error :=
  let '(w, totalWritten) := st in
  if bool_decide (Typeflag h = tar.TypeDir) then
    match handleDirectory w target h with
    | (w', Some e) => (w', totalWritten, Some (ErrCreateDirectory (Name h) e))
    | (w', None) => (w', totalWritten, None)
    end
  else if bool_decide (Typeflag h = tar.TypeReg) then
    match handleRegularFile w target h tr totalWritten with
    | (w', _, Some e) => (w', totalWritten, Some (ErrExtractFile (Name h) e))
    | (w', n, None) => (w', add64 totalWritten n, None)
    end
  else if bool_decide (Typeflag h = tar.TypeSymlink)
          || bool_decide (Typeflag h = tar.TypeLink) then
    (w, totalWritten, Some (ErrLinkNotAllowed (Name h)))
  else (w, totalWritten, None).

(** The body of the loop of extractArchive for one header. *)
Definition extractEntry (absDst : string) (h : Header) (tr : Entry)
    (st : FS * Z) : FS * Z * option error :=
  if Size h >? MaxFileSize then (st, Some (ErrFileTooLarge (Name h)))
  else
    let target := Path.Join absDst (Name h) in
    if negb (isPathSafe target absDst)
    then (st, Some (ErrUnsafePath (Name h)))
    else processEntry h target tr st.

(** extractArchive processes the tar archive entries: the loop over
    [tr.Next()]. *)
Fixpoint extractArchive (ents : list Entry) (fin : option error)
    (absDst : string) (st : FS * Z) : FS * Z * option error :=
  match ents with
  | [] =>
      match fin with
      | None => (st, None)
      | Some e => (st, Some (ErrReadHeader e))
      end
  | tr :: rest =>
      match header tr with
      | None => extractArchive rest fin absDst st
      | Some h =>
          match extractEntry absDst h tr st with
          | (st', Some e) => (st', Some e)
          | (st', None) => extractArchive rest fin absDst st'
          end
      end
  end.

(** UntarGz safely extracts a tar.gz archive to the destination
    directory: [setupExtraction], then [extractArchive] with
    [totalWritten = 0]. Returns the file system and the error. *)
Definition UntarGz (dst : string) (r : Input) (w : FS) : FS * option error :=
  match Path.Abs (cwd os) dst with
  | None => (w, Some ErrAbsDestination)
  | Some absDst =>
      match r with
      | NotGzip => (w, Some ErrGzipReader)
      | Gzip a =>
          let '(w', _, e) := extractArchive (entries a) (last a) absDst (w, 0) in
          (w', e)
      end
  end.

End Extractor.

(** ** Running the model *)

Definition bytes (s : string) : list Byte.byte := String.list_byte_of_string s.

(** A device that accepts every write, and one that is full. *)
Definition os_ok : OS :=
  {| cwd := Some "/"; umask := 18; accept := fun _ _ p => length p |}.
Definition os_full : OS :=
  {| cwd := Some "/"; umask := 18; accept := fun _ _ _ => 0%nat |}.

Definition dirEntry (name : string) (mode : Z) : Entry :=
  {| header := Some {| Name := name; Typeflag := tar.TypeDir; Size := 0;
                       Mode := mode; Linkname := "" |};
     chunks := []; rend := ReadEOF |}.
Definition fileEntry (name : string) (mode : Z) (content : string) : Entry :=
  {| header := Some {| Name := name; Typeflag := tar.TypeReg;
                       Size := len (bytes content); Mode := mode; Linkname := "" |};
     chunks := [bytes content]; rend := ReadEOF |}.
Definition symlinkEntry (name linkname : string) : Entry :=
  {| header := Some {| Name := name; Typeflag := tar.TypeSymlink; Size := 0;
                       Mode := 511; Linkname := linkname |};
     chunks := []; rend := ReadEOF |}.

Definition mkHeader (name : string) (tf : ascii) (size : Z) : Header :=
  {| Name := name; Typeflag := tf; Size := size; Mode := 420; Linkname := "" |}.
Definition mkEntry (h : Header) (content : list (list Byte.byte)) : Entry :=
  {| header := Some h; chunks := content; rend := ReadEOF |}.

(** ** The vocabulary of the properties *)

(** The sum computed by the check does not overflow: true of every slice
    that a process can hold, and of every chunk of [io.Copy]. *)
Definition no_overflow (p : list Byte.byte) : Prop := MaxTotalSize + len p < 2 ^ 63.

Definition buffered (p : list Byte.byte) : Prop := len p <= copyBufSize.

(** The invariant of the accountant: RunningTotal + PerFileCounter stays
    within the total limit. *)
Definition tw_inv {W} (tw : trackingWriter W) : Prop :=
  0 <= currentTotal tw /\ 0 <= written tw
  /\ currentTotal tw + written tw <= MaxTotalSize.

(** An underlying writer that takes every byte, with effect [app]. *)
Class Lossless (W : Type) `{Writer W} (app : W -> list Byte.byte -> W) : Prop :=
  write_all : forall (w : W) (p : list Byte.byte), Write w p = (app w p, len p, None).

(** In the words of the specification: the chunks that are written, given
    the bytes accounted so far, are those before the first chunk that would
    push the total past the limit. *)
Fixpoint fitting (total : Z) (chunks : list (list Byte.byte)) : list (list Byte.byte) :=
  match chunks with
  | [] => []
  | c :: rest =>
      if total + len c <=? MaxTotalSize
      then c :: fitting (total + len c) rest
      else []
  end.

Definition endError (fin : ReadEnd) : option error :=
  match fin with ReadEOF => None | ReadFail => Some ErrUnexpectedEOF end.

Definition nonempty (chunks : list (list Byte.byte)) : list (list Byte.byte) :=
  List.filter (fun c => 0 <? len c) chunks.

Definition is_dir (o : option node) : bool :=
  match o with Some (Dir _) => true | _ => false end.

Definition is_file (o : option node) : bool :=
  match o with Some (File _ _) => true | _ => false end.




(** The device accepts every write. *)
Definition accepting (os : OS) : Prop :=
  forall w k p, (length p <= accept os w k p)%nat.

Definition file_append (f : Os.file) (p : list Byte.byte) : Os.file :=
  {| Os.fs := match Os.fs f !! Os.key f with
              | Some (File m d) => <[Os.key f := File m (d ++ p)]> (Os.fs f)
              | _ => Os.fs f
              end;
     Os.key := Os.key f |}.

(** What a write can change: only the object at the key of the file, which
    stays a file if it was one. *)
Definition file_rel (f f' : Os.file) : Prop :=
  Os.key f' = Os.key f
  /\ (forall p, p <> Os.key f -> Os.fs f' !! p = Os.fs f !! p)
  /\ is_file (Os.fs f' !! Os.key f) = is_file (Os.fs f !! Os.key f).

(** Every read of a content stream fills at most the buffer of [io.Copy]. *)
Definition reads_buffered (ents : list Entry) : Prop :=
  Forall (fun tr => Forall buffered (chunks tr)) ents.

(** What [tar.Reader] delivers for an entry: the declared size is not
    negative, and the reads of the content return no more than the
    declared number of bytes. *)
Definition receivable (tr : Entry) : Prop :=
  forall h, header tr = Some h ->
    0 <= Size h /\ len (concat (chunks tr)) <= Size h.

(** The working directory of a process is an absolute path. *)
Definition abs_cwd (os : OS) : Prop :=
  forall d, cwd os = Some d -> Path.IsAbs d = true.



(** The bytes of the regular files of a list of entries. *)
Definition content_of (tr : Entry) : Z :=
  match header tr with
  | Some h => if bool_decide (Typeflag h = tar.TypeReg)
              then len (concat (chunks tr)) else 0
  | None => 0
  end.

Fixpoint content_size (ents : list Entry) : Z :=
  match ents with
  | [] => 0
  | tr :: rest => content_of tr + content_size rest
  end.




(** The three ways through [handleRegularFile]: the parent cannot be made;
    the file cannot be opened; or the file is opened and the content is
    copied, after which a failed copy or an anomalous size unlinks the
    file. *)
Inductive regular_outcome (os : OS) (w : FS) (target : string) (h : Header) (tr : Entry)
    (T : Z) : FS * Z * option error -> Prop :=
  | parent_failed e :
      Os.MkdirAll os w (Path.Dir target) 493 = (w, Some e) ->
      regular_outcome os w target h tr T (w, 0, Some (ErrParentDirectory e))
  | open_failed w1 e :
      Os.MkdirAll os w (Path.Dir target) 493 = (w1, None) ->
      Os.OpenFile os w1 target (permOr (Mode h) 420) = (w1, Some e) ->
      regular_outcome os w target h tr T (w1, 0, Some (ErrCreateFile e))
  | copied w1 w2 tw' n err :
      Os.MkdirAll os w (Path.Dir target) 493 = (w1, None) ->
      Os.OpenFile os w1 target (permOr (Mode h) 420) = (w2, None) ->
      @ioCopy _ (@trackingWriter_Writer _ (file_Writer os))
        (mkTrackingWriter {| Os.fs := w2; Os.key := Path.segs target |} T 0)
        (chunks tr) (rend tr) = (tw', n, err) ->
      file_rel {| Os.fs := w2; Os.key := Path.segs target |} (writer tw') ->
      is_file (Os.fs (writer tw') !! Path.segs target) = true ->
      regular_outcome os w target h tr T
        match err with
        | Some e => (delete (Path.segs target) (Os.fs (writer tw')), 0,
                     Some (ErrWriteContent e))
        | None =>
            if n >? mul64 (Size h) 2
            then (delete (Path.segs target) (Os.fs (writer tw')), 0,
                  Some (ErrSizeAnomaly (Name h) n (Size h)))
            else (Os.fs (writer tw'), n, None)
        end.

(** ** More vocabulary: the type dispatch and the reach of an extraction *)

(** The type flags that [processEntry] has a case for. *)
Definition supported (tf : ascii) : bool :=
  bool_decide (tf = tar.TypeDir) || bool_decide (tf = tar.TypeReg)
  || bool_decide (tf = tar.TypeSymlink) || bool_decide (tf = tar.TypeLink).

(** An entry that the loop passes over: a nil header, or a type flag of the
    default case. *)
Definition inert (tr : Entry) : bool :=
  match header tr with
  | None => true
  | Some h => negb (supported (Typeflag h))
  end.

(** From [w] to [w'] nothing has changed off the root whose components are
    [rs]: each path holds what it held, or lies under the root, or is a
    directory made on the way down to the root. *)
Definition contained (rs : list string) (w w' : FS) : Prop :=
  forall p, w' !! p = w !! p
            \/ rs `prefix_of` p
            \/ (p `prefix_of` rs /\ w !! p = None /\ is_dir (w' !! p) = true).

(** * The upload server ([uploader.go])

    The handlers of the server are functions of the request data they
    read (form values, the uploaded file), the package variable
    [directory] and the file system; they return the new file system and
    the response. *)

(** ** [strings.Split] and [strings.Join] with a one-byte separator *)

Module Str.

(** [strings.Split(s, string(c))]: never empty, [""] for the empty string. *)
Fixpoint Split (c : ascii) (s : string) : list string :=
  match s with
  | EmptyString => [EmptyString]
  | String d s' =>
      if Ascii.eqb d c then EmptyString :: Split c s'
      else match Split c s' with
           | [] => [String d EmptyString]
           | x :: xs => String d x :: xs
           end
  end.

(** [strings.Join(l, string(c))]. *)
Fixpoint Join (c : ascii) (l : list string) : string :=
  match l with
  | [] => EmptyString
  | x :: xs =>
      match xs with
      | [] => x
      | _ :: _ => x +:+ String c (Join c xs)
      end
  end.

End Str.

(** ** Basic authentication: the [Validator] closure of [Uploader]

    [credentials] is the value of [UPLOADER_UPLOAD_CREDENTIALS], which
    [Uploader] splits at the colons once, before the closure is built;
    [creds[0]] exists because [strings.Split] never returns an empty
    slice.  The closure never returns an error. *)

(** [subtle.ConstantTimeCompare]: 1 for equal byte strings, 0 otherwise. *)
Definition ConstantTimeCompare (x y : string) : Z :=
  if bool_decide (x = y) then 1 else 0.

Definition Validator (credentials username password : string) : bool :=
  let creds := Str.Split ":" credentials in
  bool_decide (ConstantTimeCompare username (hd EmptyString creds) = 1)
  && bool_decide (ConstantTimeCompare password (Str.Join ":" (tl creds)) = 1).

(** ** The age test *)

Module time.
(** [time.Duration] is an [int64] count of nanoseconds. *)
Definition Nanosecond : Z := 1.
Definition Hour : Z := 3600 * 1000000000.
End time.

(** [isOlderThanXDays(t, days)], as a function of [since = time.Since(t)],
    the reading of the clock (an [int64] duration); the product on the
    right is computed in [int64], left to right. *)
Definition isOlderThanXDays (since : Z) (days : Z) : bool :=
  since >? mul64 (mul64 days 24) time.Hour.

(** ** More of the operating system

    The handlers call [os.Stat] for its error only, remove whole trees and
    list directories. *)

(** The error of [os.Stat] on a component list: [ENOTDIR] when the walk
    meets a file before the end, [ENOENT] when a name is missing. *)
Definition statError (w : FS) (k : list string) : option error :=
  match Os.lookup w k with
  | Some _ => None
  | None =>
      if existsb (fun n => is_file (Os.lookup w (take n k))) (seq 0 (length k))
      then Some (ENOTDIR k) else Some (ENOENT k)
  end.

(** [os.IsNotExist]. *)
Definition IsNotExist (e : option error) : bool :=
  match e with
  | Some (ENOENT _) => true
  | _ => false
  end.

(** [os.RemoveAll] of an absolute path: the object and everything below
    it go. A missing path is no error; a path through a file is one; the
    root directory loses its content and reports an error for itself.
    The boolean tells whether an error is returned. *)
Definition RemoveAll (w : FS) (path : string) : FS * bool :=
  let k := Path.segs path in
  match statError w k with
  | Some (ENOENT _) => (w, false)
  | Some _ => (w, true)
  | None => (filter (fun kv => ~ k `prefix_of` kv.1) w, bool_decide (k = []))
  end.

(** The names directly in the directory at [k]. *)
Definition children (w : FS) (k : list string) : list string :=
  omap (fun kv => match rev kv.1 with
                  | c :: rq => if bool_decide (rev rq = k) then Some c else None
                  | [] => None
                  end)
       (map_to_list w).

(** The order of the names in a listing: byte-wise. *)
Definition name_le (a b : string) : Prop := String.leb a b = true.
#[global] Instance name_le_dec : RelDecision name_le :=
  fun a b => decide (String.leb a b = true).

(** [os.ReadDir]: the names in a directory, sorted; [None] is any error. *)
Definition ReadDir (w : FS) (path : string) : option (list string) :=
  if is_dir (Os.lookup w (Path.segs path))
  then Some (merge_sort name_le (children w (Path.segs path)))
  else None.

(** ** [strconv] *)

Module strconv.

Inductive parsed : Type :=
  | Syntax
  | Range
  | Num (n : Z).

Definition digit (c : ascii) : option Z :=
  let n := Z.of_N (N_of_ascii c) in
  if (48 <=? n) && (n <=? 57) then Some (n - 48) else None.

Definition maxUint64 : Z := 2 ^ 64 - 1.
Definition cutoff : Z := maxUint64 / 10 + 1.

(** The loop of [ParseUint(s, 10, 64)]: a byte that is no digit is a
    syntax error; an overflow ends the loop at once, before the bytes
    after it are looked at. *)
Fixpoint parseUint (s : string) (n : Z) : parsed :=
  match s with
  | EmptyString => Num n
  | String c s' =>
      match digit c with
      | None => Syntax
      | Some d =>
          if n >=? cutoff then Range
          else let n1 := n * 10 + d in
               if n1 >? maxUint64 then Range else parseUint s' n1
      end
  end.

(** The value that [strconv.Atoi] returns, on a 64-bit platform: zero
    with a syntax error, the nearest [int64] with a range error. (The fast
    path for short strings returns the same values.) *)
Definition Atoi (s : string) : Z :=
  let '(neg, body) :=
    match s with
    | String "+" r => (false, r)
    | String "-" r => (true, r)
    | _ => (false, s)
    end in
  match (if bool_decide (body = EmptyString) then Syntax else parseUint body 0) with
  | Syntax => 0
  | Range => if neg then - 2 ^ 63 else 2 ^ 63 - 1
  | Num un =>
      if neg then (if un >? 2 ^ 63 then - 2 ^ 63 else - un)
      else (if un >=? 2 ^ 63 then 2 ^ 63 - 1 else un)
  end.

(** [strconv.ParseBool]; [None] is the error. *)
Definition ParseBool (str : string) : option bool :=
  if bool_decide (str ∈ ["1"; "t"; "T"; "TRUE"; "true"; "True"]) then Some true
  else if bool_decide (str ∈ ["0"; "f"; "F"; "FALSE"; "false"; "False"]) then Some false
  else None.

End strconv.

(** ** Requests and responses *)

Module multipart.

(** [multipart.FileHeader]: the name and the size the client sent, and
    what [Open] gives: an error, or a reader, which is the chunks its
    reads deliver and how they end. [Decoded] is what the gzip and tar
    decoders make of these bytes. *)
Record FileHeader : Type := {
  Filename : string;
  Size : Z;
  OpenFails : bool;
  Data : list (list Byte.byte);
  DataEnd : ReadEnd;
  Decoded : Input
}.

End multipart.

Module http.
Definition StatusOK : Z := 200.
Definition StatusCreated : Z := 201.
Definition StatusAccepted : Z := 202.
Definition StatusBadRequest : Z := 400.
Definition StatusForbidden : Z := 403.
Definition StatusNotFound : Z := 404.
Definition StatusInternalServerError : Z := 500.
End http.

(** The values in the JSON bodies. *)
Inductive Value : Type :=
  | VString (s : string)
  | VInt (n : Z).

(** What a handler answers: a JSON body (encoding/json writes the keys of
    a map in sorted order), an [echo.HTTPError], an error passed on as it
    is, the not-found handler of echo, or no content. *)
Inductive Response : Type :=
  | JSON (code : Z) (body : list (string * Value))
  | HTTPError (code : Z) (message : string)
  | ErrFormFile                 (* the error of c.FormFile *)
  | ErrOpen                     (* the error of file.Open *)
  | Failed (e : error)          (* an error of the os, of io.Copy or of UntarGz *)
  | NotFoundHandler
  | NoContent (code : Z).

(** The values of the form of [POST /upload]: the file, if there is one,
    and the fields ([c.FormValue] gives the empty string for a missing
    field). *)
Record UploadForm : Type := {
  formFile : option multipart.FileHeader;
  formTargz : string;
  formPath : string
}.

(** ** The handlers *)

Section Handlers.

Variable os : OS.

(** The package variable [directory], set once by [Uploader]. *)
Variable directory : string.

(** [since k] is [time.Since(info.ModTime())] of the object at [k] when
    the directory is listed. *)
Variable since : list string -> Z.

(** [abspath, _ := filepath.Abs(p)]: with the error dropped the path is
    empty. *)
Definition absOrEmpty (p : string) : string :=
  default EmptyString (Path.Abs (cwd os) p).

(** The kernel resolves a relative path from the working directory; the
    empty path names nothing. The paths of the handlers are cleaned. *)
Definition resolve (path : string) : option string :=
  if bool_decide (path = EmptyString) then None else Path.Abs (cwd os) path.

(** [os.Stat], for its error. *)
Definition osStat (w : FS) (path : string) : option error :=
  match resolve path with
  | None => Some (ENOENT [])
  | Some a => statError w (Path.segs a)
  end.

Definition osMkdirAll (w : FS) (path : string) (perm : Z) : FS * option error :=
  match resolve path with
  | None => (w, Some (ENOENT []))
  | Some a => Os.MkdirAll os w a perm
  end.

(** [os.Create]: [OpenFile(name, O_RDWR|O_CREATE|O_TRUNC, 0666)]. *)
Definition osCreate (w : FS) (path : string) : Os.file + error :=
  match resolve path with
  | None => inr (ENOENT [])
  | Some a =>
      match Os.OpenFile os w a 438 with
      | (w', None) => inl {| Os.fs := w'; Os.key := Path.segs a |}
      | (_, Some e) => inr e
      end
  end.

Definition uploaded (file : multipart.FileHeader) (path : string) : Response :=
  JSON http.StatusCreated
    [("filename", VString (multipart.Filename file));
     ("message", VString ("File has been uploaded to " +:+ path));
     ("path", VString path);
     ("size", VInt (multipart.Size file))].

(** handleTarGzUpload handles tar.gz file extraction. *)
Definition handleTarGzUpload (file : multipart.FileHeader)
    (path savepath abspath : string) (w : FS) : FS * Response :=
  match osMkdirAll w savepath 493 with
  | (w1, Some e) => (w1, Failed e)
  | (w1, None) =>
      if multipart.OpenFails file then (w1, ErrOpen)
      else
        match UntarGz os abspath (multipart.Decoded file) w1 with
        | (w2, Some e) => (w2, Failed e)
        | (w2, None) => (w2, uploaded file path)
        end
  end.

(** handleRegularUpload handles regular file uploads; the copy is the
    read and write loop of [io.Copy]. *)
Definition handleRegularUpload (file : multipart.FileHeader)
    (path savepath : string) (w : FS) : FS * Response :=
  if multipart.OpenFails file then (w, ErrOpen)
  else
    match (if IsNotExist (osStat w savepath)
           then osMkdirAll w (Path.Dir savepath) 493
           else (w, None)) with
    | (w1, Some e) => (w1, Failed e)
    | (w1, None) =>
        match osCreate w1 savepath with
        | inr e => (w1, Failed e)
        | inl dst =>
            let '(dst', _, err) :=
              @ioCopy _ (file_Writer os) dst
                (multipart.Data file) (multipart.DataEnd file) in
            match err with
            | Some e => (Os.fs dst', Failed e)
            | None => (Os.fs dst', uploaded file path)
            end
        end
    end.

(** The upload handler. *)
Definition upload (form : UploadForm) (w : FS) : FS * Response :=
  match formFile form with
  | None => (w, ErrFormFile)
  | Some file =>
      let untargz := formTargz form in
      let path := if bool_decide (formPath form = EmptyString)
                  then multipart.Filename file else formPath form in
      let savepath := Path.Join directory path in
      let abspath := absOrEmpty savepath in
      let absuploaddir := absOrEmpty directory in
      if negb (Path.HasPrefix abspath absuploaddir)
      then (w, HTTPError http.StatusForbidden
                 "DENIED: You should not upload outside the upload directory.")
      else if bool_decide (untargz = "true")
      then handleTarGzUpload file path savepath abspath w
      else handleRegularUpload file path savepath w
  end.

(** The delete handler; the text of the error of [os.RemoveAll] is left
    out of the message. *)
Definition uploaderDelete (path : string) (w : FS) : FS * Response :=
  let savePath := Path.Join directory path in
  let abspath := absOrEmpty savePath in
  let absoluteUploadDir := absOrEmpty directory in
  if negb (Path.HasPrefix abspath absoluteUploadDir)
  then (w, HTTPError http.StatusForbidden
             "DENIED: You should not upload outside the upload directory.")
  else
    match osStat w abspath with
    | Some _ => (w, HTTPError http.StatusNotFound "Could not find your file")
    | None =>
        match RemoveAll w abspath with
        | (w', true) =>
            (w', HTTPError http.StatusBadRequest "Could not delete your file: ")
        | (w', false) =>
            (w', JSON http.StatusAccepted
                   [("message", VString ("File " +:+ path +:+ " has been deleted"));
                    ("path", VString path)])
        end
    end.

(** findFilesOlderThanXDays: the names of the old entries of [dir]. An
    entry is looked at when it is a regular file, or a directory and
    [recursive] is set; nothing below an entry is looked at. *)
Definition findFilesOlderThanXDays (w : FS) (dir : string) (days : Z)
    (recursive : bool) : option (list string) :=
  match ReadDir w dir with
  | None => None
  | Some tmpfiles =>
      Some (List.filter
              (fun name =>
                 let k := Path.segs dir ++ [name] in
                 (is_file (w !! k) || (recursive && is_dir (w !! k)))
                 && isOlderThanXDays (since k) days)
              tmpfiles)
  end.

(** The loop of deleteOldFilesOfDir: a failed [os.Remove] is printed and
    passed over. *)
Definition removeOld (abspath : string) (st : FS * Z) (name : string) : FS * Z :=
  match Os.Remove (fst st) (Path.Join abspath name) with
  | (w', None) => (w', snd st + 1)
  | (w', Some _) => (w', snd st)
  end.

(** The handler of [DELETE /delete]; the error of [strconv.Atoi] is
    dropped. *)
Definition deleteOldFilesOfDir (path daysValue recursiveValue : string) (w : FS)
  : FS * Response :=
  let days := strconv.Atoi daysValue in
  let recursiveFlag := if bool_decide (recursiveValue = EmptyString)
                       then "false" else recursiveValue in
  match strconv.ParseBool recursiveFlag with
  | None => (w, HTTPError http.StatusBadRequest "Invalid recursive parameter")
  | Some recursive =>
      let filePath := Path.Join directory path in
      let abspath := absOrEmpty filePath in
      let absoluteUploadDir := absOrEmpty directory in
      if negb (Path.HasPrefix abspath absoluteUploadDir)
      then (w, HTTPError http.StatusForbidden
                 "DENIED: You should not try to get outside the root directory.")
      else
        match osStat w abspath with
        | Some _ => (w, NotFoundHandler)
        | None =>
            match findFilesOlderThanXDays w abspath days recursive with
            | None => (w, HTTPError http.StatusInternalServerError
                            "Failed to find old files")
            | Some files =>
                if bool_decide (files = [])
                then (w, JSON http.StatusAccepted
                           [("count", VInt 0);
                            ("days", VInt days);
                            ("message", VString "No old files found to delete");
                            ("path", VString path)])
                else
                  let '(w', deletedCount) :=
                    fold_left (removeOld abspath) files (w, 0) in
                  (w', JSON http.StatusAccepted
                         [("count", VInt deletedCount);
                          ("days", VInt days);
                          ("deleted_count", VInt deletedCount);
                          ("message", VString "Old files deleted successfully");
                          ("path", VString path)])
            end
        end
  end.

End Handlers.

(** ** Running the handlers *)

Definition pub_tree : FS :=
  {[ ["srv"] := Dir 493; ["srv"; "pub"] := Dir 493;
     ["srv"; "pub"; "a.txt"] := File 420 (bytes "a");
     ["srv"; "pub-private"] := Dir 448;
     ["srv"; "pub-private"; "key"] := File 384 (bytes "secret") ]}.

Definition upload_tree : FS :=
  {[ ["srv"] := Dir 493; ["srv"; "pub"] := Dir 493;
     ["srv"; "pub"; "a.txt"] := File 384 (bytes "old") ]}.



Definition archive_file : multipart.FileHeader :=
  {| multipart.Filename := "a.tgz"; multipart.Size := 100;
     multipart.OpenFails := false;
     multipart.Data := []; multipart.DataEnd := ReadEOF;
     multipart.Decoded :=
       Gzip {| entries := [fileEntry "x/y" 420 "z";
                           fileEntry "../../etc/passwd" 420 "evil"];
               last := None |} |}.

(** ** More vocabulary: what a listing sees *)

(** The names in a file system are components: not empty, not [.] or
    [..], no separator. *)
Definition names_ok (w : FS) : Prop :=
  forall k n, w !! k = Some n -> Path.canon k.

(** Nothing is below [k]. *)
Definition empty_below (w : FS) (k : list string) : Prop :=
  forall q, k `prefix_of` q -> q <> k -> w !! q = None.

(** The value of the [recursive] field as the handler reads it. *)
Definition recursiveFlag (recursiveValue : string) : string :=
  if bool_decide (recursiveValue = EmptyString) then "false" else recursiveValue.

(** An old file and a fresh one, an old directory with a file in it and
    an old empty one. *)
Definition sweep_tree : FS :=
  {[ ["srv"] := Dir 493; ["srv"; "pub"] := Dir 493;
     ["srv"; "pub"; "old.txt"] := File 420 (bytes "o");
     ["srv"; "pub"; "new.txt"] := File 420 (bytes "n");
     ["srv"; "pub"; "full"] := Dir 493;
     ["srv"; "pub"; "full"; "old.txt"] := File 420 (bytes "f");
     ["srv"; "pub"; "void"] := Dir 493 ]}.

(** Ages in nanoseconds: [new.txt] is an hour old, the rest forty days. *)
Definition sweep_since (k : list string) : Z :=
  if bool_decide (k = ["srv"; "pub"; "new.txt"]) then time.Hour
  else 40 * 24 * time.Hour.

(** ** More vocabulary: permission bits *)

Definition perm_of (n : node) : Z :=
  match n with
  | Dir m => m
  | File m _ => m
  end.

(** A mode that a creation of the extractor can leave: permission bits,
    not all zero, less the umask. *)
Definition created_mode (os : OS) (m : Z) : Prop :=
  exists q, 1 <= q <= Os.ModePerm /\ m = Os.masked os q.

(** From [w] to [w'] nothing is lost and no mode changes, and what is new
    has a created mode. *)
Definition grows (os : OS) (w w' : FS) : Prop :=
  (forall p n, w !! p = Some n ->
     exists n', w' !! p = Some n' /\ perm_of n' = perm_of n)
  /\ (forall p n', w !! p = None -> w' !! p = Some n' ->
        created_mode os (perm_of n')).

(** What is in [w'] has the mode it had in [w], or is new and has a created
    mode. *)
Definition perms_ok (os : OS) (w w' : FS) : Prop :=
  forall p n', w' !! p = Some n' ->
    match w !! p with
    | Some n => perm_of n' = perm_of n
    | None => created_mode os (perm_of n')
    end.

(** * Properties *)

(** ** The path functions and the scenarios of the specification, run *)

Example Clean_ex1 : Path.Clean "/srv/pub/../../etc//passwd" = "/etc/passwd".
Proof. reflexivity. Qed.
Example Clean_ex2 : Path.Clean "a/./b/../../.." = "..".
Proof. reflexivity. Qed.
Example Clean_ex3 : Path.Clean "" = "." /\ Path.Clean "/.." = "/" /\ Path.Clean "a//b/" = "a/b".
Proof. repeat split; reflexivity. Qed.
Example Join_ex1 : Path.Join "/srv/pub" "../../etc/passwd" = "/etc/passwd".
Proof. reflexivity. Qed.
Example Join_ex2 : Path.Join "/srv/pub" "/etc/passwd" = "/srv/pub/etc/passwd".
Proof. reflexivity. Qed.
Example Dir_ex1 : Path.Dir "/srv/pub/a.txt" = "/srv/pub" /\ Path.Dir "/a" = "/" /\ Path.Dir "a" = ".".
Proof. repeat split; reflexivity. Qed.
Example segs_ex1 : Path.segs "/srv/pub/a.txt" = ["srv"; "pub"; "a.txt"].
Proof. reflexivity. Qed.

(** The concrete scenarios of the specification. *)
Example scenario_roundtrip :
  let r := UntarGz os_ok "/R"
             (Gzip {| entries := [dirEntry "a/" 493; fileEntry "a/b.txt" 420 "hi"];
                      last := None |}) ∅ in
  snd r = None
  /\ fst r !! ["R"; "a"] = Some (Dir 493)
  /\ fst r !! ["R"; "a"; "b.txt"] = Some (File 420 (bytes "hi")).
Proof. vm_compute. auto. Qed.

Example scenario_escape :
  UntarGz os_ok "/R"
    (Gzip {| entries := [fileEntry "../escape.txt" 420 "hello"]; last := None |}) ∅
  = (∅, Some (ErrUnsafePath "../escape.txt")).
Proof. vm_compute. reflexivity. Qed.

(** ** The loop: what happens after a prefix of the archive *)

Section Loop.

Variable os : OS.

(** Entries that went through without error hand their state to the rest
    of the archive. *)
Lemma extractArchive_app pre rest fin absDst st st' :
  extractArchive os pre None absDst st = (st', None) ->
  extractArchive os (pre ++ rest) fin absDst st
  = extractArchive os rest fin absDst st'.
Proof.
  revert st. induction pre as [|tr pre IH]; intros st Hpre; simpl in *.
  - by inversion Hpre.
  - destruct (header tr) as [h|]; [|by apply IH].
    destruct (extractEntry os absDst h tr st) as [st1 [e|]]; [done|].
    by apply IH.
Qed.

(** An entry that fails ends the loop: nothing after it is looked at. *)
Lemma extractArchive_stop tr h rest fin absDst st st' e :
  header tr = Some h ->
  extractEntry os absDst h tr st = (st', Some e) ->
  extractArchive os (tr :: rest) fin absDst st = (st', Some e).
Proof. intros Hh He. simpl. by rewrite Hh, He. Qed.

Lemma extractArchive_reach_stop pre tr h post fin absDst st st1 st2 e :
  extractArchive os pre None absDst st = (st1, None) ->
  header tr = Some h ->
  extractEntry os absDst h tr st1 = (st2, Some e) ->
  extractArchive os (pre ++ tr :: post) fin absDst st = (st2, Some e).
Proof.
  intros Hpre Hh He. rewrite (extractArchive_app _ _ _ _ _ _ Hpre).
  by eapply extractArchive_stop.
Qed.

(** The three gates of the loop body, in the order of the code. *)
Lemma extractEntry_oversized absDst h tr st :
  Size h > MaxFileSize ->
  extractEntry os absDst h tr st = (st, Some (ErrFileTooLarge (Name h))).
Proof.
  intros Hsz. unfold extractEntry.
  destruct (Z.gtb_spec (Size h) MaxFileSize); [done | lia].
Qed.

Lemma extractEntry_unsafe absDst h tr st :
  Size h <= MaxFileSize ->
  isPathSafe os (Path.Join absDst (Name h)) absDst = false ->
  extractEntry os absDst h tr st = (st, Some (ErrUnsafePath (Name h))).
Proof.
  intros Hsz Hp. unfold extractEntry.
  destruct (Z.gtb_spec (Size h) MaxFileSize); [lia|]. by rewrite Hp.
Qed.

Lemma extractEntry_dispatch absDst h tr st :
  Size h <= MaxFileSize ->
  isPathSafe os (Path.Join absDst (Name h)) absDst = true ->
  extractEntry os absDst h tr st
  = processEntry os h (Path.Join absDst (Name h)) tr st.
Proof.
  intros Hsz Hp. unfold extractEntry.
  destruct (Z.gtb_spec (Size h) MaxFileSize); [lia|]. by rewrite Hp.
Qed.

(** The path check of the code, spelled out on the resolved path. *)
Lemma isPathSafe_false target dst :
  (forall a, Path.Abs (cwd os) target = Some a ->
             Path.HasPrefix a (dst +:+ String Path.sep EmptyString) = false
             /\ a <> dst) ->
  isPathSafe os target dst = false.
Proof.
  intros H. unfold isPathSafe.
  destruct (Path.Abs (cwd os) target) as [a|]; [|done].
  destruct (H a eq_refl) as [-> Hne]. simpl.
  by apply bool_decide_eq_false.
Qed.

Lemma processEntry_link h target tr st :
  Typeflag h = tar.TypeSymlink \/ Typeflag h = tar.TypeLink ->
  processEntry os h target tr st = (st, Some (ErrLinkNotAllowed (Name h))).
Proof.
  intros Hl. unfold processEntry. destruct st as [w T].
  destruct Hl as [-> | ->]; reflexivity.
Qed.

End Loop.

(** ** The size accountant *)

Lemma wrap64_small z : int64 z -> wrap64 z = z.
Proof.
  unfold int64, wrap64. intros Hz.
  rewrite Z.mod_small by lia. lia.
Qed.

Lemma len_nonneg {A} (p : list A) : 0 <= len p.
Proof. unfold len. lia. Qed.

Lemma len_app {A} (p q : list A) : len (p ++ q) = len p + len q.
Proof. unfold len. rewrite length_app. lia. Qed.

Lemma MaxTotalSize_val : MaxTotalSize = 8589934592.
Proof. reflexivity. Qed.

Lemma MaxFileSize_val : MaxFileSize = 2147483648.
Proof. reflexivity. Qed.

Lemma buffered_no_overflow p : buffered p -> no_overflow p.
Proof.
  unfold buffered, no_overflow, copyBufSize. rewrite MaxTotalSize_val. lia.
Qed.

#[global] Instance Buffer_WriterOk : WriterOk Buffer.
Proof. intros b p. simpl. pose proof (len_nonneg p). lia. Qed.

#[global] Instance file_WriterOk os : @WriterOk Os.file (file_Writer os).
Proof.
  intros f p. unfold Write, file_Writer, Os.Write, len. simpl. lia.
Qed.

Section Accountant.

Context {W : Type} `{HW : Writer W}.

Lemma validateTotalSize_spec (t a : Z) :
  int64 (t + a) ->
  validateTotalSize t a = if t + a >? MaxTotalSize then Some ErrTotalSize else None.
Proof. intros H. unfold validateTotalSize, add64. by rewrite wrap64_small. Qed.

(** A chunk that would cross the limit is refused before the underlying
    writer sees it. *)
Lemma Write_reject (tw : trackingWriter W) p :
  tw_inv tw -> no_overflow p ->
  currentTotal tw + written tw + len p > MaxTotalSize ->
  trackingWriter_Write tw p = (tw, 0, Some ErrTotalSize).
Proof.
  intros (H0 & H1 & H2) Hp Hx. unfold trackingWriter_Write, no_overflow in *.
  pose proof (len_nonneg p). rewrite MaxTotalSize_val in *.
  unfold add64 at 1. rewrite wrap64_small by (unfold int64; lia).
  rewrite validateTotalSize_spec by (unfold int64; lia).
  destruct (Z.gtb_spec (currentTotal tw + written tw + len p) MaxTotalSize);
    [done | rewrite MaxTotalSize_val in *; lia].
Qed.

(** A chunk that fits goes to the underlying writer, and the counter
    advances by what that writer took. *)
Lemma Write_accept (tw : trackingWriter W) p :
  tw_inv tw -> no_overflow p ->
  currentTotal tw + written tw + len p <= MaxTotalSize ->
  trackingWriter_Write tw p
  = (mkTrackingWriter (fst (fst (Write (writer tw) p))) (currentTotal tw)
       (add64 (written tw) (snd (fst (Write (writer tw) p)))),
     snd (fst (Write (writer tw) p)), snd (Write (writer tw) p)).
Proof.
  intros (H0 & H1 & H2) Hp Hx. unfold trackingWriter_Write, no_overflow in *.
  pose proof (len_nonneg p). rewrite MaxTotalSize_val in *.
  unfold add64 at 1. rewrite wrap64_small by (unfold int64; lia).
  rewrite validateTotalSize_spec by (unfold int64; lia).
  destruct (Z.gtb_spec (currentTotal tw + written tw + len p) MaxTotalSize);
    [rewrite MaxTotalSize_val in *; lia|].
  by destruct (Write (writer tw) p) as [[w' n] e].
Qed.

Context {HOk : WriterOk W}.

(** Each write keeps the invariant, whatever the underlying writer does
    within its contract. *)
Lemma Write_inv (tw : trackingWriter W) p :
  tw_inv tw -> no_overflow p ->
  tw_inv (fst (fst (trackingWriter_Write tw p)))
  /\ currentTotal (fst (fst (trackingWriter_Write tw p))) = currentTotal tw
  /\ written (fst (fst (trackingWriter_Write tw p)))
     = written tw + snd (fst (trackingWriter_Write tw p))
  /\ 0 <= snd (fst (trackingWriter_Write tw p)) <= len p.
Proof.
  intros Hinv Hp. pose proof (len_nonneg p) as Hl.
  destruct (Z_le_gt_dec (currentTotal tw + written tw + len p) MaxTotalSize) as [Hle|Hgt].
  - rewrite Write_accept by done. simpl.
    pose proof (write_count (writer tw) p) as Hn.
    destruct Hinv as (H0 & H1 & H2). unfold tw_inv, add64. simpl.
    rewrite wrap64_small by (unfold int64; rewrite MaxTotalSize_val in *; lia).
    lia.
  - rewrite Write_reject by done. simpl. destruct Hinv as (H0 & H1 & H2).
    unfold tw_inv. lia.
Qed.

#[global] Instance trackingWriter_WriterOk : WriterOk (trackingWriter W).
Proof.
  intros tw p. unfold Write, trackingWriter_Writer, trackingWriter_Write.
  destruct (validateTotalSize _ _); simpl.
  - pose proof (len_nonneg p). lia.
  - pose proof (write_count (writer tw) p).
    by destruct (Write (writer tw) p) as [[w' n] e].
Qed.

(** [io.Copy] through the accountant: the invariant holds at the end, the
    count returned is the growth of the counter, and the running total
    view is never changed. *)
Lemma copyBuffer_inv chunks fin : forall (tw : trackingWriter W) c0,
  tw_inv tw -> Forall buffered chunks -> c0 = written tw ->
  let r := copyBuffer tw chunks fin c0 in
  tw_inv (fst (fst r))
  /\ currentTotal (fst (fst r)) = currentTotal tw
  /\ snd (fst r) = written (fst (fst r))
  /\ written tw <= written (fst (fst r)) <= written tw + len (concat chunks).
Proof.
  induction chunks as [|c rest IH]; intros tw c0 Hinv Hb ->; simpl.
  - unfold len. simpl. split; [done|]. repeat split; lia.
  - inversion Hb as [|? ? Hc Hrest]; subst.
    rewrite len_app. pose proof (len_nonneg (concat rest)) as Hcr.
    destruct (Z.ltb_spec 0 (len c)) as [Hpos|Hzero].
    + pose proof (Write_inv tw c Hinv (buffered_no_overflow _ Hc)) as (Hi & Hc' & Hw & Hn).
      change (Write tw c) with (trackingWriter_Write tw c).
      destruct (trackingWriter_Write tw c) as [[tw' n] e] eqn:Ew. simpl in *.
      assert (Hsan : (n <? 0) || (len c <? n) = false).
      { apply orb_false_iff. split; apply Z.ltb_ge; lia. }
      rewrite Hsan.
      assert (Hadd : add64 (written tw) n = written tw').
      { unfold add64. rewrite wrap64_small; [lia|].
        destruct Hi as (? & ? & ?). unfold int64. rewrite MaxTotalSize_val in *. lia. }
      rewrite Hadd.
      destruct e as [e|]; simpl.
      { split; [done|]. repeat split; try done; lia. }
      case_bool_decide as Hfull; simpl.
      * specialize (IH tw' (written tw') Hi Hrest eq_refl). simpl in IH.
        destruct IH as (? & ? & ? & ?).
        split; [done|]. repeat split; try done; try congruence; lia.
      * split; [done|]. repeat split; try done; lia.
    + specialize (IH tw (written tw) Hinv Hrest eq_refl). simpl in IH.
      destruct IH as (? & ? & ? & ?). pose proof (len_nonneg c).
      split; [done|]. repeat split; try done; lia.
Qed.

(** A copy that ends without error has passed on every byte it read. *)
Lemma copyBuffer_complete chunks fin : forall (tw : trackingWriter W) c0,
  tw_inv tw -> Forall buffered chunks -> c0 = written tw ->
  snd (copyBuffer tw chunks fin c0) = None ->
  snd (fst (copyBuffer tw chunks fin c0)) = written tw + len (concat chunks).
Proof.
  induction chunks as [|c rest IH]; intros tw c0 Hinv Hb -> Hok; simpl in *.
  - change (len (@nil Byte.byte)) with 0. lia.
  - inversion Hb as [|? ? Hc Hrest]; subst. rewrite len_app.
    destruct (Z.ltb_spec 0 (len c)) as [Hpos|Hzero].
    + pose proof (Write_inv tw c Hinv (buffered_no_overflow _ Hc)) as (Hi & Hc' & Hw & Hn).
      change (Write tw c) with (trackingWriter_Write tw c) in *.
      destruct (trackingWriter_Write tw c) as [[tw' n] e] eqn:Ew. simpl in *.
      assert (Hsan : (n <? 0) || (len c <? n) = false).
      { apply orb_false_iff. split; apply Z.ltb_ge; lia. }
      rewrite Hsan in *.
      assert (Hadd : add64 (written tw) n = written tw').
      { unfold add64. rewrite wrap64_small; [lia|].
        destruct Hi as (? & ? & ?). unfold int64. rewrite MaxTotalSize_val in *. lia. }
      rewrite Hadd in *.
      destruct e as [e|]; [done|].
      case_bool_decide as Hfull; [|done].
      rewrite (IH tw' _ Hi Hrest eq_refl Hok). lia.
    + pose proof (len_nonneg c). rewrite (IH tw _ Hinv Hrest eq_refl Hok). lia.
Qed.

End Accountant.

(** ** Exactly at the crossing chunk *)

#[global] Instance Buffer_Lossless : Lossless Buffer (fun b p => b ++ p).
Proof. intros b p. reflexivity. Qed.

Lemma fitting_length total chunks :
  (length (fitting total chunks) <= length chunks)%nat.
Proof.
  revert total. induction chunks as [|c rest IH]; intros total; simpl; [lia|].
  destruct (_ <=? _); simpl; [|lia]. specialize (IH (total + len c)). lia.
Qed.

Lemma fitting_all total chunks :
  total + len (concat chunks) <= MaxTotalSize ->
  fitting total chunks = chunks.
Proof.
  revert total. induction chunks as [|c rest IH]; intros total H; simpl; [done|].
  simpl in H. rewrite len_app in H. pose proof (len_nonneg (concat rest)).
  destruct (Z.leb_spec (total + len c) MaxTotalSize); [|lia].
  f_equal. apply IH. lia.
Qed.

Section Boundary.

Context {W : Type} `{HW : Writer W} (app : W -> list Byte.byte -> W).
Context {HL : Lossless W app}.

Lemma copyBuffer_fitting chunks fin : forall (w : W) (T n : Z),
  tw_inv (mkTrackingWriter w T n) -> Forall buffered chunks ->
  let adm := fitting (T + n) chunks in
  copyBuffer (mkTrackingWriter w T n) chunks fin n
  = (mkTrackingWriter (foldl app w (nonempty adm)) T (n + len (concat adm)),
     n + len (concat adm),
     if (length adm <? length chunks)%nat then Some ErrTotalSize else endError fin).
Proof.
  induction chunks as [|c rest IH]; intros w T n Hinv Hb; simpl.
  - unfold len. simpl. rewrite Z.add_0_r. by destruct fin.
  - inversion Hb as [|? ? Hc Hrest]; subst.
    pose proof (len_nonneg c) as Hlc.
    destruct (Z.ltb_spec 0 (len c)) as [Hpos|Hzero].
    + change (Write (mkTrackingWriter w T n) c)
        with (trackingWriter_Write (mkTrackingWriter w T n) c).
      destruct (Z.leb_spec (T + n + len c) MaxTotalSize) as [Hle|Hgt].
      * rewrite Write_accept
          by first [done | by apply buffered_no_overflow | simpl; lia].
        simpl. rewrite (write_all w c). simpl.
        assert (Hsan : (len c <? 0) || (len c <? len c) = false).
        { apply orb_false_iff. split; apply Z.ltb_ge; lia. }
        rewrite Hsan. rewrite bool_decide_eq_true_2 by done.
        assert (Hadd : add64 n (len c) = n + len c).
        { unfold add64. apply wrap64_small. destruct Hinv as (? & ? & ?).
          simpl in *. unfold int64. rewrite MaxTotalSize_val in *. lia. }
        rewrite Hadd.
        assert (Hinv' : tw_inv (mkTrackingWriter (app w c) T (n + len c))).
        { destruct Hinv as (? & ? & ?). unfold tw_inv. simpl in *. lia. }
        rewrite (IH (app w c) T (n + len c) Hinv' Hrest).
        replace (T + (n + len c)) with (T + n + len c) by lia.
        unfold nonempty at 2. simpl.
        destruct (Z.ltb_spec 0 (len c)); [|lia]. simpl.
        rewrite len_app, Z.add_assoc. reflexivity.
      * rewrite Write_reject
          by first [done | by apply buffered_no_overflow | simpl; lia].
        simpl. change (len (@nil Byte.byte)) with 0. rewrite !Z.add_0_r.
        assert (Hadd : add64 n 0 = n).
        { unfold add64. rewrite Z.add_0_r. apply wrap64_small.
          destruct Hinv as (? & ? & ?).
          simpl in *. unfold int64. rewrite MaxTotalSize_val in *. lia. }
        by destruct (len c <? 0); simpl; rewrite Hadd.
    + assert (Hz : len c = 0) by lia.
      destruct Hinv as (H0 & H1 & H2). simpl in *.
      destruct (Z.leb_spec (T + n + len c) MaxTotalSize) as [Hle|Hgt]; [|lia].
      rewrite IH by (done || (unfold tw_inv; simpl; lia)).
      replace (T + n + len c) with (T + n) by lia.
      unfold nonempty at 2. simpl.
      destruct (Z.ltb_spec 0 (len c)); [lia|]. simpl.
      rewrite len_app, Hz. f_equal.
Qed.

End Boundary.

(** ** The file system calls *)

Lemma lookup_ne (w : FS) k : k <> [] -> Os.lookup w k = w !! k.
Proof. by destruct k. Qed.

Lemma lookup_snoc (w : FS) q c : Os.lookup w (q ++ [c]) = w !! (q ++ [c]).
Proof. apply lookup_ne. by destruct q. Qed.



Lemma prefix_snoc_r (p q : list string) c : p `prefix_of` q -> p `prefix_of` q ++ [c].
Proof. intros [k ->]. exists (k ++ [c]). by rewrite app_assoc. Qed.

Lemma snoc_not_prefix (q : list string) c : ~ (q ++ [c]) `prefix_of` q.
Proof.
  intros [k Hk]. apply (f_equal length) in Hk.
  rewrite !length_app in Hk. simpl in Hk. lia.
Qed.


Section MkdirAll.

Variable os : OS.
Variable perm : Z.

Lemma Mkdir_spec (w : FS) q c :
  Os.lookup w (q ++ [c]) = None -> is_dir (Os.lookup w q) = true ->
  Os.Mkdir os w (q ++ [c]) perm = (<[q ++ [c] := Dir (Os.masked os perm)]> w, None).
Proof.
  intros Hk Hq. unfold Os.Mkdir. rewrite Hk, removelast_last.
  by destruct (Os.lookup w q) as [[]|].
Qed.

(** What [MkdirAll] does: on success the path is a directory, nothing that
    existed has changed, and every new object is a directory with the
    given mode on the way to the path; on failure nothing has changed, and a
    component of the path is a file. *)
Lemma mkdirAll_spec (rk : list string) : forall (w : FS),
  match Os.mkdirAll os w rk perm with
  | (w', None) =>
      is_dir (Os.lookup w' (rev rk)) = true
      /\ (forall p n, w !! p = Some n -> w' !! p = Some n)
      /\ (forall p n, w !! p = None -> w' !! p = Some n ->
                      n = Dir (Os.masked os perm) /\ p `prefix_of` rev rk)
  | (w', Some e) =>
      w' = w /\ exists q, q `prefix_of` rev rk /\ is_file (Os.lookup w q) = true
  end.
Proof.
  induction rk as [|c rk IH]; intros w.
  - simpl. split; [done|]. split; [done|]. intros p n H1 H2. congruence.
  - cbn [Os.mkdirAll]. simpl rev.
    destruct (Os.lookup w (rev rk ++ [c])) as [[m|m d]|] eqn:Hk.
    + split; [by rewrite Hk|]. split; [done|]. intros p n H1 H2. congruence.
    + split; [done|]. exists (rev rk ++ [c]). by rewrite Hk.
    + specialize (IH w). destruct (Os.mkdirAll os w rk perm) as [w1 [e|]].
      * destruct IH as [-> (q & Hq & Hf)]. split; [done|].
        exists q. split; [by apply prefix_snoc_r|done].
      * destruct IH as (Hd & Hmono & Hnew).
        assert (Hk1 : Os.lookup w1 (rev rk ++ [c]) = None).
        { rewrite lookup_snoc in *. destruct (w1 !! (rev rk ++ [c])) as [n|] eqn:E; [|done].
          destruct (Hnew _ _ Hk E) as [_ Hp]. by apply snoc_not_prefix in Hp. }
        rewrite (Mkdir_spec _ _ _ Hk1 Hd).
        split; [|split].
        -- by rewrite lookup_snoc, lookup_insert_eq.
        -- intros p n Hp. rewrite lookup_insert_ne; [by apply Hmono|].
           intros <-. rewrite lookup_snoc in Hk. congruence.
        -- intros p n Hp. destruct (decide (rev rk ++ [c] = p)) as [<-|Hne].
           ++ rewrite lookup_insert_eq. intros [= <-]. done.
           ++ rewrite lookup_insert_ne by done. intros E.
              destruct (Hnew _ _ Hp E) as [-> Hpre]. split; [done|].
              by apply prefix_snoc_r.
Qed.



End MkdirAll.

(** ** Facts about paths *)

Module PathFacts.
Import Path.

Lemma append_nil (b : string) : EmptyString +:+ b = b.
Proof. reflexivity. Qed.

Lemma append_cons c (a b : string) : String c a +:+ b = String c (a +:+ b).
Proof. reflexivity. Qed.

Lemma is_sep_sep : is_sep sep = true.
Proof. reflexivity. Qed.

Lemma split_nonempty s : split s <> [].
Proof.
  destruct s as [|c s]; simpl; [done|].
  destruct (is_sep c); [done|]. by destruct (split s).
Qed.

Lemma split_cons_sep s : split (String sep s) = EmptyString :: split s.
Proof. reflexivity. Qed.

Lemma split_app_sep a b : split (a +:+ String sep b) = split a ++ split b.
Proof.
  induction a as [|c a IH].
  - reflexivity.
  - rewrite append_cons. simpl. rewrite IH.
    destruct (is_sep c); [done|].
    pose proof (split_nonempty a). by destruct (split a).
Qed.

Lemma split_slash_free s : Forall slash_free (split s).
Proof.
  induction s as [|c s IH]; simpl.
  - by constructor.
  - destruct (is_sep c) eqn:Hc.
    + by constructor.
    + pose proof (split_nonempty s). destruct (split s) as [|x xs]; [done|].
      inversion IH as [|? ? Hx Hxs]; subst. constructor; [|done].
      unfold slash_free in *. simpl. by rewrite Hc, Hx.
Qed.

Lemma split_join cs : cs <> [] -> Forall slash_free cs -> split (join cs) = cs.
Proof.
  induction cs as [|x cs IH]; intros Hne Hsf; [done|].
  inversion Hsf as [|? ? Hx Hcs]; subst. destruct cs as [|y cs].
  - exact Hx.
  - change (join (x :: y :: cs)) with (x +:+ String sep (join (y :: cs))).
    rewrite split_app_sep, Hx, IH by done. done.
Qed.

Lemma HasPrefix_app s p : HasPrefix s p = true -> exists r, s = p +:+ r.
Proof.
  revert s. induction p as [|c p IH]; intros s H; simpl in H.
  - by exists s.
  - destruct s as [|d s]; [done|].
    apply andb_true_iff in H as [Hc Hp]. apply Ascii.eqb_eq in Hc as ->.
    destruct (IH _ Hp) as [r ->]. by exists r.
Qed.

Lemma canon_slash_free cs : canon cs -> Forall slash_free cs.
Proof. intros H. eapply Forall_impl; [done|]. by intros c (_ & _ & _ & Hc). Qed.

(** *** [Clean] on absolute paths *)

Lemma clean_step_ok acc c :
  canon acc -> slash_free c -> canon (clean_step true acc c).
Proof.
  intros Hacc Hc. unfold clean_step.
  repeat case_bool_decide; try done.
  - destruct acc as [|x acc]; [constructor|].
    inversion Hacc as [|? ? (? & ? & Hdd & ?) ?]; subst.
    by rewrite bool_decide_eq_false_2.
  - by constructor.
Qed.

Lemma fold_clean_ok cs : forall acc,
  canon acc -> Forall slash_free cs -> canon (fold_left (clean_step true) cs acc).
Proof.
  induction cs as [|c cs IH]; intros acc Hacc Hcs; simpl; [done|].
  inversion Hcs; subst. apply IH; [|done]. by apply clean_step_ok.
Qed.

Lemma clean_comps_ok cs : Forall slash_free cs -> canon (clean_comps true cs).
Proof.
  intros H. unfold clean_comps, canon. apply List.Forall_rev.
  apply fold_clean_ok; [constructor|done].
Qed.

Lemma clean_step_canon acc c : comp_ok c -> clean_step true acc c = c :: acc.
Proof.
  intros (H1 & H2 & H3 & _). unfold clean_step.
  by rewrite !bool_decide_eq_false_2.
Qed.

Lemma fold_clean_canon cs : forall acc,
  canon cs -> fold_left (clean_step true) cs acc = rev cs ++ acc.
Proof.
  induction cs as [|c cs IH]; intros acc Hcs; simpl; [done|].
  inversion Hcs; subst. rewrite clean_step_canon, IH by done.
  by rewrite <- app_assoc.
Qed.

(** Empty components around a canonical list disappear. *)
Lemma clean_comps_padded cs :
  canon cs -> clean_comps true (EmptyString :: cs ++ [EmptyString]) = cs.
Proof.
  intros H. unfold clean_comps. simpl. rewrite fold_left_app. simpl.
  rewrite fold_clean_canon by done. unfold clean_step at 1. simpl.
  by rewrite app_nil_r, rev_involutive.
Qed.

Lemma clean_comps_rooted cs :
  canon cs -> clean_comps true (EmptyString :: cs) = cs.
Proof.
  intros H. unfold clean_comps. simpl.
  rewrite fold_clean_canon by done. by rewrite app_nil_r, rev_involutive.
Qed.

Lemma Clean_abs s :
  IsAbs s = true ->
  Clean s = abs_path (clean_comps true (split s)) /\ canon (clean_comps true (split s)).
Proof.
  intros H. unfold Clean. rewrite H. split; [done|].
  apply clean_comps_ok, split_slash_free.
Qed.

Lemma split_abs_path cs :
  canon cs -> cs <> [] -> split (abs_path cs) = EmptyString :: cs.
Proof.
  intros H Hne. unfold abs_path. rewrite split_cons_sep.
  by rewrite split_join by auto using canon_slash_free.
Qed.

Lemma filter_canon cs :
  canon cs -> filter (fun c => c <> EmptyString /\ c <> dot) cs = cs.
Proof.
  induction 1 as [|c cs (H1 & H2 & _) _ IH]; [done|].
  rewrite filter_cons_True by done. by rewrite IH.
Qed.

Lemma segs_abs_path cs : canon cs -> segs (abs_path cs) = cs.
Proof.
  intros H. unfold segs. destruct (decide (cs = [])) as [->|Hne]; [done|].
  rewrite split_abs_path by done. rewrite filter_cons_False by (by intros []).
  by apply filter_canon.
Qed.

(** [Clean] leaves a cleaned absolute path alone. *)
Lemma Clean_abs_path cs : canon cs -> Clean (abs_path cs) = abs_path cs.
Proof.
  intros H. unfold Clean. change (IsAbs (abs_path cs)) with true.
  unfold render. f_equal. destruct (decide (cs = [])) as [->|Hne]; [done|].
  rewrite split_abs_path by done. by rewrite clean_comps_rooted.
Qed.

Lemma canon_removelast cs : canon cs -> canon (removelast cs).
Proof.
  induction 1 as [|c cs Hc Hcs IH]; [constructor|]. simpl.
  destruct cs; [constructor|]. by constructor.
Qed.

(** The parent of a cleaned absolute path drops the last component. *)
Lemma Dir_abs_path cs :
  canon cs -> cs <> [] -> Dir (abs_path cs) = abs_path (removelast cs).
Proof.
  intros H Hne. unfold Dir. rewrite split_abs_path by done.
  destruct cs as [|c cs]; [done|].
  change (removelast (EmptyString :: c :: cs))
    with (EmptyString :: removelast (c :: cs)).
  pose proof (canon_removelast _ H) as Hr.
  destruct (removelast (c :: cs)) as [|x xs] eqn:E.
  - reflexivity.
  - change (join (EmptyString :: x :: xs)) with (abs_path (x :: xs)).
    unfold Clean. change (IsAbs (abs_path (x :: xs) +:+ String sep EmptyString)) with true.
    unfold render. rewrite split_app_sep, split_abs_path by done.
    change (split EmptyString) with [EmptyString].
    change ((EmptyString :: x :: xs) ++ [EmptyString])
      with (EmptyString :: (x :: xs) ++ [EmptyString]).
    by rewrite clean_comps_padded.
Qed.

(** Joining onto an absolute root gives a cleaned absolute path. *)
Lemma Join_abs a b :
  IsAbs a = true -> exists cs, canon cs /\ Join a b = abs_path cs.
Proof.
  intros Ha. destruct a as [|c a]; [done|].
  assert (Hj : exists s, IsAbs s = true /\ Join (String c a) b = Clean s).
  { destruct b as [|d b].
    - by exists (String c a).
    - exists (String c a +:+ String sep (String d b)). done. }
  destruct Hj as (s & Hs & ->). destruct (Clean_abs s Hs) as [-> Hc]. eauto.
Qed.

(** The string test of the path check, on components: under the root.
    (With the root [/] the test never holds: the prefix would be [//].) *)
Lemma HasPrefix_under cs rs :
  canon cs -> canon rs ->
  HasPrefix (abs_path cs) (abs_path rs +:+ String sep EmptyString) = true ->
  rs `prefix_of` cs /\ rs <> cs.
Proof.
  intros Hcs Hrs H. apply HasPrefix_app in H as [x Hx].
  assert (Hx' : abs_path cs = abs_path rs +:+ String sep x).
  { rewrite Hx. clear. induction (abs_path rs) as [|c s IH]; [done|].
    rewrite !append_cons. by rewrite IH. }
  apply (f_equal split) in Hx'. rewrite split_app_sep in Hx'.
  pose proof (split_nonempty x) as Hxne.
  destruct (decide (rs = [])) as [->|Hrne].
  - exfalso. change (split (abs_path [])) with [EmptyString; EmptyString] in Hx'.
    destruct (decide (cs = [])) as [->|Hcne].
    + change (split (abs_path [])) with [EmptyString; EmptyString] in Hx'.
      simpl in Hx'. injection Hx' as Hx'. by destruct (split x).
    + rewrite split_abs_path in Hx' by done. simpl in Hx'.
      injection Hx' as Hx'. rewrite Hx' in Hcs.
      inversion Hcs as [|? ? (Hbad & _) _]. done.
  - rewrite (split_abs_path rs) in Hx' by done.
    destruct (decide (cs = [])) as [->|Hcne].
    + change (split (abs_path [])) with [EmptyString; EmptyString] in Hx'.
      simpl in Hx'. injection Hx' as Hx'.
      destruct rs as [|r rs]; [done|]. simpl in Hx'. injection Hx' as Hr _.
      inversion Hrs as [|? ? (Hbad & _) _]. done.
    + rewrite split_abs_path in Hx' by done. simpl in Hx'.
      injection Hx' as Hx'. split; [by exists (split x)|].
      intros ->. apply (f_equal length) in Hx'. rewrite length_app in Hx'.
      destruct (split x); [done|]. simpl in Hx'. lia.
Qed.

End PathFacts.

(** ** The gates of the loop *)

(** C4: a regular-file entry whose declared size exceeds [MaxFileSize] makes
    the extraction fail at the pre-check: the error is the size-limit error
    and the file system and the running total are those left by the entries
    before it, so no byte of its content has been written, whatever its
    content is. *)
Theorem oversized_file_fails_at_precheck os absDst pre tr post fin st st1 h :
  extractArchive os pre None absDst st = (st1, None) ->
  header tr = Some h ->
  Typeflag h = tar.TypeReg ->
  Size h > MaxFileSize ->
  extractArchive os (pre ++ tr :: post) fin absDst st
  = (st1, Some (ErrFileTooLarge (Name h))).
Proof.
  intros Hpre Hh _ Hsz. eapply extractArchive_reach_stop; [done..|].
  by apply extractEntry_oversized.
Qed.

Lemma oversized_file_fails_at_precheck_witness :
  let h := mkHeader "huge_file.txt" tar.TypeReg (MaxFileSize + 1000) in
  extractArchive os_ok ([fileEntry "a.txt" 420 "ok"] ++ mkEntry h [bytes "x"] :: [])
    None "/R" (∅, 0)
  = ({[ ["R"] := Dir 493; ["R"; "a.txt"] := File 420 (bytes "ok") ]}, 2,
     Some (ErrFileTooLarge "huge_file.txt")).
Proof.
  apply (oversized_file_fails_at_precheck os_ok "/R"
           [fileEntry "a.txt" 420 "ok"]
           (mkEntry (mkHeader "huge_file.txt" tar.TypeReg (MaxFileSize + 1000)) [bytes "x"])
           [] None (∅, 0) _ (mkHeader "huge_file.txt" tar.TypeReg (MaxFileSize + 1000)));
    [vm_compute; reflexivity | reflexivity | reflexivity | vm_compute; reflexivity].
Defined.

(** C10: the declared-size pre-check comes before the path check and
    before the dispatch on the type: for a header of any type flag
    (directory, symlink, hard link, unknown) a declared size above
    [MaxFileSize] ends the extraction with the size-limit error, never with
    the link error, and the entry is not skipped. *)
Theorem precheck_applies_to_every_type os absDst pre tr post fin st st1 h :
  extractArchive os pre None absDst st = (st1, None) ->
  header tr = Some h ->
  Size h > MaxFileSize ->
  extractEntry os absDst h tr st1 = (st1, Some (ErrFileTooLarge (Name h)))
  /\ extractArchive os (pre ++ tr :: post) fin absDst st
     = (st1, Some (ErrFileTooLarge (Name h)))
  /\ ErrFileTooLarge (Name h) <> ErrLinkNotAllowed (Name h).
Proof.
  intros Hpre Hh Hsz.
  pose proof (extractEntry_oversized os absDst h tr st1 Hsz) as He.
  split; [done|]. split; [|done].
  by eapply extractArchive_reach_stop.
Qed.

Lemma precheck_applies_to_every_type_witness :
  let h := {| Name := "evil"; Typeflag := tar.TypeSymlink; Size := MaxFileSize + 1;
              Mode := 511; Linkname := "/etc/passwd" |} in
  extractEntry os_ok "/R" h (mkEntry h []) (∅, 0) = (∅, 0, Some (ErrFileTooLarge "evil"))
  /\ extractArchive os_ok ([] ++ mkEntry h [] :: [dirEntry "d" 493]) None "/R" (∅, 0)
     = (∅, 0, Some (ErrFileTooLarge "evil"))
  /\ ErrFileTooLarge "evil" <> ErrLinkNotAllowed "evil".
Proof.
  apply (precheck_applies_to_every_type os_ok "/R" [] _ [dirEntry "d" 493] None (∅, 0));
    [reflexivity | reflexivity | vm_compute; reflexivity].
Defined.

(** The same for other type flags. *)
Example oversized_unknown_type_not_skipped :
  let h := mkHeader "ignored.bin" "127"%char (MaxFileSize + 1) in
  extractArchive os_ok [mkEntry h []] None "/R" (∅, 0)
  = (∅, 0, Some (ErrFileTooLarge "ignored.bin")).
Proof. vm_compute. reflexivity. Qed.

Example oversized_directory_rejected :
  let h := mkHeader "d/" tar.TypeDir (MaxFileSize + 1) in
  extractArchive os_ok [mkEntry h []] None "/R" (∅, 0)
  = (∅, 0, Some (ErrFileTooLarge "d/")).
Proof. vm_compute. reflexivity. Qed.

(** C1, as stated, fails: an entry whose path leaves the root and whose
    declared size is above the per-file limit is rejected by the size
    pre-check, which comes first; the error is not the unsafe-path error. *)
Lemma unsafe_oversized_entry_size_error :
  let h := mkHeader "../escape.txt" tar.TypeReg (MaxFileSize + 1) in
  (forall a, Path.Abs (cwd os_ok) (Path.Join "/R" (Name h)) = Some a ->
             Path.HasPrefix a ("/R" +:+ String Path.sep EmptyString) = false /\ a <> "/R")
  /\ extractArchive os_ok [mkEntry h [bytes "hello"]] None "/R" (∅, 0)
     = (∅, 0, Some (ErrFileTooLarge "../escape.txt"))
  /\ ErrFileTooLarge "../escape.txt" <> ErrUnsafePath "../escape.txt".
Proof.
  split; [|split; [vm_compute; reflexivity | discriminate]].
  intros a Ha. vm_compute in Ha. injection Ha as <-. split; [reflexivity | discriminate].
Qed.

(** C1 (amended): an entry whose resolved target is neither the root nor
    under the root followed by the separator ends the extraction, with the
    file system and the running total left by the entries before it; the
    error is the unsafe-path error when the declared size is within the
    per-file limit, and the size-limit error of the pre-check otherwise.
    And the loop body changes the file system only for entries that passed
    the path check. *)
Theorem unsafe_entry_rejected os absDst pre tr post fin st st1 h :
  extractArchive os pre None absDst st = (st1, None) ->
  header tr = Some h ->
  (forall a, Path.Abs (cwd os) (Path.Join absDst (Name h)) = Some a ->
             Path.HasPrefix a (absDst +:+ String Path.sep EmptyString) = false
             /\ a <> absDst) ->
  extractArchive os (pre ++ tr :: post) fin absDst st
  = (st1, Some (if Size h >? MaxFileSize then ErrFileTooLarge (Name h)
                else ErrUnsafePath (Name h)))
  /\ (forall h' tr' st',
        fst (fst (extractEntry os absDst h' tr' st')) <> fst st' ->
        isPathSafe os (Path.Join absDst (Name h')) absDst = true).
Proof.
  intros Hpre Hh Hesc. split.
  - eapply extractArchive_reach_stop; [done..|].
    destruct (Z.gtb_spec (Size h) MaxFileSize) as [Hgt|Hle].
    + apply extractEntry_oversized. lia.
    + apply extractEntry_unsafe; [done|]. by apply isPathSafe_false.
  - intros h' tr' st' Hch.
    destruct (isPathSafe os (Path.Join absDst (Name h')) absDst) eqn:Hs; [done|].
    exfalso. apply Hch. unfold extractEntry. rewrite Hs.
    by destruct (Size h' >? MaxFileSize).
Qed.

Lemma unsafe_entry_rejected_witness :
  let tr := fileEntry "../escape.txt" 420 "hello" in
  extractArchive os_ok ([dirEntry "a/" 493] ++ tr :: [fileEntry "b" 420 "later"])
    None "/R" (∅, 0)
  = ({[ ["R"] := Dir 493; ["R"; "a"] := Dir 493 ]}, 0,
     Some (ErrUnsafePath "../escape.txt")).
Proof.
  refine (proj1 (unsafe_entry_rejected os_ok "/R" [dirEntry "a/" 493]
                   (fileEntry "../escape.txt" 420 "hello")
                   [fileEntry "b" 420 "later"] None (∅, 0) _ _ _ eq_refl _));
    [vm_compute; reflexivity|].
  intros a Ha. vm_compute in Ha. injection Ha as <-.
  split; [reflexivity | discriminate].
Defined.

(** C2, as stated, fails: a symlink entry whose name leaves the root is
    rejected by the path check, and one with an oversized declared size by
    the pre-check; neither error is the link error. *)
Lemma link_entry_other_error :
  extractArchive os_ok [symlinkEntry "../evil" "/etc/passwd"] None "/R" (∅, 0)
  = (∅, 0, Some (ErrUnsafePath "../evil"))
  /\ extractArchive os_ok
       [mkEntry (mkHeader "evil" tar.TypeSymlink (MaxFileSize + 1)) []] None "/R" (∅, 0)
     = (∅, 0, Some (ErrFileTooLarge "evil"))
  /\ ErrUnsafePath "../evil" <> ErrLinkNotAllowed "../evil"
  /\ ErrFileTooLarge "evil" <> ErrLinkNotAllowed "evil".
Proof. repeat split; try discriminate; vm_compute; reflexivity. Qed.

(** C2 (amended): a symlink or hard-link entry always ends the extraction
    when the loop reaches it, and nothing is created for it: the file system
    and the running total are those left by the entries before it. The error
    is the link error when the entry passes the two gates before the
    dispatch (declared size within the per-file limit, safe path); it is the
    size-limit error or the unsafe-path error otherwise. *)
Theorem link_entry_rejected os absDst pre tr post fin st st1 h :
  extractArchive os pre None absDst st = (st1, None) ->
  header tr = Some h ->
  Typeflag h = tar.TypeSymlink \/ Typeflag h = tar.TypeLink ->
  extractArchive os (pre ++ tr :: post) fin absDst st
  = (st1, Some (if Size h >? MaxFileSize then ErrFileTooLarge (Name h)
                else if isPathSafe os (Path.Join absDst (Name h)) absDst
                     then ErrLinkNotAllowed (Name h)
                     else ErrUnsafePath (Name h))).
Proof.
  intros Hpre Hh Hl. eapply extractArchive_reach_stop; [done..|].
  destruct (Z.gtb_spec (Size h) MaxFileSize) as [Hgt|Hle].
  - apply extractEntry_oversized. lia.
  - destruct (isPathSafe os (Path.Join absDst (Name h)) absDst) eqn:Hs.
    + rewrite extractEntry_dispatch by done. by apply processEntry_link.
    + by apply extractEntry_unsafe.
Qed.

Lemma link_entry_rejected_witness :
  extractArchive os_ok ([] ++ symlinkEntry "evil" "/etc/passwd" :: [fileEntry "b" 420 "x"])
    None "/R" (∅, 0)
  = (∅, 0, Some (ErrLinkNotAllowed "evil")).
Proof.
  apply (link_entry_rejected os_ok "/R" [] (symlinkEntry "evil" "/etc/passwd")
           [fileEntry "b" 420 "x"] None (∅, 0) (∅, 0) _ eq_refl eq_refl).
  left. reflexivity.
Defined.

(** ** Files: open, write, remove *)

Lemma file_Lossless os : accepting os -> @Lossless Os.file (file_Writer os) file_append.
Proof.
  intros Hacc f p. unfold Write, file_Writer, Os.Write, file_append.
  specialize (Hacc (Os.fs f) (Os.key f) p).
  rewrite Nat.min_r by done. rewrite firstn_all.
  assert ((length p <? length p)%nat = false) as -> by (apply Nat.ltb_ge; lia).
  done.
Qed.

Lemma foldl_file_append cs : forall (w : FS) k m d,
  w !! k = Some (File m d) ->
  foldl file_append {| Os.fs := w; Os.key := k |} cs
  = {| Os.fs := <[k := File m (d ++ concat cs)]> w; Os.key := k |}.
Proof.
  induction cs as [|c cs IH]; intros w k m d Hk; simpl.
  - rewrite app_nil_r. by rewrite insert_id.
  - unfold file_append at 2. simpl. rewrite Hk.
    rewrite (IH _ k m (d ++ c)) by apply lookup_insert_eq.
    by rewrite insert_insert_eq, app_assoc.
Qed.

Lemma concat_nonempty cs : concat (nonempty cs) = concat cs.
Proof.
  induction cs as [|c cs IH]; [done|]. unfold nonempty in *. simpl.
  destruct (Z.ltb_spec 0 (len c)) as [|Hz]; simpl; [by rewrite IH|].
  destruct c; [done|]. unfold len in Hz. simpl in Hz. lia.
Qed.

Lemma file_rel_refl f : file_rel f f.
Proof. by repeat split. Qed.

Lemma file_rel_trans f1 f2 f3 : file_rel f1 f2 -> file_rel f2 f3 -> file_rel f1 f3.
Proof.
  intros (Hk1 & He1 & Hf1) (Hk2 & He2 & Hf2). rewrite Hk1 in *.
  split; [congruence|]. split; [|congruence].
  intros p Hp. rewrite He2, He1 by done. done.
Qed.

Lemma Os_Write_rel os f p : file_rel f (fst (fst (Os.Write os f p))).
Proof.
  unfold Os.Write, file_rel. simpl. split; [done|].
  destruct (Os.fs f !! Os.key f) as [[m|m d]|] eqn:Hk; try by rewrite ?Hk.
  split; [intros q Hq; by rewrite lookup_insert_ne|].
  by rewrite lookup_insert_eq.
Qed.

Section FileCopy.

Variable os : OS.

Lemma trackingWriter_file_rel (tw : trackingWriter Os.file) p :
  file_rel (writer tw) (writer (fst (fst (@trackingWriter_Write _ (file_Writer os) tw p)))).
Proof.
  unfold trackingWriter_Write. destruct (validateTotalSize _ _).
  - apply file_rel_refl.
  - pose proof (Os_Write_rel os (writer tw) p) as H.
    unfold Write, file_Writer.
    by destruct (Os.Write os (writer tw) p) as [[f' n] e].
Qed.

Lemma copyBuffer_file_rel chunks fin : forall (tw : trackingWriter Os.file) c0,
  file_rel (writer tw)
    (writer (fst (fst (@copyBuffer _ (@trackingWriter_Writer _ (file_Writer os))
                         tw chunks fin c0)))).
Proof.
  induction chunks as [|c rest IH]; intros tw c0; simpl.
  - apply file_rel_refl.
  - destruct (0 <? len c); [|apply IH].
    pose proof (trackingWriter_file_rel tw c) as Hrel.
    change (@Write _ (@trackingWriter_Writer _ (file_Writer os)) tw c)
      with (@trackingWriter_Write _ (file_Writer os) tw c).
    destruct (@trackingWriter_Write _ (file_Writer os) tw c) as [[tw' n] e].
    simpl in Hrel.
    destruct ((n <? 0) || (len c <? n)); simpl.
    + done.
    + destruct e; [done|]. case_bool_decide; [|done].
      eapply file_rel_trans; [done|apply IH].
Qed.

(** [OpenFile] touches only the path it opens, and leaves an empty file
    there when it succeeds. *)
Lemma OpenFile_spec (w : FS) target perm :
  match Os.OpenFile os w target perm with
  | (w', None) =>
      Path.segs target <> []
      /\ (exists m, w' !! Path.segs target = Some (File m [])
                    /\ (w !! Path.segs target = None -> m = Os.masked os perm)
                    /\ (forall m0 d0, w !! Path.segs target = Some (File m0 d0) ->
                                      m = m0))
      /\ is_dir (Os.lookup w (Path.segs target)) = false
      /\ (w !! Path.segs target = None ->
          is_dir (Os.lookup w (removelast (Path.segs target))) = true)
      /\ (forall p, p <> Path.segs target -> w' !! p = w !! p)
  | (w', Some _) => w' = w
  end.
Proof.
  unfold Os.OpenFile. set (k := Path.segs target).
  destruct k as [|c k'] eqn:Ek; [done|].
  change (Os.lookup w (c :: k')) with (w !! (c :: k')).
  destruct (w !! (c :: k')) as [[m|m d]|] eqn:Hk; [done| |].
  - split; [done|]. split.
    { exists m. rewrite lookup_insert_eq. split; [done|]. split; [done|].
      by intros m0 d0 [= -> _]. }
    split; [done|]. split; [done|]. intros p Hp. by rewrite lookup_insert_ne.
  - destruct (Os.lookup w (removelast (c :: k'))) as [[m|m d]|] eqn:Hpar; [|done..].
    split; [done|]. split; [exists (Os.masked os perm); by rewrite lookup_insert_eq|].
    split; [done|]. split; [done|]. intros p Hp. by rewrite lookup_insert_ne.
Qed.

Lemma Remove_file (w : FS) target m d :
  w !! Path.segs target = Some (File m d) ->
  Os.Remove w target = (delete (Path.segs target) w, None).
Proof. intros H. unfold Os.Remove. by rewrite H. Qed.

End FileCopy.

(** ** The anatomy of [handleRegularFile] *)

Section RegularFile.

Variable os : OS.

Lemma handleRegularFile_outcome w target h tr T :
  regular_outcome os w target h tr T (handleRegularFile os w target h tr T).
Proof.
  unfold handleRegularFile.
  pose proof (mkdirAll_spec os 493 (rev (Path.segs (Path.Dir target))) w) as Hmk.
  fold (Os.MkdirAll os w (Path.Dir target) 493) in Hmk.
  destruct (Os.MkdirAll os w (Path.Dir target) 493) as [w1 [e|]] eqn:Emk.
  { destruct Hmk as [-> _]. by constructor. }
  pose proof (OpenFile_spec os w1 target (permOr (Mode h) 420)) as Hop.
  destruct (Os.OpenFile os w1 target (permOr (Mode h) 420)) as [w2 [e|]] eqn:Eop.
  { subst w2. by econstructor. }
  destruct Hop as (Hne & (m & Hm & _) & _ & _ & Hframe).
  pose proof (copyBuffer_file_rel os (chunks tr) (rend tr)
                (mkTrackingWriter {| Os.fs := w2; Os.key := Path.segs target |} T 0) 0) as Hrel.
  fold (@ioCopy _ (@trackingWriter_Writer _ (file_Writer os))
          (mkTrackingWriter {| Os.fs := w2; Os.key := Path.segs target |} T 0)
          (chunks tr) (rend tr)) in Hrel.
  destruct (ioCopy _ (chunks tr) (rend tr)) as [[tw' n] err] eqn:Ecp.
  simpl in Hrel.
  assert (Hfile : is_file (Os.fs (writer tw') !! Path.segs target) = true).
  { destruct Hrel as (_ & _ & Hf). simpl in Hf. by rewrite Hf, Hm. }
  assert (Hrm : Os.Remove (Os.fs (writer tw')) target
                = (delete (Path.segs target) (Os.fs (writer tw')), None)).
  { destruct (Os.fs (writer tw') !! Path.segs target) as [[?|m' d']|] eqn:E; try done.
    by eapply Remove_file. }
  rewrite Hrm. simpl.
  pose proof (copied os w target h tr T w1 w2 tw' n err Emk Eop Ecp Hrel Hfile) as Hout.
  destruct err as [e|]; [done|]. by destruct (n >? mul64 (Size h) 2).
Qed.

(** Whatever happens, an object at another path than the target stays. *)
Lemma handleRegularFile_frame w target h tr T p x :
  p <> Path.segs target -> w !! p = Some x ->
  fst (fst (handleRegularFile os w target h tr T)) !! p = Some x.
Proof.
  intros Hp Hx. destruct (handleRegularFile_outcome w target h tr T)
    as [e Hmk | w1 e Hmk Hop | w1 w2 tw' n err Hmk Hop Hcp Hrel Hfile]; simpl.
  - done.
  - pose proof (mkdirAll_spec os 493 (rev (Path.segs (Path.Dir target))) w) as Hs.
    fold (Os.MkdirAll os w (Path.Dir target) 493) in Hs. rewrite Hmk in Hs.
    destruct Hs as (_ & Hmono & _). by apply Hmono.
  - pose proof (mkdirAll_spec os 493 (rev (Path.segs (Path.Dir target))) w) as Hs.
    fold (Os.MkdirAll os w (Path.Dir target) 493) in Hs. rewrite Hmk in Hs.
    destruct Hs as (_ & Hmono & _).
    pose proof (OpenFile_spec os w1 target (permOr (Mode h) 420)) as Ho.
    rewrite Hop in Ho. destruct Ho as (_ & _ & _ & _ & Hfr).
    destruct Hrel as (_ & Hel & _). simpl in Hel.
    assert (Os.fs (writer tw') !! p = Some x) as Hfin.
    { rewrite Hel, Hfr by done. by apply Hmono. }
    destruct err as [e|]; simpl; [by rewrite lookup_delete_ne|].
    destruct (n >? mul64 (Size h) 2); simpl; [by rewrite lookup_delete_ne|done].
Qed.

(** A failure after the file was opened leaves nothing at the target. *)
Lemma handleRegularFile_cleanup w target h tr T w' n e :
  handleRegularFile os w target h tr T = (w', n, Some e) ->
  (exists c, e = ErrWriteContent c) \/ (exists nm a b, e = ErrSizeAnomaly nm a b) ->
  w' !! Path.segs target = None.
Proof.
  intros Hr He. destruct (handleRegularFile_outcome w target h tr T)
    as [e0 Hmk | w1 e0 Hmk Hop | w1 w2 tw' n0 err Hmk Hop Hcp Hrel Hfile].
  - injection Hr as <- <- <-. by destruct He as [[? ?]|(? & ? & ? & ?)].
  - injection Hr as <- <- <-. by destruct He as [[? ?]|(? & ? & ? & ?)].
  - destruct err as [c|].
    + injection Hr as <- <- <-. apply lookup_delete_eq.
    + destruct (n0 >? mul64 (Size h) 2); [|done].
      injection Hr as <- <- <-. apply lookup_delete_eq.
Qed.

(** The count returned is the growth of the accountant's counter: it
    keeps the running total within the limit and is at most the content
    delivered. *)
Lemma handleRegularFile_count w target h tr T w' n :
  0 <= T <= MaxTotalSize -> Forall buffered (chunks tr) ->
  handleRegularFile os w target h tr T = (w', n, None) ->
  0 <= n /\ T + n <= MaxTotalSize /\ n <= len (concat (chunks tr))
  /\ n <= mul64 (Size h) 2.
Proof.
  intros HT Hb Hr. destruct (handleRegularFile_outcome w target h tr T)
    as [e0 Hmk | w1 e0 Hmk Hop | w1 w2 tw' n0 err Hmk Hop Hcp Hrel Hfile]; [done..|].
  destruct err as [c|]; [done|].
  destruct (Z.gtb_spec n0 (mul64 (Size h) 2)) as [|Hpost]; [done|].
  injection Hr as <- <-.
  pose proof (@copyBuffer_inv _ (file_Writer os) (file_WriterOk os) (chunks tr) (rend tr)
                (mkTrackingWriter {| Os.fs := w2; Os.key := Path.segs target |} T 0) 0) as Hinv.
  unfold ioCopy in Hcp. rewrite Hcp in Hinv. simpl in Hinv.
  destruct Hinv as ((H0 & H1 & H2) & Hc & Hn & Hw); [unfold tw_inv; simpl; lia|done..|].
  rewrite Hc in *. lia.
Qed.

(** A regular file that is extracted has received all the content read
    for it. *)
Lemma handleRegularFile_exact w target h tr T w' n :
  0 <= T <= MaxTotalSize -> Forall buffered (chunks tr) ->
  handleRegularFile os w target h tr T = (w', n, None) ->
  n = len (concat (chunks tr)).
Proof.
  intros HT Hb Hr. destruct (handleRegularFile_outcome w target h tr T)
    as [e0 Hmk | w1 e0 Hmk Hop | w1 w2 tw' n0 err Hmk Hop Hcp Hrel Hfile]; [done..|].
  destruct err as [c|]; [done|].
  destruct (n0 >? mul64 (Size h) 2); [done|].
  injection Hr as <- <-.
  pose proof (@copyBuffer_complete _ (file_Writer os) (file_WriterOk os) (chunks tr) (rend tr)
                (mkTrackingWriter {| Os.fs := w2; Os.key := Path.segs target |} T 0) 0) as Hx.
  unfold ioCopy in Hcp. rewrite Hcp in Hx. simpl in Hx.
  rewrite Hx; [lia | unfold tw_inv; simpl; lia | done..].
Qed.

End RegularFile.

(** ** The running total across entries *)

Section RunningTotal.

Variable os : OS.

Lemma processEntry_total h target tr w T :
  0 <= T <= MaxTotalSize -> Forall buffered (chunks tr) ->
  T <= snd (fst (processEntry os h target tr (w, T))) <= MaxTotalSize.
Proof.
  intros HT Hb. unfold processEntry.
  case_bool_decide.
  { destruct (handleDirectory os w target h) as [w' [e|]]; simpl; lia. }
  case_bool_decide.
  { destruct (handleRegularFile os w target h tr T) as [[w' n] [e|]] eqn:Hr; simpl; [lia|].
    destruct (handleRegularFile_count os w target h tr T w' n HT Hb Hr) as (? & ? & _).
    unfold add64. rewrite wrap64_small; [lia|].
    unfold int64. rewrite MaxTotalSize_val in *. lia. }
  destruct (_ || _); simpl; lia.
Qed.

Lemma extractEntry_total absDst h tr w T :
  0 <= T <= MaxTotalSize -> Forall buffered (chunks tr) ->
  T <= snd (fst (extractEntry os absDst h tr (w, T))) <= MaxTotalSize.
Proof.
  intros HT Hb. unfold extractEntry.
  destruct (Size h >? MaxFileSize); simpl; [lia|].
  destruct (negb _); simpl; [lia|]. by apply processEntry_total.
Qed.

Lemma extractArchive_total ents fin absDst : forall w T,
  0 <= T <= MaxTotalSize -> reads_buffered ents ->
  T <= snd (fst (extractArchive os ents fin absDst (w, T))) <= MaxTotalSize.
Proof.
  induction ents as [|tr ents IH]; intros w T HT Hb; simpl.
  - destruct fin; simpl; lia.
  - inversion Hb as [|? ? Htr Hents]; subst.
    destruct (header tr) as [h|]; [|by apply IH].
    pose proof (extractEntry_total absDst h tr w T HT Htr) as Hstep.
    destruct (extractEntry os absDst h tr (w, T)) as [[w' T'] [e|]]; simpl in *; [lia|].
    specialize (IH w' T' ltac:(lia) Hents). lia.
Qed.

(** The running total grows by the content of each regular file that is
    extracted, and by nothing else. *)
Lemma extractEntry_exact absDst h tr w T w' T' :
  0 <= T <= MaxTotalSize -> Forall buffered (chunks tr) ->
  header tr = Some h ->
  extractEntry os absDst h tr (w, T) = (w', T', None) ->
  T' = T + content_of tr.
Proof.
  intros HT Hb Hh Hstep. unfold content_of. rewrite Hh.
  unfold extractEntry in Hstep.
  destruct (Size h >? MaxFileSize); [done|].
  destruct (negb _); [done|].
  unfold processEntry in Hstep.
  case_bool_decide as Hdir.
  { rewrite bool_decide_eq_false_2 by (rewrite Hdir; done).
    destruct (handleDirectory _ _ _ _) as [w1 [e|]]; [done|].
    injection Hstep as <- <-. lia. }
  case_bool_decide as Hreg.
  { destruct (handleRegularFile os w _ h tr T) as [[w2 n] [e|]] eqn:Hr; [done|].
    injection Hstep as <- <-.
    pose proof (handleRegularFile_exact os _ _ _ _ _ _ _ HT Hb Hr) as ->.
    pose proof (handleRegularFile_count os _ _ _ _ _ _ _ HT Hb Hr) as (? & ? & _).
    unfold add64. rewrite wrap64_small; [done|].
    unfold int64. rewrite MaxTotalSize_val in *. lia. }
  destruct (_ || _); [done|]. injection Hstep as <- <-. lia.
Qed.

Lemma extractArchive_exact ents absDst : forall w T w' T',
  0 <= T <= MaxTotalSize -> reads_buffered ents ->
  extractArchive os ents None absDst (w, T) = (w', T', None) ->
  T' = T + content_size ents.
Proof.
  induction ents as [|tr ents IH]; intros w T w' T' HT Hb Hr; simpl in *.
  - injection Hr as <- <-. lia.
  - inversion Hb as [|? ? Htr Hents]; subst. unfold content_of.
    destruct (header tr) as [h|] eqn:Hh.
    + pose proof (extractEntry_total absDst h tr w T HT Htr) as Hstep.
      destruct (extractEntry os absDst h tr (w, T)) as [[w1 T1] [e|]] eqn:He; [done|].
      simpl in Hstep.
      pose proof (extractEntry_exact _ _ _ _ _ _ _ HT Htr Hh He) as Hx.
      unfold content_of in Hx. rewrite Hh in Hx.
      rewrite (IH w1 T1 w' T' ltac:(lia) Hents Hr). lia.
    + rewrite (IH w T w' T' HT Hents Hr). lia.
Qed.

End RunningTotal.

Lemma fitting_short total chunks :
  total <= MaxTotalSize ->
  total + len (concat chunks) > MaxTotalSize ->
  (length (fitting total chunks) < length chunks)%nat.
Proof.
  revert total. induction chunks as [|c rest IH]; intros total Ht H; simpl in *.
  - change (len (@nil Byte.byte)) with 0 in H. lia.
  - rewrite len_app in H.
    destruct (Z.leb_spec (total + len c) MaxTotalSize); simpl; [|lia].
    specialize (IH (total + len c) ltac:(lia) ltac:(lia)). lia.
Qed.

(** [io.Copy] into a file of a device that accepts every write: the file
    receives exactly the fitting chunks. *)
Lemma ioCopy_file (os : OS) (w : FS) k m d T chunks fin :
  accepting os -> w !! k = Some (File m d) ->
  0 <= T <= MaxTotalSize -> Forall buffered chunks ->
  @ioCopy _ (@trackingWriter_Writer _ (file_Writer os))
    (mkTrackingWriter {| Os.fs := w; Os.key := k |} T 0) chunks fin
  = (mkTrackingWriter
       {| Os.fs := <[k := File m (d ++ concat (fitting T chunks))]> w; Os.key := k |}
       T (len (concat (fitting T chunks))),
     len (concat (fitting T chunks)),
     if (length (fitting T chunks) <? length chunks)%nat
     then Some ErrTotalSize else endError fin).
Proof.
  intros Hacc Hk HT Hb. unfold ioCopy.
  rewrite (@copyBuffer_fitting _ (file_Writer os) file_append (file_Lossless os Hacc));
    [|unfold tw_inv; simpl; lia|done].
  rewrite Z.add_0_r, !Z.add_0_l.
  rewrite (foldl_file_append _ w k m d Hk), concat_nonempty. done.
Qed.

Lemma len_concat_take (chunks : list (list Byte.byte)) k :
  len (concat (take k chunks)) <= len (concat chunks).
Proof.
  revert k. induction chunks as [|c rest IH]; intros [|k]; simpl;
    rewrite ?len_app; change (len (@nil Byte.byte)) with 0; try lia.
  - pose proof (len_nonneg c). pose proof (len_nonneg (concat rest)). lia.
  - specialize (IH k). lia.
Qed.

Lemma len_concat_next (chunks : list (list Byte.byte)) k c :
  chunks !! k = Some c ->
  len (concat (take k chunks)) + len c <= len (concat chunks).
Proof.
  intros Hc. pose proof (len_concat_take chunks (S k)) as H.
  rewrite (take_S_r _ _ _ Hc), concat_app, len_app in H.
  simpl in H. rewrite app_nil_r in H. done.
Qed.

Lemma mul64_double (z : Z) : - 2 ^ 62 <= z < 2 ^ 62 -> mul64 z 2 = 2 * z.
Proof. intros H. unfold mul64. rewrite wrap64_small; [lia|]. unfold int64. lia. Qed.

(** A regular file whose content fits under the total limit and passes
    the post-check is written in full. *)
Lemma handleRegularFile_writes (os : OS) (w w1 w2 : FS) target h tr T :
  accepting os ->
  Os.MkdirAll os w (Path.Dir target) 493 = (w1, None) ->
  Os.OpenFile os w1 target (permOr (Mode h) 420) = (w2, None) ->
  0 <= T -> T + len (concat (chunks tr)) <= MaxTotalSize ->
  Forall buffered (chunks tr) -> rend tr = ReadEOF ->
  - 2 ^ 62 <= Size h < 2 ^ 62 -> len (concat (chunks tr)) <= 2 * Size h ->
  exists w', handleRegularFile os w target h tr T = (w', len (concat (chunks tr)), None).
Proof.
  intros Hacc Hmk Hop HT Htot Hbuf Hend Hsz Hpost.
  pose proof (len_nonneg (concat (chunks tr))) as Hlen.
  pose proof (OpenFile_spec os w1 target (permOr (Mode h) 420)) as Ho.
  rewrite Hop in Ho. destruct Ho as (_ & (m & Hm & _) & _).
  unfold handleRegularFile. rewrite Hmk, Hop.
  rewrite (ioCopy_file os w2 _ m [] T) by (done || lia).
  rewrite fitting_all by done. rewrite Nat.ltb_irrefl, Hend. simpl.
  rewrite mul64_double by done.
  destruct (Z.gtb_spec (len (concat (chunks tr))) (2 * Size h)); [lia|]. eauto.
Qed.

Section OverTotal.

Variable os : OS.
Hypothesis os_accepting : accepting os.

(** A regular file whose content would cross the total limit fails with
    the total-size error, and is unlinked. *)
Lemma handleRegularFile_over_total w w1 w2 target h tr T :
  0 <= T <= MaxTotalSize -> Forall buffered (chunks tr) ->
  Os.MkdirAll os w (Path.Dir target) 493 = (w1, None) ->
  Os.OpenFile os w1 target (permOr (Mode h) 420) = (w2, None) ->
  T + len (concat (chunks tr)) > MaxTotalSize ->
  snd (handleRegularFile os w target h tr T) = Some (ErrWriteContent ErrTotalSize)
  /\ fst (fst (handleRegularFile os w target h tr T)) !! Path.segs target = None.
Proof.
  intros HT Hb Hmk Hop Hover.
  pose proof (OpenFile_spec os w1 target (permOr (Mode h) 420)) as Ho.
  rewrite Hop in Ho. destruct Ho as (_ & (m & Hm & _) & _).
  assert (Hsnd : snd (handleRegularFile os w target h tr T)
                 = Some (ErrWriteContent ErrTotalSize)).
  { unfold handleRegularFile. rewrite Hmk, Hop.
    rewrite (ioCopy_file os w2 _ m [] T) by done.
    pose proof (fitting_short T (chunks tr) ltac:(lia) Hover) as Hsh.
    apply Nat.ltb_lt in Hsh. rewrite Hsh. done. }
  split; [done|].
  destruct (handleRegularFile os w target h tr T) as [[w' n] e] eqn:Hr.
  simpl in *. subst e. eapply handleRegularFile_cleanup; eauto.
Qed.

(** The entry whose content would take the running total past the limit:
    the copy stops at the first chunk that does not fit, the file is
    removed, the extraction fails there and the running total stays. *)
Lemma extractArchive_crossing pre tr post fin absDst h w T w1 T1 w2 w3 :
  0 <= T <= MaxTotalSize -> reads_buffered (pre ++ [tr]) ->
  header tr = Some h -> Typeflag h = tar.TypeReg ->
  Size h <= MaxFileSize ->
  isPathSafe os (Path.Join absDst (Name h)) absDst = true ->
  extractArchive os pre None absDst (w, T) = (w1, T1, None) ->
  Os.MkdirAll os w1 (Path.Dir (Path.Join absDst (Name h))) 493 = (w2, None) ->
  Os.OpenFile os w2 (Path.Join absDst (Name h)) (permOr (Mode h) 420) = (w3, None) ->
  T1 + len (concat (chunks tr)) > MaxTotalSize ->
  (exists m,
     w3 !! Path.segs (Path.Join absDst (Name h)) = Some (File m [])
     /\ @ioCopy _ (@trackingWriter_Writer _ (file_Writer os))
          (mkTrackingWriter
             {| Os.fs := w3; Os.key := Path.segs (Path.Join absDst (Name h)) |} T1 0)
          (chunks tr) (rend tr)
        = (mkTrackingWriter
             {| Os.fs := <[Path.segs (Path.Join absDst (Name h))
                           := File m (concat (fitting T1 (chunks tr)))]> w3;
                Os.key := Path.segs (Path.Join absDst (Name h)) |}
             T1 (len (concat (fitting T1 (chunks tr)))),
           len (concat (fitting T1 (chunks tr))), Some ErrTotalSize))
  /\ (length (fitting T1 (chunks tr)) < length (chunks tr))%nat
  /\ extractArchive os (pre ++ tr :: post) fin absDst (w, T)
     = (delete (Path.segs (Path.Join absDst (Name h))) w3, T1,
        Some (ErrExtractFile (Name h) (ErrWriteContent ErrTotalSize))).
Proof.
  intros HT Hb Hh Hreg Hsz Hsafe Hpre Hmk Hop Hover.
  apply Forall_app in Hb as [Hbpre Hbtr]. inversion Hbtr as [|? ? Hbt _]; subst.
  pose proof (extractArchive_total os pre None absDst w T HT Hbpre) as HT1.
  rewrite Hpre in HT1. simpl in HT1.
  pose proof (OpenFile_spec os w2 (Path.Join absDst (Name h)) (permOr (Mode h) 420)) as Ho.
  rewrite Hop in Ho. destruct Ho as (_ & (m & Hm & _) & _).
  pose proof (fitting_short T1 (chunks tr) ltac:(lia) Hover) as Hsh.
  pose proof (ioCopy_file os w3 _ m [] T1 (chunks tr) (rend tr) os_accepting Hm
                ltac:(lia) Hbt) as Hcp.
  rewrite (proj2 (Nat.ltb_lt _ _) Hsh) in Hcp. cbn [app] in Hcp.
  split; [by exists m|]. split; [done|].
  rewrite (extractArchive_app os _ _ _ _ _ _ Hpre). simpl. rewrite Hh.
  rewrite extractEntry_dispatch by done.
  unfold processEntry. rewrite Hreg.
  rewrite bool_decide_eq_false_2, bool_decide_eq_true_2 by done.
  unfold handleRegularFile. rewrite Hmk, Hop, Hcp. cbn [writer Os.fs].
  erewrite Remove_file by apply lookup_insert_eq. cbn [fst].
  by rewrite delete_insert_eq.
Qed.

(** The entry whose content still fits is extracted, and the running
    total grows by its content. *)
Lemma extractArchive_fits pre tr absDst h w T w1 T1 w2 w3 :
  0 <= T <= MaxTotalSize -> reads_buffered (pre ++ [tr]) ->
  header tr = Some h -> Typeflag h = tar.TypeReg ->
  0 <= Size h <= MaxFileSize ->
  isPathSafe os (Path.Join absDst (Name h)) absDst = true ->
  extractArchive os pre None absDst (w, T) = (w1, T1, None) ->
  Os.MkdirAll os w1 (Path.Dir (Path.Join absDst (Name h))) 493 = (w2, None) ->
  Os.OpenFile os w2 (Path.Join absDst (Name h)) (permOr (Mode h) 420) = (w3, None) ->
  T1 + len (concat (chunks tr)) <= MaxTotalSize ->
  rend tr = ReadEOF -> len (concat (chunks tr)) <= 2 * Size h ->
  exists w', extractArchive os (pre ++ [tr]) None absDst (w, T)
             = (w', T1 + len (concat (chunks tr)), None).
Proof.
  intros HT Hb Hh Hreg Hsz Hsafe Hpre Hmk Hop Hfit Hend Hpost.
  apply Forall_app in Hb as [Hbpre Hbtr]. inversion Hbtr as [|? ? Hbt _]; subst.
  pose proof (extractArchive_total os pre None absDst w T HT Hbpre) as HT1.
  rewrite Hpre in HT1. simpl in HT1.
  destruct (handleRegularFile_writes os w1 w2 w3 _ h tr T1 os_accepting Hmk Hop)
    as [w' Hr]; try done; try lia.
  { pose proof MaxFileSize_val. lia. }
  exists w'. rewrite (extractArchive_app os _ _ _ _ _ _ Hpre). simpl. rewrite Hh.
  rewrite extractEntry_dispatch by (done || lia).
  unfold processEntry. rewrite Hreg.
  rewrite bool_decide_eq_false_2, bool_decide_eq_true_2 by done.
  rewrite Hr. unfold add64. rewrite wrap64_small; [done|].
  pose proof (len_nonneg (concat (chunks tr))).
  unfold int64. rewrite MaxTotalSize_val in *. lia.
Qed.

End OverTotal.

(** ** C3: the streaming check of the total limit *)

(** C3: before a chunk goes to the underlying writer the accountant checks
    RunningTotal(prior) + PerFileCounter(prior) + len(chunk) against
    [MaxTotalSize]: a chunk that would cross the limit is refused with the
    total-size error, zero bytes written and the writer untouched; a chunk
    that fits is passed on and the counter advances by what was written.
    Each write keeps RunningTotal + PerFileCounter within the limit. A copy
    into a writer that takes every byte writes exactly the chunks before
    the first one that would cross the limit and fails at that one, not
    before and not after. A regular file whose content would cross the
    limit fails. The running total of the whole extraction never exceeds
    the limit. RunningTotal is the sum of the bytes of the regular files
    extracted so far: after entries that went through without error, the
    total has grown by exactly their content. With a device that takes
    every write, the extraction fails at the entry whose content would
    take that sum past the limit, at the first chunk that does not fit:
    the chunks before it were written, the file is then removed, the
    error is the total-size error and the running total stays; nothing
    after that entry is looked at. An entry whose content still fits is
    extracted and counted. *)
Theorem total_limit_checked_before_each_chunk :
  (forall W (HW : Writer W) (tw : trackingWriter W) p,
     tw_inv tw -> no_overflow p ->
     (currentTotal tw + written tw + len p > MaxTotalSize ->
      trackingWriter_Write tw p = (tw, 0, Some ErrTotalSize))
     /\ (currentTotal tw + written tw + len p <= MaxTotalSize ->
         trackingWriter_Write tw p
         = (mkTrackingWriter (fst (fst (Write (writer tw) p))) (currentTotal tw)
              (add64 (written tw) (snd (fst (Write (writer tw) p)))),
            snd (fst (Write (writer tw) p)), snd (Write (writer tw) p))))
  /\ (forall W (HW : Writer W) (HOk : WriterOk W) (tw : trackingWriter W) p,
        tw_inv tw -> no_overflow p ->
        tw_inv (fst (fst (trackingWriter_Write tw p))))
  /\ (forall (b : Buffer) T chunks fin,
        0 <= T <= MaxTotalSize -> Forall buffered chunks ->
        ioCopy (mkTrackingWriter b T 0) chunks fin
        = (mkTrackingWriter (b ++ concat (fitting T chunks)) T
             (len (concat (fitting T chunks))),
           len (concat (fitting T chunks)),
           if (length (fitting T chunks) <? length chunks)%nat
           then Some ErrTotalSize else endError fin))
  /\ (forall os w w1 w2 target h tr T,
        accepting os -> 0 <= T <= MaxTotalSize -> Forall buffered (chunks tr) ->
        Os.MkdirAll os w (Path.Dir target) 493 = (w1, None) ->
        Os.OpenFile os w1 target (permOr (Mode h) 420) = (w2, None) ->
        T + len (concat (chunks tr)) > MaxTotalSize ->
        snd (handleRegularFile os w target h tr T) = Some (ErrWriteContent ErrTotalSize)
        /\ fst (fst (handleRegularFile os w target h tr T)) !! Path.segs target = None)
  /\ (forall os ents fin absDst w T,
        0 <= T <= MaxTotalSize -> reads_buffered ents ->
        T <= snd (fst (extractArchive os ents fin absDst (w, T))) <= MaxTotalSize)
  /\ (forall os ents absDst w T w' T',
        0 <= T <= MaxTotalSize -> reads_buffered ents ->
        extractArchive os ents None absDst (w, T) = (w', T', None) ->
        T' = T + content_size ents)
  /\ (forall os pre tr post fin absDst h w T w1 T1 w2 w3,
        accepting os -> 0 <= T <= MaxTotalSize -> reads_buffered (pre ++ [tr]) ->
        header tr = Some h -> Typeflag h = tar.TypeReg ->
        Size h <= MaxFileSize ->
        isPathSafe os (Path.Join absDst (Name h)) absDst = true ->
        extractArchive os pre None absDst (w, T) = (w1, T1, None) ->
        Os.MkdirAll os w1 (Path.Dir (Path.Join absDst (Name h))) 493 = (w2, None) ->
        Os.OpenFile os w2 (Path.Join absDst (Name h)) (permOr (Mode h) 420)
        = (w3, None) ->
        T + content_size pre + len (concat (chunks tr)) > MaxTotalSize ->
        T1 = T + content_size pre
        /\ (exists m,
              w3 !! Path.segs (Path.Join absDst (Name h)) = Some (File m [])
              /\ @ioCopy _ (@trackingWriter_Writer _ (file_Writer os))
                   (mkTrackingWriter
                      {| Os.fs := w3;
                         Os.key := Path.segs (Path.Join absDst (Name h)) |} T1 0)
                   (chunks tr) (rend tr)
                 = (mkTrackingWriter
                      {| Os.fs := <[Path.segs (Path.Join absDst (Name h))
                                    := File m (concat (fitting T1 (chunks tr)))]> w3;
                         Os.key := Path.segs (Path.Join absDst (Name h)) |}
                      T1 (len (concat (fitting T1 (chunks tr)))),
                    len (concat (fitting T1 (chunks tr))), Some ErrTotalSize))
        /\ (length (fitting T1 (chunks tr)) < length (chunks tr))%nat
        /\ extractArchive os (pre ++ tr :: post) fin absDst (w, T)
           = (delete (Path.segs (Path.Join absDst (Name h))) w3,
              T + content_size pre,
              Some (ErrExtractFile (Name h) (ErrWriteContent ErrTotalSize))))
  /\ (forall os pre tr absDst h w T w1 T1 w2 w3,
        accepting os -> 0 <= T <= MaxTotalSize -> reads_buffered (pre ++ [tr]) ->
        header tr = Some h -> Typeflag h = tar.TypeReg ->
        0 <= Size h <= MaxFileSize ->
        isPathSafe os (Path.Join absDst (Name h)) absDst = true ->
        extractArchive os pre None absDst (w, T) = (w1, T1, None) ->
        Os.MkdirAll os w1 (Path.Dir (Path.Join absDst (Name h))) 493 = (w2, None) ->
        Os.OpenFile os w2 (Path.Join absDst (Name h)) (permOr (Mode h) 420)
        = (w3, None) ->
        T + content_size pre + len (concat (chunks tr)) <= MaxTotalSize ->
        rend tr = ReadEOF -> len (concat (chunks tr)) <= 2 * Size h ->
        exists w', extractArchive os (pre ++ [tr]) None absDst (w, T)
                   = (w', T + content_size pre + len (concat (chunks tr)), None)).
Proof.
  split; [|split; [|split; [|split; [|split; [|split; [|split]]]]]].
  - intros W HW tw p Hinv Hp. split; intros; [by apply Write_reject|by apply Write_accept].
  - intros W HW HOk tw p Hinv Hp. by apply Write_inv.
  - intros b T chunks fin HT Hb. unfold ioCopy.
    rewrite (copyBuffer_fitting (fun (b : Buffer) p => b ++ p));
      [|unfold tw_inv; simpl; lia|done].
    rewrite Z.add_0_r, !Z.add_0_l. f_equal. f_equal. f_equal.
    generalize (fitting T chunks). intros adm. rewrite <- concat_nonempty.
    generalize (nonempty adm). clear. intros cs. revert b.
    induction cs as [|c cs IH]; intros b; simpl; [by rewrite app_nil_r|].
    by rewrite IH, app_assoc.
  - intros os w w1 w2 target h tr T Hacc. by apply handleRegularFile_over_total.
  - intros os ents fin absDst w T. by apply extractArchive_total.
  - intros os ents absDst w T w' T'. by apply extractArchive_exact.
  - intros os pre tr post fin absDst h w T w1 T1 w2 w3 Hacc HT Hb Hh Hreg Hsz Hsafe
      Hpre Hmk Hop Hover.
    assert (HT1 : T1 = T + content_size pre).
    { apply Forall_app in Hb as [Hbpre _].
      by apply (extractArchive_exact os pre absDst w T w1 T1 HT Hbpre Hpre). }
    split; [done|]. rewrite <- HT1 in *.
    by apply (extractArchive_crossing os Hacc pre tr post fin absDst h w T w1 T1 w2 w3).
  - intros os pre tr absDst h w T w1 T1 w2 w3 Hacc HT Hb Hh Hreg Hsz Hsafe
      Hpre Hmk Hop Hfit Hend Hpost.
    assert (HT1 : T1 = T + content_size pre).
    { apply Forall_app in Hb as [Hbpre _].
      by apply (extractArchive_exact os pre absDst w T w1 T1 HT Hbpre Hpre). }
    rewrite <- HT1 in *.
    by apply (extractArchive_fits os Hacc pre tr absDst h w T w1 T1 w2 w3).
Qed.

Lemma total_limit_checked_before_each_chunk_witness :
  let big := mkEntry (mkHeader "b" tar.TypeReg 4) [bytes "cd"; bytes "ef"] in
  extractArchive os_ok [fileEntry "a" 420 "ab"; big; fileEntry "c" 420 "x"] None
    "/R" ({[ ["R"] := Dir 493 ]}, MaxTotalSize - 5)
  = ({[ ["R"] := Dir 493; ["R"; "a"] := File 420 (bytes "ab") ]},
     MaxTotalSize - 3,
     Some (ErrExtractFile "b" (ErrWriteContent ErrTotalSize))).
Proof.
  intros big.
  pose proof (proj1 (proj2 (proj2 (proj2 (proj2 (proj2 (proj2
                total_limit_checked_before_each_chunk))))))
                os_ok [fileEntry "a" 420 "ab"] big [fileEntry "c" 420 "x"] None "/R"
                (mkHeader "b" tar.TypeReg 4)
                {[ ["R"] := Dir 493 ]} (MaxTotalSize - 5)
                {[ ["R"] := Dir 493; ["R"; "a"] := File 420 (bytes "ab") ]}
                (MaxTotalSize - 3)
                {[ ["R"] := Dir 493; ["R"; "a"] := File 420 (bytes "ab") ]}
                {[ ["R"] := Dir 493; ["R"; "a"] := File 420 (bytes "ab");
                   ["R"; "b"] := File 420 [] ]}) as H.
  destruct H as (_ & _ & _ & H).
  - intros w k p. simpl. lia.
  - vm_compute. split; discriminate.
  - repeat constructor; vm_compute; discriminate.
  - reflexivity.
  - reflexivity.
  - vm_compute. discriminate.
  - vm_compute. reflexivity.
  - vm_compute. reflexivity.
  - vm_compute. reflexivity.
  - vm_compute. reflexivity.
  - vm_compute. reflexivity.
  - etransitivity; [exact H|]. vm_compute. reflexivity.
Defined.

(** The boundary of [validateTotalSize], as the tests of the package have
    it. *)
Example validateTotalSize_boundary :
  validateTotalSize MaxTotalSize 0 = None
  /\ validateTotalSize MaxTotalSize 1 = Some ErrTotalSize
  /\ validateTotalSize (MaxTotalSize - 50) 100 = Some ErrTotalSize
  /\ validateTotalSize (MaxTotalSize - 100) 200 = Some ErrTotalSize.
Proof. repeat split; reflexivity. Qed.

(** ** C5: the per-file counter *)

(** C5: PerFileCounter stays within the per-file limit after every write
    of the content of a regular file. The accountant itself checks the
    total limit only; the bound comes from the two ends of the copy. An
    entry declared larger than [MaxFileSize] is refused by the pre-check
    before anything is written. For an entry that passes, whatever the
    underlying writer does within its contract, after the first [k] reads
    of the content, for every [k], the counter is at most the bytes read
    so far, which [tar.Reader] keeps within the declared size, hence
    within [MaxFileSize]; RunningTotal + PerFileCounter is within
    [MaxTotalSize]; and no further read can take the counter past the
    per-file limit. The counter counts: with a device that takes every
    write, and room under the total limit, it is the number of bytes read
    so far, all of them in the file. Each single write advances the
    counter by at most the chunk. An entry that is extracted has added its
    content, at most its declared size, to the running total. *)
Theorem per_file_counter_bounds :
  (forall os absDst h tr st,
     Size h > MaxFileSize ->
     extractEntry os absDst h tr st = (st, Some (ErrFileTooLarge (Name h))))
  /\ (forall W (HW : Writer W) (HOk : WriterOk W) (w0 : W) h tr T k,
        header tr = Some h -> receivable tr -> Size h <= MaxFileSize ->
        0 <= T <= MaxTotalSize -> Forall buffered (chunks tr) ->
        let tw := fst (fst (ioCopy (mkTrackingWriter w0 T 0)
                              (take k (chunks tr)) (rend tr))) in
        0 <= written tw <= MaxFileSize
        /\ written tw <= len (concat (take k (chunks tr))) <= Size h
        /\ currentTotal tw = T
        /\ currentTotal tw + written tw <= MaxTotalSize
        /\ (forall c, chunks tr !! k = Some c ->
                      written tw + len c <= MaxFileSize))
  /\ (forall os w key m d T chunks fin k,
        accepting os -> w !! key = Some (File m d) ->
        0 <= T -> Forall buffered chunks ->
        T + len (concat (take k chunks)) <= MaxTotalSize ->
        @ioCopy _ (@trackingWriter_Writer _ (file_Writer os))
          (mkTrackingWriter {| Os.fs := w; Os.key := key |} T 0) (take k chunks) fin
        = (mkTrackingWriter
             {| Os.fs := <[key := File m (d ++ concat (take k chunks))]> w;
                Os.key := key |}
             T (len (concat (take k chunks))),
           len (concat (take k chunks)), endError fin))
  /\ (forall W (HW : Writer W) (HOk : WriterOk W) (tw : trackingWriter W) p,
        tw_inv tw -> no_overflow p ->
        currentTotal (fst (fst (trackingWriter_Write tw p)))
          + written (fst (fst (trackingWriter_Write tw p))) <= MaxTotalSize
        /\ written tw <= written (fst (fst (trackingWriter_Write tw p)))
           <= written tw + len p)
  /\ (forall os absDst h tr w T w' T',
        header tr = Some h -> receivable tr -> Typeflag h = tar.TypeReg ->
        0 <= T <= MaxTotalSize -> Forall buffered (chunks tr) ->
        extractEntry os absDst h tr (w, T) = (w', T', None) ->
        T' = T + len (concat (chunks tr))
        /\ 0 <= T' - T <= Size h /\ Size h <= MaxFileSize).
Proof.
  split; [|split; [|split; [|split]]].
  - intros os absDst h tr st Hsz. by apply extractEntry_oversized.
  - intros W HW HOk w0 h tr T k Hh Hrcv Hsz HT Hb tw.
    destruct (Hrcv h Hh) as [Hs0 Hlen].
    pose proof (copyBuffer_inv (take k (chunks tr)) (rend tr)
                  (mkTrackingWriter w0 T 0) 0) as Hinv.
    simpl in Hinv. unfold ioCopy in tw. fold tw in Hinv.
    destruct Hinv as ((_ & _ & Hsum) & Hcur & _ & Hw);
      [unfold tw_inv; simpl; lia | by apply Forall_take | done |].
    pose proof (len_concat_take (chunks tr) k) as Htk.
    split; [lia|]. split; [lia|]. split; [done|]. split; [done|].
    intros c Hc. pose proof (len_concat_next (chunks tr) k c Hc). lia.
  - intros os w key m d T chunks fin k Hacc Hk HT Hb Hfit.
    pose proof (len_nonneg (concat (take k chunks))).
    rewrite (ioCopy_file os w key m d T (take k chunks) fin Hacc Hk)
      by (lia || by apply Forall_take).
    rewrite fitting_all by done. by rewrite Nat.ltb_irrefl.
  - intros W HW HOk tw p Hinv Hp.
    destruct (Write_inv tw p Hinv Hp) as ((_ & _ & Hsum) & _ & Hw & Hn). lia.
  - intros os absDst h tr w T w' T' Hh Hrcv Hreg HT Hb Hstep.
    destruct (Hrcv h Hh) as [Hs0 Hlen].
    pose proof (len_nonneg (concat (chunks tr))).
    pose proof (extractEntry_exact os absDst h tr w T w' T' HT Hb Hh Hstep) as Hx.
    unfold content_of in Hx. rewrite Hh, bool_decide_eq_true_2 in Hx by done.
    split; [done|]. split; [lia|].
    unfold extractEntry in Hstep.
    destruct (Z.gtb_spec (Size h) MaxFileSize); [done|lia].
Qed.

Lemma per_file_counter_bounds_witness :
  let tr := mkEntry (mkHeader "a" tar.TypeReg 4) [bytes "ab"; bytes "cd"] in
  let tw := fst (fst (ioCopy (mkTrackingWriter ([] : Buffer) 10 0)
                        (take 1 (chunks tr)) (rend tr))) in
  written tw = 2 /\ 0 <= written tw <= MaxFileSize
  /\ written tw + len (bytes "cd") <= MaxFileSize.
Proof.
  intros tr tw.
  pose proof (proj1 (proj2 per_file_counter_bounds) Buffer _ _ [] 
                (mkHeader "a" tar.TypeReg 4) tr 10 1%nat) as H.
  destruct H as (Hw & _ & _ & _ & Hnext).
  - reflexivity.
  - intros h Hh. injection Hh as <-. vm_compute. split; discriminate.
  - vm_compute. discriminate.
  - vm_compute. split; discriminate.
  - repeat constructor; vm_compute; discriminate.
  - split; [reflexivity|]. split; [exact Hw|]. by apply Hnext.
Defined.

(** ** C9: the post-check *)

(** C9: when the content copy of a regular file completes and the bytes
    written exceed twice the declared size, [handleRegularFile] unlinks the
    file it wrote and fails with the size anomaly error, which
    [processEntry] passes on. (The declared size is one for which
    [header.Size*2] does not overflow: such are all sizes that pass the
    pre-check and that [tar.Reader] gives to a regular file.) *)
Theorem size_anomaly_fails_and_unlinks os w w1 w2 target h tr T tw' n :
  - 2 ^ 62 <= Size h < 2 ^ 62 ->
  Typeflag h = tar.TypeReg ->
  Os.MkdirAll os w (Path.Dir target) 493 = (w1, None) ->
  Os.OpenFile os w1 target (permOr (Mode h) 420) = (w2, None) ->
  @ioCopy _ (@trackingWriter_Writer _ (file_Writer os))
    (mkTrackingWriter {| Os.fs := w2; Os.key := Path.segs target |} T 0)
    (chunks tr) (rend tr) = (tw', n, None) ->
  n > 2 * Size h ->
  handleRegularFile os w target h tr T
  = (delete (Path.segs target) (Os.fs (writer tw')), 0,
     Some (ErrSizeAnomaly (Name h) n (Size h)))
  /\ delete (Path.segs target) (Os.fs (writer tw')) !! Path.segs target = None
  /\ processEntry os h target tr (w, T)
     = (delete (Path.segs target) (Os.fs (writer tw')), T,
        Some (ErrExtractFile (Name h) (ErrSizeAnomaly (Name h) n (Size h)))).
Proof.
  intros Hsz Hreg Hmk Hop Hcp Hn.
  assert (Hr : handleRegularFile os w target h tr T
               = (delete (Path.segs target) (Os.fs (writer tw')), 0,
                  Some (ErrSizeAnomaly (Name h) n (Size h)))).
  { destruct (handleRegularFile_outcome os w target h tr T)
      as [e0 Hmk' | w1' e0 Hmk' Hop' | w1' w2' tw'' n' err Hmk' Hop' Hcp' Hrel Hfile].
    - congruence.
    - rewrite Hmk in Hmk'. injection Hmk' as <-. congruence.
    - rewrite Hmk in Hmk'. injection Hmk' as <-.
      rewrite Hop in Hop'. injection Hop' as <-.
      rewrite Hcp in Hcp'. injection Hcp' as <- <- <-.
      rewrite mul64_double by done.
      destruct (Z.gtb_spec n (2 * Size h)); [done|lia]. }
  split; [done|]. split; [apply lookup_delete_eq|].
  unfold processEntry. rewrite Hreg.
  rewrite bool_decide_eq_false_2, bool_decide_eq_true_2 by done.
  by rewrite Hr.
Qed.

Lemma size_anomaly_fails_and_unlinks_witness :
  let h := mkHeader "a.txt" tar.TypeReg 1 in
  handleRegularFile os_ok ∅ "/R/a.txt" h (mkEntry h [bytes "abc"]) 0
  = ({[ ["R"] := Dir 493 ]}, 0, Some (ErrSizeAnomaly "a.txt" 3 1)).
Proof.
  refine (eq_trans
            (proj1 (size_anomaly_fails_and_unlinks os_ok ∅ {[ ["R"] := Dir 493 ]}
                      {[ ["R"] := Dir 493; ["R"; "a.txt"] := File 420 [] ]}
                      "/R/a.txt" (mkHeader "a.txt" tar.TypeReg 1)
                      (mkEntry (mkHeader "a.txt" tar.TypeReg 1) [bytes "abc"]) 0
                      (mkTrackingWriter
                         {| Os.fs := {[ ["R"] := Dir 493;
                                        ["R"; "a.txt"] := File 420 (bytes "abc") ]};
                            Os.key := ["R"; "a.txt"] |} 0 3)
                      3 _ eq_refl _ _ _ _)) _);
    [split; [vm_compute; discriminate | reflexivity]
    | vm_compute; reflexivity
    | vm_compute; reflexivity
    | vm_compute; reflexivity
    | vm_compute; reflexivity
    | vm_compute; reflexivity].
Defined.

(** ** C7: directory entries *)

Lemma permOr_bits (mode dflt : Z) :
  permOr mode dflt = if mode mod 512 =? 0 then dflt else mode mod 512.
Proof.
  unfold permOr, uint32, Os.ModePerm.
  change 511 with (Z.ones 9). rewrite Z.land_ones by lia.
  rewrite (Z.mod_mod_divide mode (2 ^ 32) (2 ^ 9)); [done|].
  exists (2 ^ 23). reflexivity.
Qed.






Example directory_twice :
  let ar := [dirEntry "d/" 0; dirEntry "d/" 448] in
  extractArchive os_ok ar None "/R" (∅, 0)
  = ({[ ["R"] := Dir 493; ["R"; "d"] := Dir 493 ]}, 0, None).
Proof. vm_compute. reflexivity. Qed.

(** ** C6: failure of an entry *)

Lemma handleDirectory_mono (os : OS) (w : FS) target h p x :
  w !! p = Some x -> fst (handleDirectory os w target h) !! p = Some x.
Proof.
  intros Hx. unfold handleDirectory.
  destruct (Os.Stat w target) as [[m|m d]|]; [done..|].
  unfold Os.MkdirAll.
  pose proof (mkdirAll_spec os (permOr (Mode h) 493) (rev (Path.segs target)) w) as Hs.
  destruct (Os.mkdirAll os w _ _) as [w' [e|]]; simpl.
  - destruct Hs as [-> _]. done.
  - destruct Hs as (_ & Hmono & _). by apply Hmono.
Qed.

Section Failure.

Variable os : OS.

(** What one turn of the loop can do to the objects that exist: nothing,
    except at the target of its entry. *)
Lemma extractEntry_frame absDst h tr w T p x :
  p <> Path.segs (Path.Join absDst (Name h)) -> w !! p = Some x ->
  fst (fst (extractEntry os absDst h tr (w, T))) !! p = Some x.
Proof.
  intros Hp Hx. unfold extractEntry.
  destruct (Size h >? MaxFileSize); [done|].
  destruct (negb _); [done|]. unfold processEntry.
  case_bool_decide.
  { pose proof (handleDirectory_mono os w (Path.Join absDst (Name h)) h p x Hx) as Hd.
    by destruct (handleDirectory os w _ h) as [w' [e|]]. }
  case_bool_decide.
  { pose proof (handleRegularFile_frame os w (Path.Join absDst (Name h)) h tr T p x Hp Hx) as Hf.
    by destruct (handleRegularFile os w _ h tr T) as [[w' n] [e|]]. }
  by destruct (_ || _).
Qed.

(** A failing turn leaves the running total alone; when the failure is
    one of the gates or a link, it leaves the file system alone; when it is
    a failed copy or a size anomaly, nothing is left at the target. *)
Lemma extractEntry_failure absDst h tr w T w' T' e :
  extractEntry os absDst h tr (w, T) = (w', T', Some e) ->
  T' = T
  /\ (e = ErrFileTooLarge (Name h) \/ e = ErrUnsafePath (Name h)
      \/ e = ErrLinkNotAllowed (Name h) -> w' = w)
  /\ ((exists c, e = ErrExtractFile (Name h) (ErrWriteContent c))
      \/ (exists n s, e = ErrExtractFile (Name h) (ErrSizeAnomaly (Name h) n s)) ->
      w' !! Path.segs (Path.Join absDst (Name h)) = None).
Proof.
  unfold extractEntry.
  destruct (Size h >? MaxFileSize).
  { intros [= <- <- <-]. split; [done|]. split; [done|].
    by intros [[? ?]|(? & ? & ?)]. }
  destruct (negb _).
  { intros [= <- <- <-]. split; [done|]. split; [done|].
    by intros [[? ?]|(? & ? & ?)]. }
  unfold processEntry. case_bool_decide.
  { destruct (handleDirectory os w _ h) as [w1 [e1|]]; [|done].
    intros [= <- <- <-]. split; [done|].
    split; [by intros [?|[?|?]]|]. by intros [[? ?]|(? & ? & ?)]. }
  case_bool_decide.
  { destruct (handleRegularFile os w _ h tr T) as [[w1 n] [e1|]] eqn:Hr; [|done].
    intros [= <- <- <-]. split; [done|].
    split; [by intros [?|[?|?]]|].
    intros He. eapply handleRegularFile_cleanup; [done|].
    destruct He as [[c [= ->]]|(n' & s & [= ->])]; eauto. }
  destruct (_ || _); [|done].
  intros [= <- <- <-]. split; [done|]. split; [done|].
  by intros [[? ?]|(? & ? & ?)].
Qed.

End Failure.

(** C6, as stated, fails: an entry with the path of an earlier, completed
    file truncates that file when it opens it and unlinks it when its own
    copy fails (here on a broken content stream): the earlier entry is not
    left unchanged. *)
Lemma failed_entry_removes_earlier_file :
  let again := {| header := Some (mkHeader "a.txt" tar.TypeReg 2);
                  chunks := [bytes "h"]; rend := ReadFail |} in
  extractArchive os_ok [fileEntry "a.txt" 420 "hi"] None "/R" (∅, 0)
  = ({[ ["R"] := Dir 493; ["R"; "a.txt"] := File 420 (bytes "hi") ]}, 2, None)
  /\ extractArchive os_ok [fileEntry "a.txt" 420 "hi"; again] None "/R" (∅, 0)
     = ({[ ["R"] := Dir 493 ]}, 2,
        Some (ErrExtractFile "a.txt" (ErrWriteContent ErrUnexpectedEOF))).
Proof. split; vm_compute; reflexivity. Qed.

(** C6 (amended): when the turn of the loop for an entry fails, the
    extraction returns that error with the state that turn left, whatever
    follows in the archive: no further entry is processed. The running total
    is the one before the entry. A failure of a gate or of a link entry
    leaves the file system as it was; a failed content copy or a size
    anomaly leaves nothing at the target of the entry. Every object that
    existed before the entry at a path other than its target is unchanged;
    there is no rollback of what earlier entries made. *)
Theorem failing_entry_aborts_and_cleans os absDst pre tr post fin st w1 T1 h w2 T2 e :
  extractArchive os pre None absDst st = (w1, T1, None) ->
  header tr = Some h ->
  extractEntry os absDst h tr (w1, T1) = (w2, T2, Some e) ->
  extractArchive os (pre ++ tr :: post) fin absDst st = (w2, T2, Some e)
  /\ T2 = T1
  /\ (e = ErrFileTooLarge (Name h) \/ e = ErrUnsafePath (Name h)
      \/ e = ErrLinkNotAllowed (Name h) -> w2 = w1)
  /\ ((exists c, e = ErrExtractFile (Name h) (ErrWriteContent c))
      \/ (exists n s, e = ErrExtractFile (Name h) (ErrSizeAnomaly (Name h) n s)) ->
      w2 !! Path.segs (Path.Join absDst (Name h)) = None)
  /\ (forall p x, p <> Path.segs (Path.Join absDst (Name h)) ->
                  w1 !! p = Some x -> w2 !! p = Some x).
Proof.
  intros Hpre Hh He.
  split; [by eapply extractArchive_reach_stop|].
  destruct (extractEntry_failure os absDst h tr w1 T1 w2 T2 e He) as (HT & Hg & Hc).
  split; [done|]. split; [done|]. split; [done|].
  intros p x Hp Hx.
  pose proof (extractEntry_frame os absDst h tr w1 T1 p x Hp Hx) as Hf.
  by rewrite He in Hf.
Qed.

Lemma failing_entry_aborts_and_cleans_witness :
  let broken := {| header := Some (mkHeader "b.txt" tar.TypeReg 5);
                   chunks := [bytes "he"; bytes "llo"]; rend := ReadEOF |} in
  extractArchive os_full ([dirEntry "d" 493] ++ broken :: [fileEntry "c" 420 "x"])
    None "/R" (∅, 0)
  = ({[ ["R"] := Dir 493; ["R"; "d"] := Dir 493 ]}, 0,
     Some (ErrExtractFile "b.txt" (ErrWriteContent ENOSPC))).
Proof.
  refine (proj1 (failing_entry_aborts_and_cleans os_full "/R" [dirEntry "d" 493]
                   {| header := Some (mkHeader "b.txt" tar.TypeReg 5);
                      chunks := [bytes "he"; bytes "llo"]; rend := ReadEOF |}
                   [fileEntry "c" 420 "x"] None (∅, 0)
                   {[ ["R"] := Dir 493; ["R"; "d"] := Dir 493 ]} 0
                   (mkHeader "b.txt" tar.TypeReg 5) _ _ _ _ eq_refl _));
    vm_compute; reflexivity.
Defined.

(** ** C8: round trip *)


Lemma prefix_removelast (p k : list string) :
  k <> [] -> p `prefix_of` removelast k -> p `prefix_of` k /\ p <> k.
Proof.
  destruct k as [|c k _] using rev_ind; [done|]. intros _.
  rewrite removelast_last. intros Hp. split; [by apply prefix_snoc_r|].
  intros ->. by apply snoc_not_prefix in Hp.
Qed.


Lemma Abs_canonical os s r :
  abs_cwd os -> Path.Abs (cwd os) s = Some r ->
  exists rs, Path.canon rs /\ r = Path.abs_path rs.
Proof.
  intros Hcwd. unfold Path.Abs. destruct (Path.IsAbs s) eqn:Hs.
  - intros [= <-]. destruct (PathFacts.Clean_abs s Hs) as [-> Hc]. eauto.
  - destruct (cwd os) as [d|] eqn:Hd; [|done]. intros [= <-].
    destruct (PathFacts.Join_abs d s (Hcwd d Hd)) as (cs & Hc & ->). eauto.
Qed.

Section SafeTargets.

Variable os : OS.

(** A target that passes the path check is the root or lies under it,
    component by component. *)
Lemma safe_target rs name :
  Path.canon rs ->
  isPathSafe os (Path.Join (Path.abs_path rs) name) (Path.abs_path rs) = true ->
  exists cs, Path.canon cs
             /\ Path.Join (Path.abs_path rs) name = Path.abs_path cs
             /\ rs `prefix_of` cs.
Proof.
  intros Hrs. destruct (PathFacts.Join_abs (Path.abs_path rs) name eq_refl)
    as (cs & Hcs & ->).
  unfold isPathSafe, Path.Abs. change (Path.IsAbs (Path.abs_path cs)) with true.
  cbv iota. rewrite PathFacts.Clean_abs_path by done.
  intros H. exists cs. split; [done|]. split; [done|].
  apply orb_true_iff in H as [H|H].
  - by destruct (PathFacts.HasPrefix_under cs rs Hcs Hrs H).
  - apply bool_decide_eq_true in H. apply (f_equal Path.segs) in H.
    rewrite !PathFacts.segs_abs_path in H by done. by subst.
Qed.

End SafeTargets.











Section RoundTrip.

Variable os : OS.
Hypothesis os_accepting : accepting os.
Variable rs : list string.
Hypothesis rs_canon : Path.canon rs.

#[local] Abbreviation root := (Path.abs_path rs).







End RoundTrip.




(** * Further properties of the extractor *)

(** ** How the stream ends *)

(** X1: a stream that breaks after its entries changes the verdict only.
    The entries are processed as with a clean end and leave the same file
    system and running total; the error of a failing entry comes first, and
    otherwise the result is the read-header error. Nothing is rolled
    back. *)
Theorem read_error_keeps_earlier_entries (os : OS) (ents : list Entry) (e : error)
    (absDst : string) (st : FS * Z) :
  extractArchive os ents (Some e) absDst st
  = match extractArchive os ents None absDst st with
    | (st', None) => (st', Some (ErrReadHeader e))
    | (st', Some e') => (st', Some e')
    end.
Proof.
  revert st. induction ents as [|tr ents IH]; intros st; simpl; [done|].
  destruct (header tr) as [h|]; [|apply IH].
  destruct (extractEntry os absDst h tr st) as [st1 [e1|]]; [done|apply IH].
Qed.

(** ** Entries that are passed over *)

Lemma extractEntry_inert (os : OS) absDst h tr st :
  supported (Typeflag h) = false -> Size h <= MaxFileSize ->
  isPathSafe os (Path.Join absDst (Name h)) absDst = true ->
  extractEntry os absDst h tr st = (st, None).
Proof.
  intros Hs Hsz Hp. rewrite extractEntry_dispatch by done.
  unfold supported in Hs. apply orb_false_iff in Hs as [Hs Hl].
  apply orb_false_iff in Hs as [Hs Hsl]. apply orb_false_iff in Hs as [Hd Hr].
  unfold processEntry. destruct st as [w T]. by rewrite Hd, Hr, Hsl, Hl.
Qed.

(** X2: entries with a nil header, and entries of a type that
    [processEntry] has no case for (fifo, device, ...) that pass the size
    pre-check and the path check, have no effect: the archive without them
    gives the same file system, running total and verdict. *)
Theorem unsupported_entries_are_inert (os : OS) (ents : list Entry)
    (fin : option error) (absDst : string) (st : FS * Z) :
  (forall tr h, tr ∈ ents -> header tr = Some h ->
                supported (Typeflag h) = false ->
                Size h <= MaxFileSize
                /\ isPathSafe os (Path.Join absDst (Name h)) absDst = true) ->
  extractArchive os (List.filter (fun tr => negb (inert tr)) ents) fin absDst st
  = extractArchive os ents fin absDst st.
Proof.
  revert st. induction ents as [|tr ents IH]; intros st Hg; [done|].
  assert (Hg' : forall tr0 h, tr0 ∈ ents -> header tr0 = Some h ->
                  supported (Typeflag h) = false ->
                  Size h <= MaxFileSize
                  /\ isPathSafe os (Path.Join absDst (Name h)) absDst = true).
  { intros tr0 h Hin. apply Hg. by right. }
  cbn [List.filter]. unfold inert at 1.
  destruct (header tr) as [h|] eqn:Hh; cbn [negb].
  - destruct (supported (Typeflag h)) eqn:Hs; cbn [negb].
    + cbn [extractArchive]. rewrite Hh.
      destruct (extractEntry os absDst h tr st) as [st1 [e1|]]; [done|].
      by apply IH.
    + cbn [extractArchive]. rewrite Hh.
      destruct (Hg tr h (list_elem_of_here _ _) Hh Hs) as [Hsz Hp].
      rewrite (extractEntry_inert os absDst h tr st Hs Hsz Hp). by apply IH.
  - cbn [extractArchive]. rewrite Hh. by apply IH.
Qed.

Lemma unsupported_entries_are_inert_witness :
  let fifo := mkEntry (mkHeader "pipe" "6"%char 0) [] in
  let nilh := {| header := None; chunks := []; rend := ReadEOF |} in
  extractArchive os_ok
    (List.filter (fun tr => negb (inert tr))
       [fifo; fileEntry "a" 420 "x"; nilh]) None "/R" (∅, 0)
  = extractArchive os_ok [fifo; fileEntry "a" 420 "x"; nilh] None "/R" (∅, 0).
Proof.
  apply (unsupported_entries_are_inert os_ok
           [mkEntry (mkHeader "pipe" "6"%char 0) []; fileEntry "a" 420 "x";
            {| header := None; chunks := []; rend := ReadEOF |}] None "/R" (∅, 0)).
  intros tr h Hin Hh Hs.
  apply elem_of_cons in Hin as [-> | Hin].
  - simpl in Hh. injection Hh as <-. split; [vm_compute; discriminate|reflexivity].
  - apply elem_of_cons in Hin as [-> | Hin].
    + simpl in Hh. injection Hh as <-. discriminate Hs.
    + apply list_elem_of_singleton in Hin as ->. discriminate Hh.
Defined.

(** ** Directories are left alone *)

Section KeepsDirectories.

Variable os : OS.

Lemma handleRegularFile_keeps_dir (w : FS) target h tr T p m :
  w !! p = Some (Dir m) ->
  fst (fst (handleRegularFile os w target h tr T)) !! p = Some (Dir m).
Proof.
  intros Hp. destruct (decide (p = Path.segs target)) as [->|Hne];
    [|by apply handleRegularFile_frame].
  pose proof (mkdirAll_spec os 493 (rev (Path.segs (Path.Dir target))) w) as Hs.
  fold (Os.MkdirAll os w (Path.Dir target) 493) in Hs.
  destruct (handleRegularFile_outcome os w target h tr T)
    as [e Hmk | w1 e Hmk Hop | w1 w2 tw' n err Hmk Hop Hcp Hrel Hfile]; simpl.
  - done.
  - rewrite Hmk in Hs. destruct Hs as (_ & Hmono & _). by apply Hmono.
  - exfalso. rewrite Hmk in Hs. destruct Hs as (_ & Hmono & _).
    pose proof (OpenFile_spec os w1 target (permOr (Mode h) 420)) as Ho.
    rewrite Hop in Ho. destruct Ho as (Hk & _ & Hnd & _).
    rewrite lookup_ne, (Hmono _ _ Hp) in Hnd by done. done.
Qed.

Lemma extractEntry_keeps_dir (absDst : string) (h : Header) (tr : Entry) (w : FS)
    (T : Z) (p : list string) (m : Z) :
  w !! p = Some (Dir m) ->
  fst (fst (extractEntry os absDst h tr (w, T))) !! p = Some (Dir m).
Proof.
  intros Hp. unfold extractEntry.
  destruct (Size h >? MaxFileSize); [done|].
  destruct (negb _); [done|]. unfold processEntry.
  case_bool_decide.
  { pose proof (handleDirectory_mono os w (Path.Join absDst (Name h)) h p _ Hp) as Hd.
    by destruct (handleDirectory os w _ h) as [w' [e|]]. }
  case_bool_decide.
  { pose proof (handleRegularFile_keeps_dir w (Path.Join absDst (Name h)) h tr T p m Hp) as Hf.
    by destruct (handleRegularFile os w _ h tr T) as [[w' n] [e|]]. }
  by destruct (_ || _).
Qed.

End KeepsDirectories.

(** X3: whatever the archive, an extraction never removes, replaces or
    changes the mode of a directory that exists: a directory of the file
    system before the call is the same directory after it, also when the
    call fails. *)
Theorem directories_are_never_touched (os : OS) (ents : list Entry)
    (fin : option error) (absDst : string) (w : FS) (T : Z) (p : list string) (m : Z) :
  w !! p = Some (Dir m) ->
  fst (fst (extractArchive os ents fin absDst (w, T))) !! p = Some (Dir m).
Proof.
  revert w T. induction ents as [|tr ents IH]; intros w T Hp; simpl.
  - by destruct fin.
  - destruct (header tr) as [h|]; [|by apply IH].
    pose proof (extractEntry_keeps_dir os absDst h tr w T p m Hp) as Hk.
    destruct (extractEntry os absDst h tr (w, T)) as [[w1 T1] [e|]]; [done|].
    by apply IH.
Qed.

Lemma directories_are_never_touched_witness :
  fst (fst (extractArchive os_ok [fileEntry "d" 384 "x"; dirEntry "d/e" 448]
              None "/R" ({[ ["R"] := Dir 448; ["R"; "d"] := Dir 320 ]}, 0)))
    !! ["R"; "d"] = Some (Dir 320).
Proof.
  apply (directories_are_never_touched os_ok
           [fileEntry "d" 384 "x"; dirEntry "d/e" 448] None "/R"
           {[ ["R"] := Dir 448; ["R"; "d"] := Dir 320 ]} 0 ["R"; "d"] 320).
  vm_compute. reflexivity.
Defined.

(** ** Nothing is written off the root *)

Lemma contained_refl (rs : list string) (w : FS) : contained rs w w.
Proof. intros p. by left. Qed.

Lemma contained_trans (rs : list string) (w w1 w2 : FS) :
  contained rs w w1 -> contained rs w1 w2 -> contained rs w w2.
Proof.
  intros H1 H2 p. destruct (H2 p) as [E2|[?|(Hp & Hn & Hd)]]; [|by right; left|].
  - rewrite E2. destruct (H1 p) as [E1|[?|(Hp & Hn & Hd)]]; auto.
  - destruct (H1 p) as [E1|[?|(Hp' & Hn' & Hd')]]; [|by right; left|].
    + right. right. by rewrite <- E1.
    + by rewrite Hn in Hd'.
Qed.

(** [MkdirAll] on a path each of whose prefixes is under the root or above
    it stays within the reach of the root. *)
Lemma MkdirAll_contained (os : OS) (rs : list string) (w : FS) path perm :
  (forall p, p `prefix_of` Path.segs path -> rs `prefix_of` p \/ p `prefix_of` rs) ->
  contained rs w (fst (Os.MkdirAll os w path perm)).
Proof.
  intros Hcmp p. unfold Os.MkdirAll.
  pose proof (mkdirAll_spec os perm (rev (Path.segs path)) w) as Hs.
  rewrite rev_involutive in Hs.
  destruct (Os.mkdirAll os w (rev (Path.segs path)) perm) as [w' [e|]]; simpl.
  - destruct Hs as [-> _]. by left.
  - destruct Hs as (_ & Hmono & Hnew).
    destruct (w !! p) as [n|] eqn:E; [left; by apply Hmono|].
    destruct (w' !! p) as [n|] eqn:E'; [|by left].
    destruct (Hnew _ _ E E') as [-> Hp].
    destruct (Hcmp p Hp); [by right; left|]. by right; right.
Qed.

Lemma under_root_comparable (rs cs p : list string) :
  rs `prefix_of` cs -> p `prefix_of` cs -> rs `prefix_of` p \/ p `prefix_of` rs.
Proof. intros H1 H2. by apply (prefix_weak_total rs p cs). Qed.

Section Containment.

Variable os : OS.

(** What [handleRegularFile] leaves at a path other than its target is what
    making the parent directory left there. *)
Lemma handleRegularFile_elsewhere (w : FS) target h tr T p :
  p <> Path.segs target ->
  fst (fst (handleRegularFile os w target h tr T)) !! p
  = fst (Os.MkdirAll os w (Path.Dir target) 493) !! p.
Proof.
  intros Hp. destruct (handleRegularFile_outcome os w target h tr T)
    as [e Hmk | w1 e Hmk Hop | w1 w2 tw' n err Hmk Hop Hcp Hrel Hfile];
    rewrite Hmk; simpl; [done..|].
  pose proof (OpenFile_spec os w1 target (permOr (Mode h) 420)) as Ho.
  rewrite Hop in Ho. destruct Ho as (_ & _ & _ & _ & Hfr).
  destruct Hrel as (_ & Hel & _). simpl in Hel.
  assert (Os.fs (writer tw') !! p = w1 !! p) as Hfin by (by rewrite Hel, Hfr).
  destruct err as [e|]; simpl; [by rewrite lookup_delete_ne|].
  destruct (n >? mul64 (Size h) 2); simpl; [by rewrite lookup_delete_ne|done].
Qed.

Variable rs : list string.
Hypothesis rs_canon : Path.canon rs.

Lemma extractEntry_contained (h : Header) (tr : Entry) (w : FS) (T : Z) :
  contained rs w (fst (fst (extractEntry os (Path.abs_path rs) h tr (w, T)))).
Proof.
  unfold extractEntry.
  destruct (Size h >? MaxFileSize); [apply contained_refl|].
  destruct (isPathSafe os _ _) eqn:Hsafe; simpl negb; cbv iota;
    [|apply contained_refl].
  destruct (safe_target os rs (Name h) rs_canon Hsafe) as (cs & Hcs & Ht & Hpre).
  rewrite Ht. unfold processEntry.
  case_bool_decide.
  { assert (contained rs w (fst (handleDirectory os w (Path.abs_path cs) h))) as Hc.
    { unfold handleDirectory. destruct (Os.Stat w (Path.abs_path cs)) as [[?|? ?]|];
        try apply contained_refl.
      apply MkdirAll_contained. rewrite PathFacts.segs_abs_path by done.
      intros p. by apply under_root_comparable. }
    by destruct (handleDirectory os w _ h) as [w' [e|]]. }
  case_bool_decide.
  { assert (contained rs w (fst (fst (handleRegularFile os w (Path.abs_path cs) h tr T))))
      as Hc.
    { assert (contained rs w (fst (Os.MkdirAll os w (Path.Dir (Path.abs_path cs)) 493)))
        as Hmk.
      { destruct (decide (cs = [])) as [->|Hne].
        - intros p. right. left. destruct Hpre as [r Hr]. symmetry in Hr.
          apply app_eq_nil in Hr as [-> _]. apply prefix_nil.
        - apply MkdirAll_contained. rewrite PathFacts.Dir_abs_path by done.
          rewrite PathFacts.segs_abs_path by (by apply PathFacts.canon_removelast).
          intros p Hp. apply (under_root_comparable rs cs p); [done|].
          by destruct (prefix_removelast p cs Hne Hp). }
      intros p. destruct (decide (p = cs)) as [->|Hpc]; [by right; left|].
      rewrite handleRegularFile_elsewhere
        by (by rewrite PathFacts.segs_abs_path).
      apply Hmk. }
    by destruct (handleRegularFile os w _ h tr T) as [[w' n] [e|]]. }
  destruct (_ || _); apply contained_refl.
Qed.

Lemma extractArchive_contained (ents : list Entry) (fin : option error) :
  forall (w : FS) (T : Z),
    contained rs w (fst (fst (extractArchive os ents fin (Path.abs_path rs) (w, T)))).
Proof.
  induction ents as [|tr ents IH]; intros w T; simpl.
  - destruct fin; apply contained_refl.
  - destruct (header tr) as [h|]; [|apply IH].
    pose proof (extractEntry_contained h tr w T) as Hstep.
    destruct (extractEntry os (Path.abs_path rs) h tr (w, T)) as [[w1 T1] [e|]];
      [done|].
    eapply contained_trans; [done|apply IH].
Qed.

End Containment.

(** X4: whatever the input, [UntarGz] changes nothing off the destination
    root: after the call each path of the file system holds what it held
    before, or lies under the resolved root, or is a directory that was
    missing on the way down to the root and has been made. This holds also
    for archives with [..] names, links or broken streams, and when the call
    fails. *)
Theorem UntarGz_changes_nothing_off_the_root (os : OS) (dst : string) (r : Input)
    (w : FS) (root : string) :
  abs_cwd os ->
  Path.Abs (cwd os) dst = Some root ->
  contained (Path.segs root) w (fst (UntarGz os dst r w)).
Proof.
  intros Hcwd Habs.
  destruct (Abs_canonical os dst root Hcwd Habs) as (rs & Hrs & ->).
  rewrite PathFacts.segs_abs_path by done.
  unfold UntarGz. rewrite Habs. destruct r as [|a]; [apply contained_refl|].
  pose proof (extractArchive_contained os rs Hrs (entries a) (last a) w 0) as Hc.
  by destruct (extractArchive os (entries a) (last a) (Path.abs_path rs) (w, 0))
    as [[w' T'] e].
Qed.

Lemma UntarGz_changes_nothing_off_the_root_witness :
  contained (Path.segs "/srv/pub") {[ ["etc"] := Dir 493 ]}
    (fst (UntarGz os_ok "/srv/pub"
            (Gzip {| entries := [fileEntry "a/b" 420 "x";
                                 fileEntry "../../etc/passwd" 420 "evil"];
                     last := None |})
            {[ ["etc"] := Dir 493 ]})).
Proof.
  apply (UntarGz_changes_nothing_off_the_root os_ok "/srv/pub" _ _ "/srv/pub").
  - intros d [= <-]. reflexivity.
  - reflexivity.
Defined.

(** ** The path check, component by component *)

Lemma append_assoc (a b c : string) : (a +:+ b) +:+ c = a +:+ (b +:+ c).
Proof.
  induction a as [|x a IH]; [done|].
  rewrite !PathFacts.append_cons. by rewrite IH.
Qed.

Lemma HasPrefix_append (p r : string) : Path.HasPrefix (p +:+ r) p = true.
Proof.
  induction p as [|c p IH]; [by destruct r|]. rewrite PathFacts.append_cons.
  cbn [Path.HasPrefix]. by rewrite Ascii.eqb_refl, IH.
Qed.

Lemma join_app (rs : list string) x xs :
  rs <> [] ->
  Path.join (rs ++ x :: xs) = Path.join rs +:+ String Path.sep (Path.join (x :: xs)).
Proof.
  induction rs as [|r rs IH]; [done|]. intros _.
  destruct rs as [|r' rs].
  - reflexivity.
  - change (Path.join ((r :: r' :: rs) ++ x :: xs))
      with (r +:+ String Path.sep (Path.join ((r' :: rs) ++ x :: xs))).
    rewrite IH by done.
    change (Path.join (r :: r' :: rs))
      with (r +:+ String Path.sep (Path.join (r' :: rs))).
    rewrite append_assoc. by rewrite PathFacts.append_cons.
Qed.

Lemma slash_free_head a s : Path.slash_free (String a s) -> Path.is_sep a = false.
Proof.
  unfold Path.slash_free. simpl. destruct (Path.is_sep a); [|done].
  intros H. by injection H.
Qed.

(** Under the root [/] the prefix of the check is [//]: no cleaned path
    has it. *)
Lemma HasPrefix_slash_slash (cs : list string) :
  Path.canon cs ->
  Path.HasPrefix (Path.abs_path cs) (Path.abs_path [] +:+ String Path.sep EmptyString)
  = false.
Proof.
  intros Hcs. change (Path.abs_path [] +:+ String Path.sep EmptyString)
    with (String Path.sep (String Path.sep EmptyString)).
  unfold Path.abs_path. simpl. destruct cs as [|c cs]; [done|].
  inversion Hcs as [|? ? (Hne & _ & _ & Hsf) _]; subst.
  destruct c as [|a c]; [done|]. apply slash_free_head in Hsf.
  assert (Hj : exists t, Path.join (String a c :: cs) = String a t).
  { destruct cs; simpl; eauto. }
  destruct Hj as [t ->]. unfold Path.is_sep in Hsf.
  cbn [Path.HasPrefix]. rewrite Ascii.eqb_sym, Hsf. done.
Qed.

Lemma isPathSafe_iff (os : OS) (rs : list string) (name : string) :
  Path.canon rs ->
  isPathSafe os (Path.Join (Path.abs_path rs) name) (Path.abs_path rs) = true
  <-> (Path.segs (Path.Join (Path.abs_path rs) name) = rs
       \/ (rs <> []
           /\ rs `prefix_of` Path.segs (Path.Join (Path.abs_path rs) name))).
Proof.
  intros Hrs.
  destruct (PathFacts.Join_abs (Path.abs_path rs) name eq_refl) as (cs & Hcs & ->).
  rewrite PathFacts.segs_abs_path by done.
  unfold isPathSafe, Path.Abs. change (Path.IsAbs (Path.abs_path cs)) with true.
  cbv iota. rewrite PathFacts.Clean_abs_path by done. split.
  - intros H. apply orb_true_iff in H as [H|H].
    + right. destruct (decide (rs = [])) as [->|Hne].
      * by rewrite HasPrefix_slash_slash in H.
      * split; [done|]. by destruct (PathFacts.HasPrefix_under cs rs Hcs Hrs H).
    + left. apply bool_decide_eq_true in H. apply (f_equal Path.segs) in H.
      by rewrite !PathFacts.segs_abs_path in H.
  - intros [->|[Hne [k ->]]]; apply orb_true_iff.
    + right. by apply bool_decide_eq_true.
    + destruct k as [|x xs].
      * right. apply bool_decide_eq_true. by rewrite app_nil_r.
      * left. unfold Path.abs_path. rewrite join_app by done.
        rewrite <- PathFacts.append_cons.
        change (String Path.sep (Path.join rs) +:+ String Path.sep EmptyString)
          with (String Path.sep (Path.join rs) +:+ String Path.sep EmptyString).
        replace (String Path.sep (Path.join rs) +:+ String Path.sep (Path.join (x :: xs)))
          with ((String Path.sep (Path.join rs) +:+ String Path.sep EmptyString)
                +:+ Path.join (x :: xs))
          by (by rewrite append_assoc).
        apply HasPrefix_append.
Qed.

(** X5: for a cleaned absolute root, [isPathSafe] accepts the joined
    target of a name exactly when the components of the target are those of
    the root, or the root is not [/] and its components are a prefix of those
    of the target. So a root that is a string prefix of a sibling ([/foo],
    [/foobar]) does not accept it; and with the root [/] every entry whose
    target is not [/] itself is refused. *)
Theorem isPathSafe_on_components (os : OS) (rs : list string) (name : string) :
  Path.canon rs ->
  (isPathSafe os (Path.Join (Path.abs_path rs) name) (Path.abs_path rs) = true
   <-> (Path.segs (Path.Join (Path.abs_path rs) name) = rs
        \/ (rs <> []
            /\ rs `prefix_of` Path.segs (Path.Join (Path.abs_path rs) name))))
  /\ (rs = [] -> Path.segs (Path.Join (Path.abs_path rs) name) <> [] ->
      isPathSafe os (Path.Join (Path.abs_path rs) name) (Path.abs_path rs) = false).
Proof.
  intros Hrs. split; [by apply isPathSafe_iff|].
  intros -> Hne.
  destruct (isPathSafe os (Path.Join (Path.abs_path []) name) (Path.abs_path []))
    eqn:E; [|done].
  apply (isPathSafe_iff os [] name Hrs) in E as [E|[E _]]; done.
Qed.

Lemma isPathSafe_on_components_witness :
  isPathSafe os_ok (Path.Join "/" "etc/passwd") "/" = false.
Proof.
  refine (proj2 (isPathSafe_on_components os_ok [] "etc/passwd" _) eq_refl _).
  - constructor.
  - vm_compute. discriminate.
Defined.

(** ** Names without [..] *)

Lemma clean_step_keeps (b : bool) (acc : list string) (c : string) :
  c <> Path.dotdot ->
  Path.clean_step b acc c = acc \/ Path.clean_step b acc c = c :: acc.
Proof.
  intros Hc. unfold Path.clean_step. repeat case_bool_decide; auto. done.
Qed.

Lemma fold_clean_keeps (b : bool) (cs : list string) : forall acc,
  Path.dotdot ∉ cs ->
  exists pre, fold_left (Path.clean_step b) cs acc = pre ++ acc.
Proof.
  induction cs as [|c cs IH]; intros acc Hn; simpl.
  - by exists [].
  - apply not_elem_of_cons in Hn as [Hc Hcs].
    destruct (clean_step_keeps b acc c) as [-> | ->]; [done|by apply IH|].
    destruct (IH (c :: acc) Hcs) as [pre ->]. exists (pre ++ [c]).
    by rewrite <- app_assoc.
Qed.

Lemma fold_clean_root (rs : list string) :
  Path.canon rs ->
  fold_left (Path.clean_step true) (Path.split (Path.abs_path rs)) [] = rev rs.
Proof.
  intros Hrs. destruct (decide (rs = [])) as [->|Hne]; [done|].
  rewrite PathFacts.split_abs_path by done. simpl.
  rewrite PathFacts.fold_clean_canon by done. by rewrite app_nil_r.
Qed.

(** X6: a name none of whose components is [..] cannot leave the root:
    the components of its joined target start with those of the root. A
    name that begins with a separator is no exception, since [filepath.Join]
    puts it under the root; so under a root other than [/] every such name
    passes the path check. *)
Theorem names_without_dotdot_stay_under_root (os : OS) (rs : list string)
    (name : string) :
  Path.canon rs ->
  Path.dotdot ∉ Path.split name ->
  rs `prefix_of` Path.segs (Path.Join (Path.abs_path rs) name)
  /\ (rs <> [] ->
      isPathSafe os (Path.Join (Path.abs_path rs) name) (Path.abs_path rs) = true).
Proof.
  intros Hrs Hn.
  assert (Hpre : rs `prefix_of` Path.segs (Path.Join (Path.abs_path rs) name)).
  { unfold Path.Join. change (Path.abs_path rs) with (String Path.sep (Path.join rs)).
    destruct name as [|a name].
    - fold (Path.abs_path rs). rewrite PathFacts.Clean_abs_path by done.
      by rewrite PathFacts.segs_abs_path.
    - fold (Path.abs_path rs).
      set (s := Path.abs_path rs +:+ String Path.sep (String a name)).
      destruct (PathFacts.Clean_abs s eq_refl) as [-> Hc].
      rewrite PathFacts.segs_abs_path by done.
      unfold Path.clean_comps, s. rewrite PathFacts.split_app_sep, fold_left_app.
      rewrite fold_clean_root by done.
      destruct (fold_clean_keeps true (Path.split (String a name)) (rev rs) Hn)
        as [pre ->].
      rewrite rev_app_distr, rev_involutive. by exists (rev pre). }
  split; [done|]. intros Hne. apply isPathSafe_iff; [done|]. by right.
Qed.

Lemma names_without_dotdot_stay_under_root_witness :
  isPathSafe os_ok (Path.Join "/srv/pub" "/etc/passwd") "/srv/pub" = true.
Proof.
  refine (proj2 (names_without_dotdot_stay_under_root os_ok ["srv"; "pub"]
                   "/etc/passwd" _ _) _).
  - repeat constructor; try discriminate.
  - vm_compute. intros H. repeat (apply elem_of_cons in H as [H|H]; [discriminate H|]).
    by apply elem_of_nil in H.
  - discriminate.
Defined.

(** ** The modes of what is extracted *)

Lemma masked_range (os : OS) (q : Z) :
  0 <= q <= Os.ModePerm ->
  0 <= Os.masked os q <= Os.ModePerm /\ Z.land (Os.masked os q) (umask os) = 0.
Proof.
  unfold Os.masked, Os.ModePerm. intros Hq. split.
  - assert (Z.land q (Z.lnot (umask os))
            = Z.land q (Z.lnot (umask os)) mod 2 ^ 9) as ->.
    { rewrite <- Z.land_ones by lia.
      rewrite <- Z.land_assoc, (Z.land_comm (Z.lnot (umask os))), Z.land_assoc.
      f_equal. rewrite Z.land_ones by lia. symmetry. apply Z.mod_small.
      change (2 ^ 9) with 512. lia. }
    pose proof (Z.mod_pos_bound (Z.land q (Z.lnot (umask os))) (2 ^ 9) ltac:(lia)).
    change (2 ^ 9) with 512 in *. lia.
  - apply Z.bits_inj'. intros n Hn.
    rewrite !Z.land_spec, Z.lnot_spec, Z.bits_0 by done.
    by destruct (Z.testbit q n), (Z.testbit (umask os) n).
Qed.

Lemma permOr_range (mode dflt : Z) :
  1 <= dflt <= Os.ModePerm -> 1 <= permOr mode dflt <= Os.ModePerm.
Proof.
  intros H. rewrite permOr_bits. unfold Os.ModePerm in *.
  pose proof (Z.mod_pos_bound mode 512 ltac:(lia)).
  destruct (mode mod 512 =? 0) eqn:E; [done|]. apply Z.eqb_neq in E. lia.
Qed.

Section Modes.

Variable os : OS.

Lemma grows_refl (w : FS) : grows os w w.
Proof. split; [intros p n Hn; by exists n|]. intros p n' H1 H2. congruence. Qed.

Lemma grows_trans (w w1 w2 : FS) : grows os w w1 -> grows os w1 w2 -> grows os w w2.
Proof.
  intros [A1 B1] [A2 B2]. split.
  - intros p n Hn. destruct (A1 _ _ Hn) as (n1 & Hn1 & E1).
    destruct (A2 _ _ Hn1) as (n2 & Hn2 & E2). exists n2. split; [done|congruence].
  - intros p n2 Hn Hn2. destruct (w1 !! p) as [n1|] eqn:E.
    + destruct (A2 _ _ E) as (n2' & Hn2' & E2).
      assert (n2' = n2) as -> by congruence. rewrite E2. by eapply B1.
    + by eapply B2.
Qed.

Lemma grows_perms_ok (w w1 w2 : FS) :
  grows os w w1 -> perms_ok os w1 w2 -> perms_ok os w w2.
Proof.
  intros [A1 B1] H2 p n2 Hn2. specialize (H2 p n2 Hn2).
  destruct (w !! p) as [n|] eqn:E.
  - destruct (A1 _ _ E) as (n1 & Hn1 & E1). rewrite Hn1 in H2. congruence.
  - destruct (w1 !! p) as [n1|] eqn:E1; [|done]. rewrite H2. by eapply B1.
Qed.

Lemma perms_ok_refl (w : FS) : perms_ok os w w.
Proof. intros p n Hn. by rewrite Hn. Qed.

Lemma grows_ok (w w1 : FS) : grows os w w1 -> perms_ok os w w1.
Proof. intros H. eapply grows_perms_ok; [done|apply perms_ok_refl]. Qed.

Lemma perms_ok_delete (w w1 : FS) (k : list string) :
  perms_ok os w w1 -> perms_ok os w (delete k w1).
Proof. intros H p n Hn. apply lookup_delete_Some in Hn as [_ Hn]. by apply H. Qed.

Lemma MkdirAll_grows (w : FS) (path : string) (perm : Z) :
  1 <= perm <= Os.ModePerm -> grows os w (fst (Os.MkdirAll os w path perm)).
Proof.
  intros Hperm. unfold Os.MkdirAll.
  pose proof (mkdirAll_spec os perm (rev (Path.segs path)) w) as Hs.
  destruct (Os.mkdirAll os w (rev (Path.segs path)) perm) as [w' [e|]]; simpl.
  - destruct Hs as [-> _]. apply grows_refl.
  - destruct Hs as (_ & Hmono & Hnew). split.
    + intros p n Hn. exists n. split; [by apply Hmono|done].
    + intros p n' E Hn'. destruct (Hnew _ _ E Hn') as [-> _]. by exists perm.
Qed.

Lemma OpenFile_grows (w : FS) (target : string) (perm : Z) :
  1 <= perm <= Os.ModePerm -> grows os w (fst (Os.OpenFile os w target perm)).
Proof.
  intros Hperm. unfold Os.OpenFile.
  destruct (Path.segs target) as [|c k] eqn:Ek; [apply grows_refl|].
  cbn [Os.lookup].
  destruct (w !! (c :: k)) as [[m|m d]|] eqn:E; cbn [fst].
  - apply grows_refl.
  - split.
    + intros p n Hn. destruct (decide (p = c :: k)) as [->|Hp].
      * exists (File m []). split; [apply lookup_insert_eq|].
        rewrite E in Hn. by injection Hn as <-.
      * exists n. by rewrite lookup_insert_ne.
    + intros p n' Hn Hn'. destruct (decide (p = c :: k)) as [->|Hp]; [congruence|].
      rewrite lookup_insert_ne in Hn' by done. congruence.
  - destruct (Os.lookup w (removelast (c :: k))) as [[m|m d]|];
      cbn [fst]; try apply grows_refl.
    split.
    + intros p n Hn. destruct (decide (p = c :: k)) as [->|Hp]; [congruence|].
      exists n. by rewrite lookup_insert_ne.
    + intros p n' Hn Hn'. destruct (decide (p = c :: k)) as [->|Hp].
      * rewrite lookup_insert_eq in Hn'. injection Hn' as <-. by exists perm.
      * rewrite lookup_insert_ne in Hn' by done. congruence.
Qed.

Lemma Write_grows (f : Os.file) (p : list Byte.byte) :
  grows os (Os.fs f) (Os.fs (fst (fst (Os.Write os f p)))).
Proof.
  unfold Os.Write. cbn [fst Os.fs Os.key].
  destruct (Os.fs f !! Os.key f) as [[m|m d]|] eqn:E; try apply grows_refl.
  split.
  - intros q n Hn. destruct (decide (q = Os.key f)) as [->|Hq].
    + eexists. split; [apply lookup_insert_eq|].
      rewrite E in Hn. by injection Hn as <-.
    + exists n. by rewrite lookup_insert_ne.
  - intros q n' Hn Hn'. destruct (decide (q = Os.key f)) as [->|Hq]; [congruence|].
    rewrite lookup_insert_ne in Hn' by done. congruence.
Qed.

Lemma trackingWriter_grows (tw : trackingWriter Os.file) (p : list Byte.byte) :
  grows os (Os.fs (writer tw))
    (Os.fs (writer (fst (fst (@trackingWriter_Write _ (file_Writer os) tw p))))).
Proof.
  unfold trackingWriter_Write. destruct (validateTotalSize _ _).
  - apply grows_refl.
  - pose proof (Write_grows (writer tw) p) as H.
    unfold Write, file_Writer.
    by destruct (Os.Write os (writer tw) p) as [[f' n] e].
Qed.

Lemma copyBuffer_grows (chunks : list (list Byte.byte)) (fin : ReadEnd) :
  forall (tw : trackingWriter Os.file) (c0 : Z),
    grows os (Os.fs (writer tw))
      (Os.fs (writer (fst (fst (@copyBuffer _ (@trackingWriter_Writer _ (file_Writer os))
                                  tw chunks fin c0))))).
Proof.
  induction chunks as [|c rest IH]; intros tw c0; simpl.
  - apply grows_refl.
  - destruct (0 <? len c); [|apply IH].
    pose proof (trackingWriter_grows tw c) as Hrel.
    change (@Write _ (@trackingWriter_Writer _ (file_Writer os)) tw c)
      with (@trackingWriter_Write _ (file_Writer os) tw c).
    destruct (@trackingWriter_Write _ (file_Writer os) tw c) as [[tw' n] e].
    simpl in Hrel.
    destruct ((n <? 0) || (len c <? n)); simpl.
    + done.
    + destruct e; [done|]. case_bool_decide; [|done].
      eapply grows_trans; [done|apply IH].
Qed.

(** A regular file that is extracted loses nothing; one that fails may
    lose its target. *)
Lemma handleRegularFile_modes (w : FS) (target : string) (h : Header) (tr : Entry)
    (T : Z) :
  perms_ok os w (fst (fst (handleRegularFile os w target h tr T)))
  /\ (snd (handleRegularFile os w target h tr T) = None ->
      grows os w (fst (fst (handleRegularFile os w target h tr T)))).
Proof.
  unfold handleRegularFile.
  assert (1 <= 493 <= Os.ModePerm) as H493 by (by unfold Os.ModePerm).
  assert (1 <= 420 <= Os.ModePerm) as H420 by (by unfold Os.ModePerm).
  pose proof (MkdirAll_grows w (Path.Dir target) 493 H493) as H1.
  destruct (Os.MkdirAll os w (Path.Dir target) 493) as [w1 [e|]];
    [split; [by apply grows_ok|done]|]. simpl in H1.
  pose proof (OpenFile_grows w1 target (permOr (Mode h) 420)
                (permOr_range _ _ H420)) as H2.
  destruct (Os.OpenFile os w1 target (permOr (Mode h) 420)) as [w2 [e|]]; simpl in H2.
  { split; [|done]. simpl. apply grows_ok. by eapply grows_trans. }
  pose proof (copyBuffer_grows (chunks tr) (rend tr)
                (mkTrackingWriter {| Os.fs := w2; Os.key := Path.segs target |} T 0) 0)
    as H3.
  fold (@ioCopy _ (@trackingWriter_Writer _ (file_Writer os))
          (mkTrackingWriter {| Os.fs := w2; Os.key := Path.segs target |} T 0)
          (chunks tr) (rend tr)) in H3.
  destruct (ioCopy _ (chunks tr) (rend tr)) as [[tw' n] err]. simpl in H3.
  assert (grows os w (Os.fs (writer tw'))) as H4.
  { eapply grows_trans; [done|]. by eapply grows_trans. }
  assert (perms_ok os w (fst (Os.Remove (Os.fs (writer tw')) target))) as H5.
  { unfold Os.Remove.
    destruct (Os.fs (writer tw') !! Path.segs target) as [[m|m d]|]; simpl;
      try (by apply grows_ok).
    - destruct (existsb _ _); simpl; [by apply grows_ok|].
      by apply perms_ok_delete, grows_ok.
    - by apply perms_ok_delete, grows_ok. }
  destruct err as [e|]; [done|].
  destruct (n >? mul64 (Size h) 2); [done|]. split; [by apply grows_ok|done].
Qed.

Lemma extractEntry_modes (absDst : string) (h : Header) (tr : Entry) (w : FS) (T : Z) :
  perms_ok os w (fst (fst (extractEntry os absDst h tr (w, T))))
  /\ (snd (extractEntry os absDst h tr (w, T)) = None ->
      grows os w (fst (fst (extractEntry os absDst h tr (w, T))))).
Proof.
  unfold extractEntry.
  destruct (Size h >? MaxFileSize); [split; [apply perms_ok_refl|done]|].
  destruct (negb _); [split; [apply perms_ok_refl|done]|]. unfold processEntry.
  case_bool_decide.
  { assert (grows os w (fst (handleDirectory os w (Path.Join absDst (Name h)) h))) as Hd.
    { unfold handleDirectory.
      destruct (Os.Stat w _) as [[?|? ?]|]; try apply grows_refl.
      apply MkdirAll_grows, permOr_range. by unfold Os.ModePerm. }
    destruct (handleDirectory os w _ h) as [w' [e|]]; simpl in *;
      (split; [by apply grows_ok|done]). }
  case_bool_decide.
  { destruct (handleRegularFile_modes w (Path.Join absDst (Name h)) h tr T) as [Hp Hg].
    destruct (handleRegularFile os w _ h tr T) as [[w' n] [e|]]; simpl in *; [done|].
    split; [done|]. intros _. by apply Hg. }
  destruct (_ || _); simpl; [split; [apply perms_ok_refl|done]|].
  split; [apply perms_ok_refl|]. intros _. apply grows_refl.
Qed.

Lemma extractArchive_modes (absDst : string) (ents : list Entry) (fin : option error) :
  forall (w : FS) (T : Z),
    perms_ok os w (fst (fst (extractArchive os ents fin absDst (w, T)))).
Proof.
  induction ents as [|tr ents IH]; intros w T; simpl.
  - destruct fin; apply perms_ok_refl.
  - destruct (header tr) as [h|]; [|apply IH].
    destruct (extractEntry_modes absDst h tr w T) as [Hp Hg].
    destruct (extractEntry os absDst h tr (w, T)) as [[w1 T1] [e|]]; [done|].
    simpl in *. eapply grows_perms_ok; [by apply Hg|apply IH].
Qed.

End Modes.

(** X18.  The modes that an extraction leaves: an object that was there
    before the call has the permission bits it had; an object that is new
    has a mode of permission bits, not all zero, less the umask of the
    process, that is a mode within 0777 with no bit of the umask. So the
    set-uid, set-gid and sticky bits of a header never reach the file
    system and the permission bits of an existing file or directory are
    never changed, whatever the archive and the outcome. *)
Theorem extraction_sets_plain_permissions (os : OS) (ents : list Entry)
    (fin : option error) (absDst : string) (w : FS) (T : Z) (p : list string)
    (n' : node) :
  fst (fst (extractArchive os ents fin absDst (w, T))) !! p = Some n' ->
  match w !! p with
  | Some n => Z.land (perm_of n') Os.ModePerm = Z.land (perm_of n) Os.ModePerm
  | None =>
      (exists q, 1 <= q <= Os.ModePerm /\ perm_of n' = Os.masked os q)
      /\ 0 <= perm_of n' <= Os.ModePerm
      /\ Z.land (perm_of n') (umask os) = 0
  end.
Proof.
  intros Hn'. pose proof (extractArchive_modes os absDst ents fin w T p n' Hn') as H.
  destruct (w !! p) as [n|]; [by rewrite H|]. split; [done|].
  destruct H as (q & Hq & ->). apply masked_range. lia.
Qed.

Lemma extraction_sets_plain_permissions_witness :
  (exists q, 1 <= q <= Os.ModePerm
             /\ perm_of (File 493 (bytes "x")) = Os.masked os_ok q)
  /\ 0 <= perm_of (File 493 (bytes "x")) <= Os.ModePerm
  /\ Z.land (perm_of (File 493 (bytes "x"))) (umask os_ok) = 0.
Proof.
  pose proof (extraction_sets_plain_permissions os_ok [fileEntry "s" 2559 "x"] None
                "/R" ∅ 0 ["R"; "s"] (File 493 (bytes "x"))) as H.
  rewrite lookup_empty in H. apply H. vm_compute. reflexivity.
Defined.

(** * The upload server *)

(** ** Splitting and joining at a separator *)

Module StrFacts.
Import Str.

Lemma Split_nonempty c s : Split c s <> [].
Proof.
  destruct s as [|d s]; simpl; [done|].
  destruct (Ascii.eqb d c); [done|]. by destruct (Split c s).
Qed.

Lemma Join_cons c x xs :
  xs <> [] -> Join c (x :: xs) = x +:+ String c (Join c xs).
Proof. by destruct xs. Qed.

Lemma Join_Split c s : Join c (Split c s) = s.
Proof.
  induction s as [|d s IH]; [done|]. simpl.
  pose proof (Split_nonempty c s) as Hne.
  destruct (Ascii.eqb d c) eqn:E.
  - apply Ascii.eqb_eq in E as ->. rewrite Join_cons by done. by rewrite IH.
  - destruct (Split c s) as [|x xs]; [done|].
    destruct xs as [|y ys].
    + simpl in *. by rewrite IH.
    + rewrite Join_cons in IH by done. rewrite Join_cons by done.
      rewrite PathFacts.append_cons. by rewrite IH.
Qed.

Lemma Split_app_sep c a b :
  Split c (a +:+ String c b) = Split c a ++ Split c b.
Proof.
  induction a as [|d a IH].
  - simpl. by rewrite Ascii.eqb_refl.
  - rewrite PathFacts.append_cons. simpl. rewrite IH.
    destruct (Ascii.eqb d c); [done|].
    pose proof (Split_nonempty c a). by destruct (Split c a).
Qed.

(** The first piece of a split has no separator in it. *)
Lemma Split_head c s x xs : Split c s = x :: xs -> Split c x = [x].
Proof.
  revert x xs. induction s as [|d s IH]; intros x xs; simpl.
  - by intros [= <- _].
  - destruct (Ascii.eqb d c) eqn:E.
    + by intros [= <- _].
    + pose proof (Split_nonempty c s).
      destruct (Split c s) as [|y ys] eqn:Es; [done|].
      intros [= <- _]. simpl. rewrite E. by rewrite (IH y ys).
Qed.

End StrFacts.

(** ** Who passes the basic authentication *)

(** X7.  The validator accepts a user name and a password exactly when
    the user name has no colon in it and the configured credentials are
    the user name, a colon and the password, or are the user name alone
    and the password is empty.  So the credentials are cut at their first
    colon, and a password may contain colons. *)
Theorem Validator_accepts_exactly (credentials username password : string) :
  Validator credentials username password = true <->
  Str.Split ":" username = [username] /\
  (credentials = username +:+ String ":" password
   \/ (credentials = username /\ password = EmptyString)).
Proof.
  unfold Validator, ConstantTimeCompare.
  pose proof (StrFacts.Split_nonempty ":" credentials) as Hne.
  pose proof (StrFacts.Join_Split ":" credentials) as Hj.
  split.
  - destruct (Str.Split ":" credentials) as [|x xs] eqn:E; [done|].
    cbn [hd tl]. intros H. apply andb_true_iff in H as [Hu Hp].
    repeat case_bool_decide; try done. subst x.
    split; [by eapply StrFacts.Split_head|].
    destruct xs as [|y ys].
    + right. by subst.
    + left. rewrite StrFacts.Join_cons in Hj by done. by subst.
  - intros [Hu [-> | [-> ->]]].
    + rewrite StrFacts.Split_app_sep, Hu. cbn [app hd tl].
      rewrite StrFacts.Join_Split.
      by rewrite !bool_decide_eq_true_2 by (by rewrite ?bool_decide_eq_true_2).
    + rewrite Hu. cbn [hd tl Str.Join].
      by rewrite !bool_decide_eq_true_2 by (by rewrite ?bool_decide_eq_true_2).
Qed.

(** ** The age threshold *)

(** X8.  Up to 106751 days the threshold is the exact number of
    nanoseconds: a file is old when its age is strictly greater than
    [days] times 24 hours; a file exactly that old is kept, and with zero
    or negative [days] every file with a positive age is old. *)
Theorem age_threshold_in_range (since days : Z) :
  -106751 <= days <= 106751 ->
  (isOlderThanXDays since days = true <-> since > days * 86400 * 1000000000)
  /\ (days <= 0 -> 0 < since -> isOlderThanXDays since days = true).
Proof.
  intros H. unfold isOlderThanXDays, mul64, time.Hour.
  rewrite (wrap64_small (days * 24)) by (unfold int64; lia).
  rewrite wrap64_small by (unfold int64; lia).
  split; [|intros; apply Z.gtb_lt; lia].
  rewrite Z.gtb_lt. lia.
Qed.

Lemma age_threshold_in_range_witness :
  (isOlderThanXDays 86400000000001 1 = true <-> 86400000000001 > 1 * 86400 * 1000000000)
  /\ (1 <= 0 -> 0 < 86400000000001 -> isOlderThanXDays 86400000000001 1 = true).
Proof. apply (age_threshold_in_range 86400000000001 1). lia. Defined.

(** X9.  From 106752 days on the product overflows [int64]: up to 213503
    days the threshold is negative, and every file whose modification
    time is not in the future counts as old. *)
Theorem age_threshold_overflows (since days : Z) :
  106752 <= days <= 213503 -> 0 <= since ->
  isOlderThanXDays since days = true.
Proof.
  intros H Hs. unfold isOlderThanXDays, mul64, time.Hour.
  rewrite (wrap64_small (days * 24)) by (unfold int64; lia).
  apply Z.gtb_lt. unfold wrap64.
  assert (E : (days * 24 * (3600 * 1000000000) + 2 ^ 63) mod 2 ^ 64
              = days * 24 * (3600 * 1000000000) + 2 ^ 63 - 2 ^ 64).
  { symmetry. apply Z.mod_unique with 1; lia. }
  rewrite E. lia.
Qed.

Lemma age_threshold_overflows_witness : isOlderThanXDays 0 106752 = true.
Proof. apply (age_threshold_overflows 0 106752); lia. Defined.

(** ** The paths of the handlers *)

Section HandlerPaths.

Variable os : OS.

Lemma abs_path_nonempty (ks : list string) : Path.abs_path ks <> EmptyString.
Proof. done. Qed.

Lemma Abs_abs_path (ks : list string) :
  Path.canon ks -> Path.Abs (cwd os) (Path.abs_path ks) = Some (Path.abs_path ks).
Proof.
  intros H. unfold Path.Abs. change (Path.IsAbs (Path.abs_path ks)) with true.
  cbv iota. by rewrite PathFacts.Clean_abs_path.
Qed.

Lemma absOrEmpty_abs_path (ks : list string) :
  Path.canon ks -> absOrEmpty os (Path.abs_path ks) = Path.abs_path ks.
Proof. intros H. unfold absOrEmpty. by rewrite Abs_abs_path. Qed.

Lemma resolve_abs_path (ks : list string) :
  Path.canon ks -> resolve os (Path.abs_path ks) = Some (Path.abs_path ks).
Proof.
  intros H. unfold resolve. rewrite bool_decide_eq_false_2 by done.
  by apply Abs_abs_path.
Qed.



End HandlerPaths.

(** ** [DELETE /upload] *)

Lemma statError_None (w : FS) (k : list string) :
  statError w k = None <-> is_Some (Os.lookup w k).
Proof.
  unfold statError. destruct (Os.lookup w k) as [n|].
  - split; [by eexists|done].
  - split; [by destruct (existsb _ _)|by intros [? ?]].
Qed.

Lemma lookup_filter_under (w : FS) (k p : list string) :
  filter (fun kv : list string * node => ~ k `prefix_of` kv.1) w !! p
  = if bool_decide (k `prefix_of` p) then None else w !! p.
Proof.
  case_bool_decide as Hp.
  - apply map_lookup_filter_None. right. intros x _ Hn. by apply Hn.
  - destruct (w !! p) as [x|] eqn:E.
    + by apply map_lookup_filter_Some.
    + apply map_lookup_filter_None. by left.
Qed.

Section Delete.

Variable os : OS.
Variable ds : list string.
Hypothesis ds_canon : Path.canon ds.

(** The handler once the path is resolved to the components [ks]. *)
Lemma uploaderDelete_resolved (path : string) (ks : list string) (w : FS) :
  Path.canon ks ->
  Path.Join (Path.abs_path ds) path = Path.abs_path ks ->
  uploaderDelete os (Path.abs_path ds) path w
  = if negb (Path.HasPrefix (Path.abs_path ks) (Path.abs_path ds))
    then (w, HTTPError 403 "DENIED: You should not upload outside the upload directory.")
    else match Os.lookup w ks with
         | None => (w, HTTPError 404 "Could not find your file")
         | Some _ =>
             (filter (fun kv : list string * node => ~ ks `prefix_of` kv.1) w,
              if bool_decide (ks = [])
              then HTTPError 400 "Could not delete your file: "
              else JSON 202
                     [("message", VString ("File " +:+ path +:+ " has been deleted"));
                      ("path", VString path)])
         end.
Proof.
  intros Hks Hj. unfold uploaderDelete. rewrite Hj.
  rewrite !absOrEmpty_abs_path by done.
  destruct (negb _); [done|].
  unfold osStat, RemoveAll. rewrite resolve_abs_path by done.
  rewrite PathFacts.segs_abs_path by done.
  destruct (Os.lookup w ks) as [n|] eqn:E.
  - assert (statError w ks = None) as -> by (apply statError_None; by eexists).
    by case_bool_decide.
  - unfold statError. rewrite E. by destruct (existsb _ _).
Qed.

End Delete.



(** ** The prefix test of the handlers is a test on strings *)

Lemma append_cancel_empty (d s : string) : d +:+ s = d -> s = EmptyString.
Proof.
  induction d as [|c d IH]; [done|].
  rewrite PathFacts.append_cons. intros [= H]. by apply IH.
Qed.

Lemma join_snoc_append (ds : list string) (d s : string) :
  Path.join (ds ++ [d +:+ s]) = Path.join (ds ++ [d]) +:+ s.
Proof.
  induction ds as [|x ds IH]; [done|].
  destruct ds as [|y ds].
  - simpl. by rewrite append_assoc.
  - change (Path.join ((x :: y :: ds) ++ [d +:+ s]))
      with (x +:+ String Path.sep (Path.join ((y :: ds) ++ [d +:+ s]))).
    change (Path.join ((x :: y :: ds) ++ [d]))
      with (x +:+ String Path.sep (Path.join ((y :: ds) ++ [d]))).
    rewrite IH. by rewrite append_assoc.
Qed.

(** Going up one level and down into a name: the sibling. *)
Lemma Join_sibling (ds : list string) (d x : string) :
  Path.canon (ds ++ [d]) -> Path.comp_ok x ->
  Path.Join (Path.abs_path (ds ++ [d])) ("../" +:+ x) = Path.abs_path (ds ++ [x]).
Proof.
  intros Hds Hx.
  change (Path.Join (Path.abs_path (ds ++ [d])) ("../" +:+ x))
    with (Path.Clean (Path.abs_path (ds ++ [d])
                      +:+ String Path.sep (Path.dotdot +:+ String Path.sep x))).
  unfold Path.Clean.
  change (Path.IsAbs _) with true. unfold Path.render. f_equal.
  unfold Path.clean_comps. rewrite !PathFacts.split_app_sep, !fold_left_app.
  rewrite fold_clean_root by done.
  destruct Hx as (Hx1 & Hx2 & Hx3 & Hx4). rewrite Hx4.
  apply Forall_app in Hds as [Hds Hd]. inversion Hd as [|? ? (_ & _ & Hdd & _) _]; subst.
  rewrite rev_app_distr. simpl.
  unfold Path.clean_step at 2. simpl.
  rewrite (bool_decide_eq_false_2 (d = Path.dotdot)) by done.
  rewrite PathFacts.clean_step_canon by done.
  simpl. by rewrite rev_involutive.
Qed.

(** X11.  The handlers compare the resolved path with the upload
    directory as strings, with no separator after the directory.  So a
    sibling of the upload directory whose name starts with the name of the
    upload directory passes: [DELETE /upload] with the path [../<name><s>]
    removes that sibling and everything in it, although it is not under
    the upload directory and [isPathSafe] refuses the same target. *)
Theorem delete_reaches_a_sibling (os : OS) (ds : list string) (d s : string)
    (w : FS) :
  Path.canon (ds ++ [d]) -> Path.comp_ok (d +:+ s) -> s <> EmptyString ->
  is_Some (w !! (ds ++ [d +:+ s])) ->
  let dir := Path.abs_path (ds ++ [d]) in
  let r := uploaderDelete os dir ("../" +:+ d +:+ s) w in
  Path.segs (Path.Join dir ("../" +:+ d +:+ s)) = ds ++ [d +:+ s]
  /\ ~ (ds ++ [d]) `prefix_of` (ds ++ [d +:+ s])
  /\ isPathSafe os (Path.Join dir ("../" +:+ d +:+ s)) dir = false
  /\ (exists body, snd r = JSON 202 body)
  /\ (forall p, fst r !! p
                = if bool_decide ((ds ++ [d +:+ s]) `prefix_of` p) then None else w !! p).
Proof.
  intros Hds Hx Hs Hw dir r.
  assert (Path.canon (ds ++ [d +:+ s])) as Hks.
  { apply Forall_app in Hds as [Hds _]. apply Forall_app. split; [done|].
    by constructor. }
  pose proof (Join_sibling ds d (d +:+ s) Hds Hx) as Hj.
  assert (~ (ds ++ [d]) `prefix_of` (ds ++ [d +:+ s])) as Hnp.
  { intros [r' Hr]. rewrite <- app_assoc in Hr. apply app_inv_head in Hr.
    simpl in Hr. injection Hr as Hr _. by apply Hs, (append_cancel_empty d). }
  split; [|split; [done|split; [|split]]].
  - unfold dir. by rewrite Hj, PathFacts.segs_abs_path.
  - destruct (isPathSafe os _ dir) eqn:Hsafe; [exfalso|done].
    apply isPathSafe_iff in Hsafe; [|done]. unfold dir in Hsafe.
    rewrite Hj, PathFacts.segs_abs_path in Hsafe by done.
    destruct Hsafe as [E | [_ Hp]]; [|done].
    apply Hnp. by rewrite E.
  - unfold r, dir. rewrite (uploaderDelete_resolved os _ Hds _ _ w Hks Hj).
    unfold Path.abs_path at 1 2. rewrite join_snoc_append.
    rewrite <- PathFacts.append_cons, HasPrefix_append. simpl negb. cbv iota.
    rewrite lookup_snoc. destruct Hw as [n ->].
    rewrite bool_decide_eq_false_2 by (by destruct ds). by eexists.
  - intros p. unfold r, dir. rewrite (uploaderDelete_resolved os _ Hds _ _ w Hks Hj).
    unfold Path.abs_path at 1 2. rewrite join_snoc_append.
    rewrite <- PathFacts.append_cons, HasPrefix_append. simpl negb. cbv iota.
    rewrite lookup_snoc. destruct Hw as [n ->]. simpl. apply lookup_filter_under.
Qed.

Lemma delete_reaches_a_sibling_witness :
  let dir := Path.abs_path (["srv"] ++ ["pub"]) in
  let r := uploaderDelete os_ok dir ("../" +:+ "pub" +:+ "-private") pub_tree in
  Path.segs (Path.Join dir ("../" +:+ "pub" +:+ "-private"))
  = ["srv"] ++ ["pub" +:+ "-private"]
  /\ ~ (["srv"] ++ ["pub"]) `prefix_of` (["srv"] ++ ["pub" +:+ "-private"])
  /\ isPathSafe os_ok (Path.Join dir ("../" +:+ "pub" +:+ "-private")) dir = false
  /\ (exists body, snd r = JSON 202 body)
  /\ (forall p, fst r !! p
                = if bool_decide ((["srv"] ++ ["pub" +:+ "-private"]) `prefix_of` p)
                  then None else pub_tree !! p).
Proof.
  apply (delete_reaches_a_sibling os_ok ["srv"] "pub" "-private" pub_tree).
  - repeat constructor; discriminate.
  - repeat constructor; discriminate.
  - discriminate.
  - vm_compute. by eexists.
Defined.

(** ** [POST /upload]: a regular file *)


Section RegularUpload.

Variable os : OS.




End RegularUpload.

Section UploadDispatch.

Variable os : OS.
Variable ds : list string.
Hypothesis ds_canon : Path.canon ds.

(** The handler once the target is resolved to the components [ks] and
    the prefix test is passed. *)
Lemma upload_resolved (form : UploadForm) (file : multipart.FileHeader)
    (name : string) (ks : list string) (w : FS) :
  formFile form = Some file ->
  name = (if bool_decide (formPath form = EmptyString)
          then multipart.Filename file else formPath form) ->
  Path.canon ks ->
  Path.Join (Path.abs_path ds) name = Path.abs_path ks ->
  Path.HasPrefix (Path.abs_path ks) (Path.abs_path ds) = true ->
  upload os (Path.abs_path ds) form w
  = if bool_decide (formTargz form = "true")
    then handleTarGzUpload os file name (Path.abs_path ks) (Path.abs_path ks) w
    else handleRegularUpload os file name (Path.abs_path ks) w.
Proof.
  intros Hf -> Hks Hj Hpre. unfold upload. rewrite Hf, Hj.
  rewrite !absOrEmpty_abs_path by done. by rewrite Hpre.
Qed.

End UploadDispatch.






(** ** [POST /upload]: an archive *)

Section TarGzUpload.

Variable os : OS.

Lemma extractArchive_keeps_dirs (ents : list Entry) (fin : option error)
    (absDst : string) (p : list string) :
  forall (w : FS) (T : Z),
    is_dir (Os.lookup w p) = true ->
    is_dir (Os.lookup (fst (fst (extractArchive os ents fin absDst (w, T)))) p) = true.
Proof.
  destruct p as [|c p]; [done|]. cbn [Os.lookup].
  induction ents as [|tr ents IH]; intros w T Hp; simpl.
  - by destruct fin.
  - destruct (header tr) as [h|]; [|by apply IH].
    destruct (w !! (c :: p)) as [[m|? ?]|] eqn:E; try done.
    pose proof (extractEntry_keeps_dir os absDst h tr w T _ m E) as Hk.
    destruct (extractEntry os absDst h tr (w, T)) as [[w1 T1] [e|]].
    + simpl in *. by rewrite Hk.
    + apply IH. simpl in Hk. by rewrite Hk.
Qed.

Lemma handleTarGzUpload_contained (file : multipart.FileHeader) (name : string)
    (ks : list string) (w : FS) :
  Path.canon ks ->
  let r := handleTarGzUpload os file name (Path.abs_path ks) (Path.abs_path ks) w in
  contained ks w (fst r)
  /\ (snd r = uploaded file name -> is_dir (Os.lookup (fst r) ks) = true).
Proof.
  intros Hks. unfold handleTarGzUpload, osMkdirAll.
  rewrite resolve_abs_path by done.
  pose proof (MkdirAll_contained os ks w (Path.abs_path ks) 493) as Hmk.
  rewrite PathFacts.segs_abs_path in Hmk by done.
  specialize (Hmk (fun p Hp => or_intror Hp)).
  pose proof (mkdirAll_spec os 493 (rev ks) w) as Hs. rewrite rev_involutive in Hs.
  unfold Os.MkdirAll in *. rewrite PathFacts.segs_abs_path in * by done.
  destruct (Os.mkdirAll os w (rev ks) 493) as [w1 [e|]]; [done|].
  destruct Hs as (Hdir & _). simpl in Hmk.
  destruct (multipart.OpenFails file); [done|].
  unfold UntarGz. rewrite Abs_abs_path by done.
  destruct (multipart.Decoded file) as [|a]; [done|].
  pose proof (extractArchive_contained os ks Hks (entries a) (last a) w1 0) as Hc.
  pose proof (extractArchive_keeps_dirs (entries a) (last a) (Path.abs_path ks) ks
                w1 0 Hdir) as Hd.
  destruct (extractArchive os (entries a) (last a) (Path.abs_path ks) (w1, 0))
    as [[w2 T2] [e|]]; simpl in *.
  - split; [by eapply contained_trans|done].
  - split; [by eapply contained_trans|done].
Qed.

End TarGzUpload.

(** X14.  An archive upload stays at its destination: with the [targz]
    field set to [true], whatever the name, the archive and the device,
    every path of the file system afterwards holds what it held before, or
    lies at or under the resolved destination, or is a directory made on
    the way down to it.  When the answer is 201 the destination is a
    directory. *)
Theorem targz_upload_stays_at_its_destination (os : OS) (ds : list string)
    (form : UploadForm) (file : multipart.FileHeader) (w : FS) :
  Path.canon ds ->
  formFile form = Some file -> formTargz form = "true" ->
  let name := if bool_decide (formPath form = EmptyString)
              then multipart.Filename file else formPath form in
  let k := Path.segs (Path.Join (Path.abs_path ds) name) in
  let r := upload os (Path.abs_path ds) form w in
  contained k w (fst r)
  /\ (snd r = uploaded file name -> is_dir (Os.lookup (fst r) k) = true).
Proof.
  intros Hds Hf Htz name k r.
  destruct (PathFacts.Join_abs (Path.abs_path ds) name eq_refl) as (ks & Hks & Hj).
  assert (k = ks) as Hk by (unfold k; by rewrite Hj, PathFacts.segs_abs_path).
  rewrite Hk. unfold r.
  destruct (Path.HasPrefix (Path.abs_path ks) (Path.abs_path ds)) eqn:Hpre.
  - rewrite (upload_resolved os ds Hds form file name ks w Hf eq_refl Hks Hj Hpre).
    rewrite bool_decide_eq_true_2 by done.
    by apply handleTarGzUpload_contained.
  - unfold upload. rewrite Hf. fold name. rewrite Hj.
    rewrite !absOrEmpty_abs_path by done. rewrite Hpre. simpl.
    split; [apply contained_refl|done].
Qed.

Lemma targz_upload_stays_at_its_destination_witness :
  let r := upload os_ok (Path.abs_path ["srv"; "pub"])
             {| formFile := Some archive_file; formTargz := "true"; formPath := "in" |}
             upload_tree in
  contained ["srv"; "pub"; "in"] upload_tree (fst r)
  /\ fst r !! ["srv"; "pub"; "in"; "x"; "y"] = Some (File 420 (bytes "z")).
Proof.
  split; [|vm_compute; reflexivity].
  refine (proj1 (targz_upload_stays_at_its_destination os_ok ["srv"; "pub"]
                   {| formFile := Some archive_file; formTargz := "true";
                      formPath := "in" |} archive_file upload_tree _ eq_refl eq_refl)).
  repeat constructor; discriminate.
Defined.

(** ** [DELETE /delete]: the sweep of old files *)

Lemma Join_child (ks : list string) (c : string) :
  Path.canon ks -> Path.comp_ok c ->
  Path.Join (Path.abs_path ks) c = Path.abs_path (ks ++ [c]).
Proof.
  intros Hks Hc. pose proof Hc as (Hc1 & Hc2 & Hc3 & Hc4).
  destruct c as [|a c]; [done|].
  change (Path.Join (Path.abs_path ks) (String a c))
    with (Path.Clean (Path.abs_path ks +:+ String Path.sep (String a c))).
  unfold Path.Clean. change (Path.IsAbs _) with true. unfold Path.render. f_equal.
  unfold Path.clean_comps. rewrite PathFacts.split_app_sep, fold_left_app.
  rewrite fold_clean_root by done. rewrite Hc4. simpl fold_left.
  rewrite PathFacts.clean_step_canon by done.
  simpl. by rewrite rev_involutive.
Qed.

Lemma children_spec (w : FS) (k : list string) (c : string) :
  c ∈ children w k <-> is_Some (w !! (k ++ [c])).
Proof.
  unfold children. rewrite list_elem_of_omap. split.
  - intros ([key n] & Hin & Hf). apply elem_of_map_to_list in Hin. simpl in Hf.
    destruct (rev key) as [|c' rq] eqn:E; [done|].
    case_bool_decide as Hk; [|done]. injection Hf as ->.
    apply (f_equal (@rev string)) in E. rewrite rev_involutive in E. simpl in E.
    rewrite Hk in E. subst key. by eexists.
  - intros [n Hn]. exists (k ++ [c], n). split; [by apply elem_of_map_to_list|].
    simpl. rewrite rev_app_distr. simpl.
    by rewrite rev_involutive, bool_decide_eq_true_2.
Qed.

Lemma Remove_cases (w : FS) (target : string) :
  let k := Path.segs target in
  match w !! k with
  | Some (File _ _) => Os.Remove w target = (delete k w, None)
  | Some (Dir _) =>
      (Os.Remove w target = (delete k w, None) /\ empty_below w k)
      \/ (exists e, Os.Remove w target = (w, Some e))
  | None => exists e, Os.Remove w target = (w, Some e)
  end.
Proof.
  intros k. unfold Os.Remove. fold k.
  destruct (w !! k) as [[m|m d]|] eqn:E; [|done|by eexists].
  destruct (existsb _ _) eqn:Ex; [right; by eexists|left].
  split; [done|]. intros q Hq Hne.
  destruct (w !! q) as [n|] eqn:Eq; [exfalso|done].
  assert (existsb (fun kv : list string * node => Os.is_proper_prefix k kv.1)
            (map_to_list w) = true) as Ht; [|by rewrite Ht in Ex].
  apply existsb_exists. exists (q, n). split.
  - apply list_elem_of_In. by apply elem_of_map_to_list.
  - unfold Os.is_proper_prefix. simpl.
    rewrite bool_decide_eq_true_2 by done.
    by rewrite bool_decide_eq_false_2 by (by intros ->).
Qed.

Section Sweep.

Variable ks : list string.
Hypothesis ks_canon : Path.canon ks.

(** The loop, from the file system [w0]: what is gone was a file, or an
    empty directory, directly in the directory; every listed file is
    gone; the count is the number of objects that went. *)
Lemma sweep_fold (l : list string) : forall (w0 : FS) (n : Z),
  Forall Path.comp_ok l ->
  let r := fold_left (removeOld (Path.abs_path ks)) l (w0, n) in
  (forall p, fst r !! p = w0 !! p
             \/ (fst r !! p = None
                 /\ exists c, c ∈ l /\ p = ks ++ [c]
                    /\ (is_file (w0 !! p) = true
                        \/ (is_dir (w0 !! p) = true /\ empty_below w0 p))))
  /\ (forall c, c ∈ l -> is_file (w0 !! (ks ++ [c])) = true ->
                fst r !! (ks ++ [c]) = None)
  /\ snd r - n = Z.of_nat (size w0) - Z.of_nat (size (fst r)).
Proof.
  induction l as [|c l IH]; intros w0 n Hl.
  { simpl. split; [by left|]. split; [|lia]. intros c Hc. by apply elem_of_nil in Hc. }
  inversion Hl as [|? ? Hc Hl']; subst.
  pose proof (Remove_cases w0 (Path.Join (Path.abs_path ks) c)) as Hrm.
  rewrite Join_child in Hrm by done.
  rewrite PathFacts.segs_abs_path in Hrm
    by (apply Forall_app; split; [done|by constructor]).
  cbv zeta in Hrm.
  assert ((removeOld (Path.abs_path ks) (w0, n) c = (delete (ks ++ [c]) w0, n + 1)
           /\ (is_file (w0 !! (ks ++ [c])) = true
               \/ (is_dir (w0 !! (ks ++ [c])) = true /\ empty_below w0 (ks ++ [c]))))
          \/ (removeOld (Path.abs_path ks) (w0, n) c = (w0, n)
              /\ is_file (w0 !! (ks ++ [c])) = false)) as Hcase.
  { unfold removeOld. cbn [fst snd]. rewrite Join_child by done.
    destruct (w0 !! (ks ++ [c])) as [[m|m d]|] eqn:E.
    - destruct Hrm as [[-> He] | [e ->]]; [left; split; [done|by right]|by right].
    - rewrite Hrm. left. split; [done|by left].
    - destruct Hrm as [e ->]. by right. }
  cbv zeta. cbn [fold_left].
  destruct Hcase as [[-> Hwhy] | [-> Hnf]].
  - specialize (IH (delete (ks ++ [c]) w0) (n + 1) Hl'). cbv zeta in IH.
    destruct IH as (IH1 & IH2 & IH3).
    set (r := fold_left (removeOld (Path.abs_path ks)) l (delete (ks ++ [c]) w0, n + 1)) in *.
    assert (fst r !! (ks ++ [c]) = None) as Hgone.
    { destruct (IH1 (ks ++ [c])) as [-> | [-> _]]; [by rewrite lookup_delete_eq|done]. }
    split; [|split].
    + intros p. destruct (decide (p = ks ++ [c])) as [->|Hp].
      * right. split; [done|]. exists c. split; [by left|]. done.
      * destruct (IH1 p) as [-> | (-> & c' & Hc' & -> & Hrem)].
        { left. by rewrite lookup_delete_ne. }
        right. split; [done|]. exists c'. split; [by right|]. split; [done|].
        rewrite lookup_delete_ne in Hrem by done.
        destruct Hrem as [Hf | [Hd He]]; [by left|right]. split; [done|].
        intros q Hq Hne. specialize (He q Hq Hne).
        destruct (decide (q = ks ++ [c])) as [->|Hqc].
        { exfalso. destruct Hq as [t Ht]. rewrite <- app_assoc in Ht.
          apply app_inv_head in Ht. simpl in Ht. injection Ht as -> _. done. }
        by rewrite lookup_delete_ne in He.
    + intros c' Hc' Hf. apply elem_of_cons in Hc' as [-> | Hc']; [done|].
      destruct (decide (c' = c)) as [->|Hne]; [done|].
      apply IH2; [done|]. rewrite lookup_delete_ne; [done|].
      intros E. apply app_inv_head in E. by injection E as ->.
    + rewrite map_size_delete_Some in IH3.
      2:{ destruct (w0 !! (ks ++ [c])) as [?|]; [by eexists|].
          by destruct Hwhy as [? | [? _]]. }
      assert (size w0 <> 0%nat) as Hpos.
      { apply map_size_non_empty_iff. intros ->.
        rewrite lookup_empty in Hwhy. by destruct Hwhy as [? | [? _]]. }
      lia.
  - specialize (IH w0 n Hl'). cbv zeta in IH. destruct IH as (IH1 & IH2 & IH3).
    split; [|split; [|done]].
    + intros p. destruct (IH1 p) as [-> | (-> & c' & Hc' & -> & Hrem)]; [by left|].
      right. split; [done|]. exists c'. split; [by right|]. done.
    + intros c' Hc' Hf. apply elem_of_cons in Hc' as [-> | Hc']; [|by apply IH2].
      by rewrite Hf in Hnf.
Qed.

End Sweep.

Section SweepHandler.

Variable os : OS.
Variable ds : list string.
Hypothesis ds_canon : Path.canon ds.
Variable since : list string -> Z.

(** The two ways through the handler: it answers something else than 202
    and changes nothing, or it lists the directory at the resolved path
    and runs the loop over the old entries. *)
Lemma deleteOldFilesOfDir_outcome (path daysValue recursiveValue : string)
    (ks : list string) (w : FS) :
  Path.canon ks -> names_ok w ->
  Path.Join (Path.abs_path ds) path = Path.abs_path ks ->
  let r := deleteOldFilesOfDir os (Path.abs_path ds) since path daysValue
             recursiveValue w in
  (fst r = w /\ forall body, snd r <> JSON 202 body)
  \/ (exists (recursive : bool) (files : list string) (body : list (string * Value)),
        strconv.ParseBool (recursiveFlag recursiveValue) = Some recursive
        /\ is_dir (Os.lookup w ks) = true
        /\ Forall Path.comp_ok files
        /\ (forall c, c ∈ files <->
              is_Some (w !! (ks ++ [c]))
              /\ (is_file (w !! (ks ++ [c]))
                  || (recursive && is_dir (w !! (ks ++ [c]))))
                 && isOlderThanXDays (since (ks ++ [c])) (strconv.Atoi daysValue)
                 = true)
        /\ snd r = JSON 202 body
        /\ ("count", VInt (snd (fold_left (removeOld (Path.abs_path ks)) files (w, 0))))
           ∈ body
        /\ ("days", VInt (strconv.Atoi daysValue)) ∈ body
        /\ fst r = fst (fold_left (removeOld (Path.abs_path ks)) files (w, 0))).
Proof.
  intros Hks Hw Hj r. unfold r, deleteOldFilesOfDir. fold (recursiveFlag recursiveValue).
  destruct (strconv.ParseBool _) as [recursive|]; [|by left].
  rewrite Hj, !absOrEmpty_abs_path by done.
  destruct (negb _); [by left|].
  unfold osStat. rewrite resolve_abs_path by done.
  rewrite PathFacts.segs_abs_path by done.
  destruct (Os.lookup w ks) as [[m|m d]|] eqn:E.
  - assert (statError w ks = None) as -> by (apply statError_None; by eexists).
    unfold findFilesOlderThanXDays, ReadDir.
    rewrite !PathFacts.segs_abs_path by done. rewrite E. cbn [is_dir].
    set (files := List.filter _ _).
    assert (forall c, c ∈ files <->
              is_Some (w !! (ks ++ [c]))
              /\ (is_file (w !! (ks ++ [c]))
                  || (recursive && is_dir (w !! (ks ++ [c]))))
                 && isOlderThanXDays (since (ks ++ [c])) (strconv.Atoi daysValue)
                 = true) as Hfiles.
    { intros c. unfold files. rewrite list_elem_of_In, filter_In, <- list_elem_of_In.
      by rewrite merge_sort_Permutation, children_spec. }
    assert (Forall Path.comp_ok files) as Hok.
    { apply Forall_forall. intros c Hc. apply Hfiles in Hc as [[n Hn] _].
      apply Hw in Hn. apply Forall_app in Hn as [_ Hn]. by inversion Hn. }
    right. exists recursive, files. case_bool_decide as Hnil.
    + eexists. split; [done|]. split; [done|]. split; [done|].
      split; [exact Hfiles|]. rewrite Hnil. simpl.
      split; [done|]. split; [by left|]. split; [right; by left|done].
    + destruct (fold_left _ files (w, 0)) as [w' n] eqn:Ef.
      eexists. split; [done|]. split; [done|]. split; [done|].
      split; [exact Hfiles|]. simpl.
      split; [done|]. split; [by left|]. split; [right; by left|done].
  - left. assert (statError w ks = None) as -> by (apply statError_None; by eexists).
    unfold findFilesOlderThanXDays, ReadDir.
    rewrite !PathFacts.segs_abs_path by done. rewrite E. by simpl.
  - left. unfold statError. rewrite E. by destruct (existsb _ _).
Qed.

End SweepHandler.

(** X15.  The sweep is shallow: whatever the request, after
    [DELETE /delete] every path holds what it held, except that entries
    directly in the resolved directory may be gone; an entry that is gone
    was older than the threshold and was a regular file, or, with
    [recursive] set, a directory with nothing in it.  Nothing below an
    entry is ever looked at or removed: [recursive] does not recurse. *)
Theorem sweep_is_shallow (os : OS) (ds : list string) (since : list string -> Z)
    (path daysValue recursiveValue : string) (w : FS) :
  Path.canon ds -> names_ok w ->
  let k := Path.segs (Path.Join (Path.abs_path ds) path) in
  let r := deleteOldFilesOfDir os (Path.abs_path ds) since path daysValue
             recursiveValue w in
  forall p,
    fst r !! p = w !! p
    \/ (fst r !! p = None
        /\ exists c, p = k ++ [c]
           /\ isOlderThanXDays (since p) (strconv.Atoi daysValue) = true
           /\ (is_file (w !! p) = true
               \/ (strconv.ParseBool (recursiveFlag recursiveValue) = Some true
                   /\ is_dir (w !! p) = true /\ empty_below w p))).
Proof.
  intros Hds Hw k r p.
  destruct (PathFacts.Join_abs (Path.abs_path ds) path eq_refl) as (ks & Hks & Hj).
  assert (k = ks) as Hk by (unfold k; by rewrite Hj, PathFacts.segs_abs_path).
  rewrite Hk.
  destruct (deleteOldFilesOfDir_outcome os ds Hds since path daysValue recursiveValue
              ks w Hks Hw Hj)
    as [[Hsame _] | (recursive & files & body & Hrec & Hdir & Hok & Hfiles & _ & _ & _ & Hfst)];
    fold r in Hsame || fold r in Hfst.
  { left. by rewrite Hsame. }
  rewrite Hfst.
  destruct (sweep_fold ks Hks files w 0 Hok) as (H1 & _ & _).
  destruct (H1 p) as [-> | (-> & c & Hc & -> & Hwhy)]; [by left|right].
  split; [done|]. exists c. split; [done|].
  apply Hfiles in Hc as [_ Hsel]. apply andb_true_iff in Hsel as [Hkind Hold].
  split; [done|]. destruct Hwhy as [Hf | [Hd He]]; [by left|].
  right. rewrite Hrec. destruct (w !! (ks ++ [c])) as [[m|m d]|]; try done.
  simpl in Hkind. by destruct recursive.
Qed.

Lemma names_ok_sweep_tree : names_ok sweep_tree.
Proof.
  intros k n H. unfold sweep_tree in H.
  repeat (apply lookup_insert_Some in H as [[<- _] | [_ H]];
          [repeat constructor; discriminate|]).
  apply lookup_singleton_Some in H as [<- _]. repeat constructor; discriminate.
Qed.

Lemma sweep_is_shallow_witness :
  let r := deleteOldFilesOfDir os_ok (Path.abs_path ["srv"; "pub"]) sweep_since
             EmptyString "30" "true" sweep_tree in
  fst r !! ["srv"; "pub"; "full"; "old.txt"] = Some (File 420 (bytes "f"))
  /\ fst r !! ["srv"; "pub"; "void"] = None.
Proof.
  split; [|vm_compute; reflexivity].
  destruct (sweep_is_shallow os_ok ["srv"; "pub"] sweep_since EmptyString "30" "true"
              sweep_tree) with (p := ["srv"; "pub"; "full"; "old.txt"])
    as [H | (_ & c & Hc & _)].
  - repeat constructor; discriminate.
  - exact names_ok_sweep_tree.
  - exact H.
  - vm_compute in Hc. discriminate Hc.
Defined.

(** X16.  When the answer is 202 the resolved path is a directory, every
    regular file directly in it that is older than the threshold is gone,
    and the count in the body is the number of objects that disappeared
    from the file system. *)
Theorem old_files_are_removed (os : OS) (ds : list string) (since : list string -> Z)
    (path daysValue recursiveValue : string) (w : FS) (body : list (string * Value)) :
  Path.canon ds -> names_ok w ->
  let k := Path.segs (Path.Join (Path.abs_path ds) path) in
  let r := deleteOldFilesOfDir os (Path.abs_path ds) since path daysValue
             recursiveValue w in
  snd r = JSON 202 body ->
  is_dir (Os.lookup w k) = true
  /\ (forall c, is_file (w !! (k ++ [c])) = true ->
                isOlderThanXDays (since (k ++ [c])) (strconv.Atoi daysValue) = true ->
                fst r !! (k ++ [c]) = None)
  /\ ("count", VInt (Z.of_nat (size w) - Z.of_nat (size (fst r)))) ∈ body.
Proof.
  intros Hds Hw k r Hresp.
  destruct (PathFacts.Join_abs (Path.abs_path ds) path eq_refl) as (ks & Hks & Hj).
  assert (k = ks) as Hk by (unfold k; by rewrite Hj, PathFacts.segs_abs_path).
  rewrite Hk.
  destruct (deleteOldFilesOfDir_outcome os ds Hds since path daysValue recursiveValue
              ks w Hks Hw Hj)
    as [[_ Hno] | (recursive & files & body' & Hrec & Hdir & Hok & Hfiles & Hb & Hcount & _ & Hfst)];
    fold r in Hno || (fold r in Hfst; fold r in Hb).
  { by destruct (Hno body). }
  rewrite Hb in Hresp. injection Hresp as <-.
  rewrite Hfst.
  destruct (sweep_fold ks Hks files w 0 Hok) as (_ & H2 & H3).
  split; [done|]. split.
  - intros c Hf Hold. apply H2; [|done]. apply Hfiles.
    split; [by destruct (w !! (ks ++ [c])); [eexists|]|].
    by rewrite Hf, Hold.
  - rewrite Z.sub_0_r in H3. by rewrite <- H3.
Qed.

Lemma old_files_are_removed_witness :
  let r := deleteOldFilesOfDir os_ok (Path.abs_path ["srv"; "pub"]) sweep_since
             EmptyString "30" EmptyString sweep_tree in
  fst r !! (["srv"; "pub"] ++ ["old.txt"]) = None
  /\ ("count", VInt (Z.of_nat (size sweep_tree) - Z.of_nat (size (fst r))))
     ∈ [("count", VInt 1); ("days", VInt 30); ("deleted_count", VInt 1);
        ("message", VString "Old files deleted successfully");
        ("path", VString EmptyString)].
Proof.
  destruct (old_files_are_removed os_ok ["srv"; "pub"] sweep_since EmptyString "30"
              EmptyString sweep_tree
              [("count", VInt 1); ("days", VInt 30); ("deleted_count", VInt 1);
               ("message", VString "Old files deleted successfully");
               ("path", VString EmptyString)]) as (_ & Hgone & Hcount).
  - repeat constructor; discriminate.
  - exact names_ok_sweep_tree.
  - vm_compute. reflexivity.
  - split; [|exact Hcount]. apply (Hgone "old.txt"); vm_compute; reflexivity.
Defined.

(** ** The [days] field *)

Lemma Atoi_not_a_number (s : string) :
  (forall c rest, s = String c rest ->
     strconv.digit c = None /\ c <> "+"%char /\ c <> "-"%char) ->
  strconv.Atoi s = 0.
Proof.
  intros H. destruct s as [|c rest]; [done|].
  destruct (H c rest eq_refl) as (Hd & Hp & Hm).
  unfold strconv.Atoi.
  assert ((match String c rest with
           | String "+" r => (false, r)
           | String "-" r => (true, r)
           | _ => (false, String c rest)
           end) = (false, String c rest)) as ->.
  { destruct c as [[] [] [] [] [] [] [] []]; try reflexivity; by exfalso. }
  rewrite bool_decide_eq_false_2 by done. cbn [strconv.parseUint]. by rewrite Hd.
Qed.

Lemma isOlderThanXDays_zero (since : Z) :
  isOlderThanXDays since 0 = true <-> 0 < since.
Proof. unfold isOlderThanXDays. change (mul64 (mul64 0 24) time.Hour) with 0. lia. Qed.

(** X17.  The error of [strconv.Atoi] is dropped, so a [days] field that
    is missing, or starts with something other than a digit or a sign,
    counts as zero days: when the answer is 202 it reports [days] as 0 and
    every regular file directly in the directory whose modification time
    is in the past is gone, however recent. *)
Theorem days_that_are_no_number_mean_zero (os : OS) (ds : list string)
    (since : list string -> Z) (path daysValue recursiveValue : string) (w : FS)
    (body : list (string * Value)) :
  Path.canon ds -> names_ok w ->
  (forall c rest, daysValue = String c rest ->
     strconv.digit c = None /\ c <> "+"%char /\ c <> "-"%char) ->
  let k := Path.segs (Path.Join (Path.abs_path ds) path) in
  let r := deleteOldFilesOfDir os (Path.abs_path ds) since path daysValue
             recursiveValue w in
  snd r = JSON 202 body ->
  ("days", VInt 0) ∈ body
  /\ (forall c, is_file (w !! (k ++ [c])) = true -> 0 < since (k ++ [c]) ->
                fst r !! (k ++ [c]) = None).
Proof.
  intros Hds Hw Hnum k r Hresp.
  pose proof (Atoi_not_a_number daysValue Hnum) as Hzero.
  destruct (PathFacts.Join_abs (Path.abs_path ds) path eq_refl) as (ks & Hks & Hj).
  assert (k = ks) as Hk by (unfold k; by rewrite Hj, PathFacts.segs_abs_path).
  rewrite Hk.
  destruct (deleteOldFilesOfDir_outcome os ds Hds since path daysValue recursiveValue
              ks w Hks Hw Hj)
    as [[_ Hno] | (recursive & files & body' & Hrec & Hdir & Hok & Hfiles & Hb & _ & Hdays & Hfst)];
    fold r in Hno || (fold r in Hfst; fold r in Hb).
  { by destruct (Hno body). }
  rewrite Hb in Hresp. injection Hresp as <-.
  rewrite Hzero in Hdays, Hfiles. split; [done|].
  rewrite Hfst.
  destruct (sweep_fold ks Hks files w 0 Hok) as (_ & H2 & _).
  intros c Hf Hage. apply H2; [|done]. apply Hfiles.
  split; [by destruct (w !! (ks ++ [c])); [eexists|]|].
  rewrite Hf. by apply isOlderThanXDays_zero.
Qed.

Lemma days_that_are_no_number_mean_zero_witness :
  let r := deleteOldFilesOfDir os_ok (Path.abs_path ["srv"; "pub"]) sweep_since
             EmptyString "soon" EmptyString sweep_tree in
  fst r !! (["srv"; "pub"] ++ ["new.txt"]) = None.
Proof.
  destruct (days_that_are_no_number_mean_zero os_ok ["srv"; "pub"] sweep_since
              EmptyString "soon" EmptyString sweep_tree
              [("count", VInt 2); ("days", VInt 0); ("deleted_count", VInt 2);
               ("message", VString "Old files deleted successfully");
               ("path", VString EmptyString)]) as (_ & Hgone).
  - repeat constructor; discriminate.
  - exact names_ok_sweep_tree.
  - intros c rest [= <- <-]. vm_compute. repeat split; discriminate.
  - vm_compute. reflexivity.
  - apply (Hgone "new.txt"); vm_compute; reflexivity.
Defined.
